(** * libcaer event packets: polarity and IMU9 events

    A shallow embedding of the event accessors of [polarity.h] and
    [imu9.h] and of the logger of [log.c], with the properties of the
    packet encoding/decoding core proved over it.

    Conventions of the embedding:
    - a C integer of width w is a [Z]; every conversion the C code
      performs (the casts [U16T], [U32T], [U64T], [I64T], the conversion
      of an argument to the type of a parameter) is written out as a
      wrap-around;
    - a struct is a record whose fields hold the value the host reads
      from memory; [htole32]/[le32toh] are the identity on a
      little-endian host and a byte swap on a big-endian one;
    - a function that writes through a pointer returns the pointee
      after the call; a function that may call [caerLog] lives in the
      [Log] state monad, whose state is the logger's threshold and the
      lines written to stderr. *)

From Stdlib Require Import ZArith Lia Bool String Ascii.
From Stdlib Require Import Floats.SpecFloat.
From stdpp Require Import base list.

Local Open Scope Z_scope.

(** ** Fixed-width integers *)

(** The cast macros of [common.h] (not among the sources; each is the
    cast to the type its name gives). *)
Definition U16T (x : Z) : Z := x mod 2 ^ 16.
Definition U32T (x : Z) : Z := x mod 2 ^ 32.
Definition U64T (x : Z) : Z := x mod 2 ^ 64.

(** Conversion to a signed type of [w] bits: two's complement wrap. *)
Definition to_signed (w : Z) (x : Z) : Z :=
  (x + 2 ^ (w - 1)) mod 2 ^ w - 2 ^ (w - 1).

Definition I32T (x : Z) : Z := to_signed 32 x.
Definition I64T (x : Z) : Z := to_signed 64 x.

Definition INT32_MAX : Z := 2 ^ 31 - 1.
Definition INT32_MIN : Z := - 2 ^ 31.

(** Conversion of an integer to [bool]: anything but zero is true. *)
Definition to_bool (x : Z) : bool := negb (x =? 0).

(** [U32T(b)] for a [bool] argument. *)
Definition of_bool (b : bool) : Z := if b then 1 else 0.

(** Bitwise complement on 32 bits: [~x] for a [uint32_t]. *)
Definition not32 (x : Z) : Z := U32T (Z.lnot x).

(** ** Byte order *)

Inductive byte_order := LittleEndian | BigEndian.

(** The four bytes of a 32-bit value in reverse order. *)
Definition bswap32 (x : Z) : Z :=
  Z.lor (Z.lor (Z.shiftl (Z.land x 255) 24)
               (Z.shiftl (Z.land (Z.shiftr x 8) 255) 16))
        (Z.lor (Z.shiftl (Z.land (Z.shiftr x 16) 255) 8)
               (Z.land (Z.shiftr x 24) 255)).

(** [uint32_t htole32(uint32_t)] and [uint32_t le32toh(uint32_t)] of
    <endian.h>: the argument is converted to [uint32_t]. *)
Definition htole32 (host : byte_order) (x : Z) : Z :=
  match host with
  | LittleEndian => U32T x
  | BigEndian => bswap32 (U32T x)
  end.

Definition le32toh (host : byte_order) (x : Z) : Z :=
  match host with
  | LittleEndian => U32T x
  | BigEndian => bswap32 (U32T x)
  end.

(** ** The logger, [log.c] *)

Module Logger.

(** The severities. Their numeric codes are declared in a header that is
    not among the sources; the syslog numbering is taken, which is the
    order of the [switch] in [caerLog]. *)
Definition CAER_LOG_EMERGENCY : Z := 0.
Definition CAER_LOG_ALERT : Z := 1.
Definition CAER_LOG_CRITICAL : Z := 2.
Definition CAER_LOG_ERROR : Z := 3.
Definition CAER_LOG_WARNING : Z := 4.
Definition CAER_LOG_NOTICE : Z := 5.
Definition CAER_LOG_INFO : Z := 6.
Definition CAER_LOG_DEBUG : Z := 7.

(** One [vfprintf] to stderr: the format string built by [caerLog] and
    the variadic arguments handed to it. *)
Record line := { logString : string; logArgs : list Z }.

(** The state the logger reads and writes: the process-wide threshold,
    the clock as [strftime] renders it, and stderr. *)
Record state := {
  caerLogLevel : Z;
  currentTimeString : string;
  stderr : list line
}.

(** [static atomic_uint_fast8_t caerLogLevel = ATOMIC_VAR_INIT(CAER_LOG_ERROR)] *)
Definition initial (now : string) : state :=
  {| caerLogLevel := CAER_LOG_ERROR; currentTimeString := now; stderr := [] |}.

Definition caerLogLevelSet (logLevel : Z) (s : state) : state :=
  {| caerLogLevel := logLevel mod 2 ^ 8;
     currentTimeString := currentTimeString s;
     stderr := stderr s |}.

Definition caerLogLevelGet (s : state) : Z := caerLogLevel s.

Definition logLevelString (logLevel : Z) : string :=
  if logLevel =? CAER_LOG_EMERGENCY then "EMERGENCY"
  else if logLevel =? CAER_LOG_ALERT then "ALERT"
  else if logLevel =? CAER_LOG_CRITICAL then "CRITICAL"
  else if logLevel =? CAER_LOG_ERROR then "ERROR"
  else if logLevel =? CAER_LOG_WARNING then "WARNING"
  else if logLevel =? CAER_LOG_NOTICE then "NOTICE"
  else if logLevel =? CAER_LOG_INFO then "INFO"
  else if logLevel =? CAER_LOG_DEBUG then "DEBUG"
  else "UNKNOWN".

(** The body of [caerLog] once both strings are known not to be NULL. *)
Definition emit (logLevel : Z) (subSystem format : string) (args : list Z)
    (s : state) : state :=
  if logLevel <=? caerLogLevel s then
    {| caerLogLevel := caerLogLevel s;
       currentTimeString := currentTimeString s;
       stderr := stderr s ++
         [ {| logString :=
                (currentTimeString s ++ ": " ++ logLevelString logLevel ++ ": "
                 ++ subSystem ++ ": " ++ format ++ String "010"%char EmptyString)%string;
              logArgs := args |} ] |}
  else s.

(** [caerLog]; a NULL string is [None]. *)
Definition caerLog (logLevel : Z) (subSystem format : option string)
    (args : list Z) (s : state) : state :=
  match subSystem, format with
  | Some sub, Some fmt => emit (logLevel mod 2 ^ 8) sub fmt args s
  | _, _ =>
      emit CAER_LOG_ERROR "Logger"
        "Missing subSystem or format strings. Neither can be NULL." [] s
  end.

End Logger.

(** ** The [Log] monad: a computation that may write to the logger *)

Definition Log (A : Type) : Type := Logger.state -> A * Logger.state.

Definition ret {A} (a : A) : Log A := fun s => (a, s).

Definition bind {A B} (m : Log A) (k : A -> Log B) : Log B :=
  fun s => let (a, s') := m s in k a s'.

Definition run {A} (m : Log A) (s : Logger.state) : A := fst (m s).
Definition log_after {A} (m : Log A) (s : Logger.state) : Logger.state :=
  snd (m s).

(** A diagnostic, compiled in unless [LIBCAER_LOG_NONE] is defined. *)
Definition diagnose (LIBCAER_LOG_NONE : bool) (subSystem format : string)
    (args : list Z) : Log unit :=
  fun s =>
    if LIBCAER_LOG_NONE then (tt, s)
    else (tt, Logger.caerLog Logger.CAER_LOG_CRITICAL
                (Some subSystem) (Some format) args s).

Notation "'do' x <- m ;; k" := (bind m (fun x => k))
  (at level 10, x name, m at level 99, k at level 200).
Notation "'do_' m ;; k" := (bind m (fun _ => k))
  (at level 10, m at level 99, k at level 200).

(** ** The common packet header *)

(** Modelled from the spec: the packet header and its accessors are
    declared in [common.h], which is not among the sources. The spec
    gives it as a fixed-size record of event type, source, capacity,
    number of events, number of valid events and timestamp-overflow
    counter, with a get and a set operation for each field. The
    counters are [int32_t], as the [PRIi32] conversions and the
    prototypes of the allocators in [polarity.h] and [imu9.h] show. *)
Record caer_event_packet_header := {
  eventType : Z;
  eventSource : Z;
  eventTSOverflow : Z;
  eventCapacity : Z;
  eventNumber : Z;
  eventValid : Z
}.

Definition caerEventPacketHeaderGetEventTSOverflow (h : caer_event_packet_header) : Z :=
  eventTSOverflow h.
Definition caerEventPacketHeaderGetEventCapacity (h : caer_event_packet_header) : Z :=
  eventCapacity h.
Definition caerEventPacketHeaderGetEventNumber (h : caer_event_packet_header) : Z :=
  eventNumber h.
Definition caerEventPacketHeaderGetEventValid (h : caer_event_packet_header) : Z :=
  eventValid h.

Definition caerEventPacketHeaderSetEventNumber (h : caer_event_packet_header) (v : Z)
    : caer_event_packet_header :=
  {| eventType := eventType h; eventSource := eventSource h;
     eventTSOverflow := eventTSOverflow h; eventCapacity := eventCapacity h;
     eventNumber := v; eventValid := eventValid h |}.

Definition caerEventPacketHeaderSetEventValid (h : caer_event_packet_header) (v : Z)
    : caer_event_packet_header :=
  {| eventType := eventType h; eventSource := eventSource h;
     eventTSOverflow := eventTSOverflow h; eventCapacity := eventCapacity h;
     eventNumber := eventNumber h; eventValid := v |}.

(** Modelled from the spec: the shifts and masks of [common.h]. The
    validity bit is bit 0 of the first word of every event, and the
    overflow counter is shifted left by 31. *)
Definition VALID_MARK_SHIFT : Z := 0.
Definition VALID_MARK_MASK : Z := 1.
Definition TS_OVERFLOW_SHIFT : Z := 31.

(** [a + b] and [a - b] on [int32_t]. Signed overflow, which C leaves
    undefined, wraps around here; the theorems that speak of the sum
    say when it stays in range. *)
Definition add32 (a b : Z) : Z := I32T (a + b).
Definition sub32 (a b : Z) : Z := I32T (a - b).

(** [x << n] on [uint32_t]. *)
Definition shl32 (x n : Z) : Z := U32T (Z.shiftl x n).

(** [x << n] on [uint64_t]. *)
Definition shl64 (x n : Z) : Z := U64T (Z.shiftl x n).

(** ** Polarity events, [polarity.h] *)

Module Polarity.

Definition POLARITY_SHIFT : Z := 1.
Definition POLARITY_MASK : Z := 0x00000001.
Definition Y_ADDR_SHIFT : Z := 2.
Definition Y_ADDR_MASK : Z := 0x00007FFF.
Definition X_ADDR_SHIFT : Z := 17.
Definition X_ADDR_MASK : Z := 0x00007FFF.

Record caer_polarity_event := {
  data : Z;       (* uint32_t *)
  timestamp : Z   (* int32_t *)
}.

Record caer_polarity_event_packet := {
  packetHeader : caer_event_packet_header;
  events : list caer_polarity_event
}.

(** A [caerPolarityEvent] obtained from a packet: the offset of the
    event in [events]; [None] is NULL. *)
Definition caerPolarityEvent := option Z.

Definition set_data (e : caer_polarity_event) (d : Z) : caer_polarity_event :=
  {| data := d; timestamp := timestamp e |}.

Definition set_timestamp (e : caer_polarity_event) (t : Z) : caer_polarity_event :=
  {| data := data e; timestamp := t |}.

Section Accessors.

Variable host : byte_order.
Variable LIBCAER_LOG_NONE : bool.

(** The packet is returned next to the pointer: it is the packet after
    the call. *)
Definition caerPolarityEventPacketGetEvent (packet : caer_polarity_event_packet) (n : Z)
    : Log (caerPolarityEvent * caer_polarity_event_packet) :=
  if (n <? 0) || (n >=? caerEventPacketHeaderGetEventCapacity (packetHeader packet)) then
    do_ diagnose LIBCAER_LOG_NONE "Polarity Event"
      "Called caerPolarityEventPacketGetEvent() with invalid event offset %i, while maximum allowed value is %i."
      [n; caerEventPacketHeaderGetEventCapacity (packetHeader packet)] ;;
    ret (None, packet)
  else
    ret (Some n, packet).

Definition caerPolarityEventGetTimestamp (event : caer_polarity_event) : Z :=
  I32T (le32toh host (timestamp event)).

(** Of the packet only [&packet->packetHeader] is used. *)
Definition caerPolarityEventGetTimestamp64 (event : caer_polarity_event)
    (header : caer_event_packet_header) : Z :=
  I64T (Z.lor (shl64 (U64T (caerEventPacketHeaderGetEventTSOverflow header)) TS_OVERFLOW_SHIFT)
              (U64T (caerPolarityEventGetTimestamp event))).

Definition caerPolarityEventSetTimestamp (event : caer_polarity_event) (ts : Z)
    : Log caer_polarity_event :=
  if ts <? 0 then
    do_ diagnose LIBCAER_LOG_NONE "Polarity Event"
      "Called caerPolarityEventSetTimestamp() with negative value!" [] ;;
    ret event
  else
    ret (set_timestamp event (I32T (htole32 host ts))).

Definition caerPolarityEventIsValid (event : caer_polarity_event) : bool :=
  to_bool (Z.land (Z.shiftr (le32toh host (data event)) VALID_MARK_SHIFT) VALID_MARK_MASK).

(** Of the packet only [&packet->packetHeader] is used, so the
    function is given the header and returns the event and the header
    after the call. *)
Definition caerPolarityEventValidate (event : caer_polarity_event)
    (header : caer_event_packet_header)
    : Log (caer_polarity_event * caer_event_packet_header) :=
  if negb (caerPolarityEventIsValid event) then
    let event' :=
      set_data event (Z.lor (data event) (htole32 host (shl32 (U32T 1) VALID_MARK_SHIFT))) in
    let header1 :=
      caerEventPacketHeaderSetEventNumber header
        (add32 (caerEventPacketHeaderGetEventNumber header) 1) in
    let header2 :=
      caerEventPacketHeaderSetEventValid header1
        (add32 (caerEventPacketHeaderGetEventValid header1) 1) in
    ret (event', header2)
  else
    do_ diagnose LIBCAER_LOG_NONE "Polarity Event"
      "Called caerPolarityEventValidate() on already valid event." [] ;;
    ret (event, header).

Definition caerPolarityEventInvalidate (event : caer_polarity_event)
    (header : caer_event_packet_header)
    : Log (caer_polarity_event * caer_event_packet_header) :=
  if caerPolarityEventIsValid event then
    let event' :=
      set_data event
        (Z.land (data event) (htole32 host (not32 (shl32 (U32T 1) VALID_MARK_SHIFT)))) in
    let header1 :=
      caerEventPacketHeaderSetEventValid header
        (sub32 (caerEventPacketHeaderGetEventValid header) 1) in
    ret (event', header1)
  else
    do_ diagnose LIBCAER_LOG_NONE "Polarity Event"
      "Called caerPolarityEventInvalidate() on already invalid event." [] ;;
    ret (event, header).

Definition caerPolarityEventGetPolarity (event : caer_polarity_event) : bool :=
  to_bool (Z.land (Z.shiftr (le32toh host (data event)) POLARITY_SHIFT) POLARITY_MASK).

Definition caerPolarityEventSetPolarity (event : caer_polarity_event) (polarity : bool)
    : caer_polarity_event :=
  set_data event
    (Z.lor (data event)
       (htole32 host (shl32 (Z.land (U32T (of_bool polarity)) POLARITY_MASK) POLARITY_SHIFT))).

Definition caerPolarityEventGetY (event : caer_polarity_event) : Z :=
  U16T (Z.land (Z.shiftr (le32toh host (data event)) Y_ADDR_SHIFT) Y_ADDR_MASK).

Definition caerPolarityEventSetY (event : caer_polarity_event) (yAddress : Z)
    : caer_polarity_event :=
  set_data event
    (Z.lor (data event)
       (htole32 host (shl32 (Z.land (U32T yAddress) Y_ADDR_MASK) Y_ADDR_SHIFT))).

Definition caerPolarityEventGetX (event : caer_polarity_event) : Z :=
  U16T (Z.land (Z.shiftr (le32toh host (data event)) X_ADDR_SHIFT) X_ADDR_MASK).

Definition caerPolarityEventSetX (event : caer_polarity_event) (xAddress : Z)
    : caer_polarity_event :=
  set_data event
    (Z.lor (data event)
       (htole32 host (shl32 (Z.land (U32T xAddress) X_ADDR_MASK) X_ADDR_SHIFT))).

End Accessors.

End Polarity.

(** ** Packets of polarity events *)

Module PolarityPacket.
Import Polarity.

Section Packet.

Variable host : byte_order.
Variable LIBCAER_LOG_NONE : bool.

(** The id of the polarity event type, declared in [common.h]. *)
Variable POLARITY_EVENT : Z.

(** Modelled from the spec: [caerPolarityEventPacketAllocate], of which
    the sources have the prototype only. It fails (NULL) when the
    capacity is not positive; otherwise the header holds the type id,
    the source, the capacity, zero events, zero valid events and the
    given overflow counter, and the storage of the events is zero-filled.
    Running out of memory, the other failure, is not modelled. *)
Definition caerPolarityEventPacketAllocate (eventCapacity eventSource tsOverflow : Z)
    : option caer_polarity_event_packet :=
  if eventCapacity <=? 0 then None
  else Some
    {| packetHeader :=
         {| eventType := POLARITY_EVENT; eventSource := eventSource;
            eventTSOverflow := tsOverflow; eventCapacity := eventCapacity;
            eventNumber := 0; eventValid := 0 |};
       events := replicate (Z.to_nat eventCapacity) {| data := 0; timestamp := 0 |} |}.

(** Reading and writing the event a non-NULL [caerPolarityEvent] of the
    packet points to. *)
Definition load (packet : caer_polarity_event_packet) (p : Z) : option caer_polarity_event :=
  events packet !! Z.to_nat p.

Definition store (packet : caer_polarity_event_packet) (p : Z)
    (e : caer_polarity_event) (h : caer_event_packet_header)
    : caer_polarity_event_packet :=
  {| packetHeader := h; events := <[Z.to_nat p := e]> (events packet) |}.

(** A call of [f] (validate or invalidate) on event [n] of the packet,
    by a caller that checks the result of
    [caerPolarityEventPacketGetEvent] for NULL before using it. *)
Definition on_event
    (f : caer_polarity_event -> caer_event_packet_header
         -> Log (caer_polarity_event * caer_event_packet_header))
    (packet : caer_polarity_event_packet) (n : Z) : Log caer_polarity_event_packet :=
  do r <- caerPolarityEventPacketGetEvent LIBCAER_LOG_NONE packet n ;;
  match fst r with
  | None => ret (snd r)
  | Some p =>
      match load (snd r) p with
      | None => ret (snd r)
      | Some e =>
          do eh <- f e (packetHeader (snd r)) ;;
          ret (store (snd r) p (fst eh) (snd eh))
      end
  end.

Inductive call :=
  | Validate (n : Z)
  | Invalidate (n : Z).

Definition perform (packet : caer_polarity_event_packet) (c : call)
    : Log caer_polarity_event_packet :=
  match c with
  | Validate n => on_event (caerPolarityEventValidate host LIBCAER_LOG_NONE) packet n
  | Invalidate n => on_event (caerPolarityEventInvalidate host LIBCAER_LOG_NONE) packet n
  end.

Fixpoint perform_all (packet : caer_polarity_event_packet) (cs : list call)
    : Log caer_polarity_event_packet :=
  match cs with
  | [] => ret packet
  | c :: cs' => do packet' <- perform packet c ;; perform_all packet' cs'
  end.

End Packet.

(** The invariant the spec gives for the header. *)
Definition header_invariant (h : caer_event_packet_header) : Prop :=
  0 <= eventValid h /\ eventValid h <= eventNumber h /\ eventNumber h <= eventCapacity h.

(** No event is validated after a call that invalidates it. *)
Fixpoint no_revalidation (cs : list call) : Prop :=
  match cs with
  | [] => True
  | Invalidate n :: cs' => ~ In (Validate n) cs' /\ no_revalidation cs'
  | Validate _ :: cs' => no_revalidation cs'
  end.

End PolarityPacket.

(** ** Single-precision floats and their conversions to and from [uint32_t] *)

(** A [float] is an IEEE 754 binary32 value: 24 bits of precision,
    exponents below 128. *)
Definition float : Type := spec_float.

Definition float_valid (f : float) : bool := valid_binary 24 128 f.

(** Conversion of a [float] to [uint32_t]: the fractional part is
    discarded; the conversion is undefined ([None]) when the integral
    part is not a value of [uint32_t], and for infinities and NaN. *)
Definition uint32_of_float (f : float) : option Z :=
  match f with
  | S754_zero _ => Some 0
  | S754_finite s m e =>
      let magnitude :=
        if 0 <=? e then Z.pos m * 2 ^ e else Z.pos m / 2 ^ (- e) in
      let integral := if s then - magnitude else magnitude in
      if (0 <=? integral) && (integral <? 2 ^ 32) then Some integral else None
  | S754_infinity _ | S754_nan => None
  end.

(** Conversion of a [uint32_t] to [float]: the nearest binary32 value,
    ties to even. *)
Definition float_of_uint32 (n : Z) : float := binary_normalize 24 128 n 0 false.

(** What [htole32(x)] and [le32toh(x)] do to a [float] argument [x]:
    both are [uint32_t f(uint32_t)], so the argument is converted to
    [uint32_t], and the result is converted to [float] where it is
    stored or returned. *)
Definition through (f : Z -> Z) (x : float) : option float :=
  match uint32_of_float x with
  | Some n => Some (float_of_uint32 (f n))
  | None => None
  end.

(** ** IMU9 events, [imu9.h] *)

Module IMU9.

Record caer_imu9_event := {
  info : Z;        (* uint32_t *)
  timestamp : Z;   (* int32_t *)
  accel_x : float;
  accel_y : float;
  accel_z : float;
  gyro_x : float;
  gyro_y : float;
  gyro_z : float;
  temp : float;
  comp_x : float;
  comp_y : float;
  comp_z : float
}.

Record caer_imu9_event_packet := {
  packetHeader : caer_event_packet_header;
  events : list caer_imu9_event
}.

Definition caerIMU9Event := option Z.

Definition set_info (e : caer_imu9_event) (v : Z) : caer_imu9_event :=
  {| info := v; timestamp := timestamp e;
     accel_x := accel_x e; accel_y := accel_y e; accel_z := accel_z e;
     gyro_x := gyro_x e; gyro_y := gyro_y e; gyro_z := gyro_z e;
     temp := temp e;
     comp_x := comp_x e; comp_y := comp_y e; comp_z := comp_z e |}.

Definition set_timestamp (e : caer_imu9_event) (v : Z) : caer_imu9_event :=
  {| info := info e; timestamp := v;
     accel_x := accel_x e; accel_y := accel_y e; accel_z := accel_z e;
     gyro_x := gyro_x e; gyro_y := gyro_y e; gyro_z := gyro_z e;
     temp := temp e;
     comp_x := comp_x e; comp_y := comp_y e; comp_z := comp_z e |}.

Definition set_accel_x (e : caer_imu9_event) (v : float) : caer_imu9_event :=
  {| info := info e; timestamp := timestamp e;
     accel_x := v; accel_y := accel_y e; accel_z := accel_z e;
     gyro_x := gyro_x e; gyro_y := gyro_y e; gyro_z := gyro_z e;
     temp := temp e;
     comp_x := comp_x e; comp_y := comp_y e; comp_z := comp_z e |}.

Definition set_accel_y (e : caer_imu9_event) (v : float) : caer_imu9_event :=
  {| info := info e; timestamp := timestamp e;
     accel_x := accel_x e; accel_y := v; accel_z := accel_z e;
     gyro_x := gyro_x e; gyro_y := gyro_y e; gyro_z := gyro_z e;
     temp := temp e;
     comp_x := comp_x e; comp_y := comp_y e; comp_z := comp_z e |}.

Definition set_accel_z (e : caer_imu9_event) (v : float) : caer_imu9_event :=
  {| info := info e; timestamp := timestamp e;
     accel_x := accel_x e; accel_y := accel_y e; accel_z := v;
     gyro_x := gyro_x e; gyro_y := gyro_y e; gyro_z := gyro_z e;
     temp := temp e;
     comp_x := comp_x e; comp_y := comp_y e; comp_z := comp_z e |}.

Definition set_gyro_x (e : caer_imu9_event) (v : float) : caer_imu9_event :=
  {| info := info e; timestamp := timestamp e;
     accel_x := accel_x e; accel_y := accel_y e; accel_z := accel_z e;
     gyro_x := v; gyro_y := gyro_y e; gyro_z := gyro_z e;
     temp := temp e;
     comp_x := comp_x e; comp_y := comp_y e; comp_z := comp_z e |}.

Definition set_gyro_y (e : caer_imu9_event) (v : float) : caer_imu9_event :=
  {| info := info e; timestamp := timestamp e;
     accel_x := accel_x e; accel_y := accel_y e; accel_z := accel_z e;
     gyro_x := gyro_x e; gyro_y := v; gyro_z := gyro_z e;
     temp := temp e;
     comp_x := comp_x e; comp_y := comp_y e; comp_z := comp_z e |}.

Definition set_gyro_z (e : caer_imu9_event) (v : float) : caer_imu9_event :=
  {| info := info e; timestamp := timestamp e;
     accel_x := accel_x e; accel_y := accel_y e; accel_z := accel_z e;
     gyro_x := gyro_x e; gyro_y := gyro_y e; gyro_z := v;
     temp := temp e;
     comp_x := comp_x e; comp_y := comp_y e; comp_z := comp_z e |}.

Definition set_temp (e : caer_imu9_event) (v : float) : caer_imu9_event :=
  {| info := info e; timestamp := timestamp e;
     accel_x := accel_x e; accel_y := accel_y e; accel_z := accel_z e;
     gyro_x := gyro_x e; gyro_y := gyro_y e; gyro_z := gyro_z e;
     temp := v;
     comp_x := comp_x e; comp_y := comp_y e; comp_z := comp_z e |}.

Definition set_comp_x (e : caer_imu9_event) (v : float) : caer_imu9_event :=
  {| info := info e; timestamp := timestamp e;
     accel_x := accel_x e; accel_y := accel_y e; accel_z := accel_z e;
     gyro_x := gyro_x e; gyro_y := gyro_y e; gyro_z := gyro_z e;
     temp := temp e;
     comp_x := v; comp_y := comp_y e; comp_z := comp_z e |}.

Definition set_comp_y (e : caer_imu9_event) (v : float) : caer_imu9_event :=
  {| info := info e; timestamp := timestamp e;
     accel_x := accel_x e; accel_y := accel_y e; accel_z := accel_z e;
     gyro_x := gyro_x e; gyro_y := gyro_y e; gyro_z := gyro_z e;
     temp := temp e;
     comp_x := comp_x e; comp_y := v; comp_z := comp_z e |}.

Definition set_comp_z (e : caer_imu9_event) (v : float) : caer_imu9_event :=
  {| info := info e; timestamp := timestamp e;
     accel_x := accel_x e; accel_y := accel_y e; accel_z := accel_z e;
     gyro_x := gyro_x e; gyro_y := gyro_y e; gyro_z := gyro_z e;
     temp := temp e;
     comp_x := comp_x e; comp_y := comp_y e; comp_z := v |}.

Section Accessors.

Variable host : byte_order.
Variable LIBCAER_LOG_NONE : bool.

Definition caerIMU9EventPacketGetEvent (packet : caer_imu9_event_packet) (n : Z)
    : Log (caerIMU9Event * caer_imu9_event_packet) :=
  if (n <? 0) || (n >=? caerEventPacketHeaderGetEventCapacity (packetHeader packet)) then
    do_ diagnose LIBCAER_LOG_NONE "IMU9 Event"
      "Called caerIMU9EventPacketGetEvent() with invalid event offset %i, while maximum allowed value is %i."
      [n; caerEventPacketHeaderGetEventCapacity (packetHeader packet)] ;;
    ret (None, packet)
  else
    ret (Some n, packet).

Definition caerIMU9EventGetTimestamp (event : caer_imu9_event) : Z :=
  I32T (le32toh host (timestamp event)).

Definition caerIMU9EventGetTimestamp64 (event : caer_imu9_event)
    (header : caer_event_packet_header) : Z :=
  I64T (Z.lor (shl64 (U64T (caerEventPacketHeaderGetEventTSOverflow header)) TS_OVERFLOW_SHIFT)
              (U64T (caerIMU9EventGetTimestamp event))).

Definition caerIMU9EventSetTimestamp (event : caer_imu9_event) (ts : Z)
    : Log caer_imu9_event :=
  if ts <? 0 then
    do_ diagnose LIBCAER_LOG_NONE "IMU9 Event"
      "Called caerIMU9EventSetTimestamp() with negative value!" [] ;;
    ret event
  else
    ret (set_timestamp event (I32T (htole32 host ts))).

Definition caerIMU9EventIsValid (event : caer_imu9_event) : bool :=
  to_bool (Z.land (Z.shiftr (le32toh host (info event)) VALID_MARK_SHIFT) VALID_MARK_MASK).

Definition caerIMU9EventValidate (event : caer_imu9_event)
    (header : caer_event_packet_header)
    : Log (caer_imu9_event * caer_event_packet_header) :=
  if negb (caerIMU9EventIsValid event) then
    let event' :=
      set_info event (Z.lor (info event) (htole32 host (shl32 (U32T 1) VALID_MARK_SHIFT))) in
    let header1 :=
      caerEventPacketHeaderSetEventNumber header
        (add32 (caerEventPacketHeaderGetEventNumber header) 1) in
    let header2 :=
      caerEventPacketHeaderSetEventValid header1
        (add32 (caerEventPacketHeaderGetEventValid header1) 1) in
    ret (event', header2)
  else
    do_ diagnose LIBCAER_LOG_NONE "IMU9 Event"
      "Called caerIMU9EventValidate() on already valid event." [] ;;
    ret (event, header).

Definition caerIMU9EventInvalidate (event : caer_imu9_event)
    (header : caer_event_packet_header)
    : Log (caer_imu9_event * caer_event_packet_header) :=
  if caerIMU9EventIsValid event then
    let event' :=
      set_info event
        (Z.land (info event) (htole32 host (not32 (shl32 (U32T 1) VALID_MARK_SHIFT)))) in
    let header1 :=
      caerEventPacketHeaderSetEventValid header
        (sub32 (caerEventPacketHeaderGetEventValid header) 1) in
    ret (event', header1)
  else
    do_ diagnose LIBCAER_LOG_NONE "IMU9 Event"
      "Called caerIMU9EventInvalidate() on already invalid event." [] ;;
    ret (event, header).

(** The accessors of the [float] fields. A conversion of a [float] to
    [uint32_t] that C leaves undefined makes the result [None]. *)
Definition caerIMU9EventGetAccelX (event : caer_imu9_event) : option float :=
  through (le32toh host) (accel_x event).

Definition caerIMU9EventSetAccelX (event : caer_imu9_event) (v : float)
    : option caer_imu9_event :=
  option_map (set_accel_x event) (through (htole32 host) v).

Definition caerIMU9EventGetAccelY (event : caer_imu9_event) : option float :=
  through (le32toh host) (accel_y event).

Definition caerIMU9EventSetAccelY (event : caer_imu9_event) (v : float)
    : option caer_imu9_event :=
  option_map (set_accel_y event) (through (htole32 host) v).

Definition caerIMU9EventGetAccelZ (event : caer_imu9_event) : option float :=
  through (le32toh host) (accel_z event).

Definition caerIMU9EventSetAccelZ (event : caer_imu9_event) (v : float)
    : option caer_imu9_event :=
  option_map (set_accel_z event) (through (htole32 host) v).

Definition caerIMU9EventGetGyroX (event : caer_imu9_event) : option float :=
  through (le32toh host) (gyro_x event).

Definition caerIMU9EventSetGyroX (event : caer_imu9_event) (v : float)
    : option caer_imu9_event :=
  option_map (set_gyro_x event) (through (htole32 host) v).

Definition caerIMU9EventGetGyroY (event : caer_imu9_event) : option float :=
  through (le32toh host) (gyro_y event).

Definition caerIMU9EventSetGyroY (event : caer_imu9_event) (v : float)
    : option caer_imu9_event :=
  option_map (set_gyro_y event) (through (htole32 host) v).

Definition caerIMU9EventGetGyroZ (event : caer_imu9_event) : option float :=
  through (le32toh host) (gyro_z event).

Definition caerIMU9EventSetGyroZ (event : caer_imu9_event) (v : float)
    : option caer_imu9_event :=
  option_map (set_gyro_z event) (through (htole32 host) v).

Definition caerIMU9EventGetTemp (event : caer_imu9_event) : option float :=
  through (le32toh host) (temp event).

Definition caerIMU9EventSetTemp (event : caer_imu9_event) (v : float)
    : option caer_imu9_event :=
  option_map (set_temp event) (through (htole32 host) v).

Definition caerIMU9EventGetCompX (event : caer_imu9_event) : option float :=
  through (le32toh host) (comp_x event).

Definition caerIMU9EventSetCompX (event : caer_imu9_event) (v : float)
    : option caer_imu9_event :=
  option_map (set_comp_x event) (through (htole32 host) v).

Definition caerIMU9EventGetCompY (event : caer_imu9_event) : option float :=
  through (le32toh host) (comp_y event).

Definition caerIMU9EventSetCompY (event : caer_imu9_event) (v : float)
    : option caer_imu9_event :=
  option_map (set_comp_y event) (through (htole32 host) v).

Definition caerIMU9EventGetCompZ (event : caer_imu9_event) : option float :=
  through (le32toh host) (comp_z event).

Definition caerIMU9EventSetCompZ (event : caer_imu9_event) (v : float)
    : option caer_imu9_event :=
  option_map (set_comp_z event) (through (htole32 host) v).

(** The ten [float] fields, in the order of the struct, and the getter
    and the setter of each. *)
Inductive channel :=
  | AccelX | AccelY | AccelZ | GyroX | GyroY | GyroZ | Temp | CompX | CompY | CompZ.

Definition getter (c : channel) : caer_imu9_event -> option float :=
  match c with
  | AccelX => caerIMU9EventGetAccelX
  | AccelY => caerIMU9EventGetAccelY
  | AccelZ => caerIMU9EventGetAccelZ
  | GyroX => caerIMU9EventGetGyroX
  | GyroY => caerIMU9EventGetGyroY
  | GyroZ => caerIMU9EventGetGyroZ
  | Temp => caerIMU9EventGetTemp
  | CompX => caerIMU9EventGetCompX
  | CompY => caerIMU9EventGetCompY
  | CompZ => caerIMU9EventGetCompZ
  end.

Definition setter (c : channel) : caer_imu9_event -> float -> option caer_imu9_event :=
  match c with
  | AccelX => caerIMU9EventSetAccelX
  | AccelY => caerIMU9EventSetAccelY
  | AccelZ => caerIMU9EventSetAccelZ
  | GyroX => caerIMU9EventSetGyroX
  | GyroY => caerIMU9EventSetGyroY
  | GyroZ => caerIMU9EventSetGyroZ
  | Temp => caerIMU9EventSetTemp
  | CompX => caerIMU9EventSetCompX
  | CompY => caerIMU9EventSetCompY
  | CompZ => caerIMU9EventSetCompZ
  end.

End Accessors.

End IMU9.

(** ** Definitions the statements use *)

(** Two calls in a row, the second on what the first left. *)
Definition in_turn {E}
    (f g : E -> caer_event_packet_header -> Log (E * caer_event_packet_header))
    (e : E) (h : caer_event_packet_header) : Log (E * caer_event_packet_header) :=
  do r <- f e h ;; g (fst r) (snd r).

Definition twice {E} (f : E -> caer_event_packet_header -> Log (E * caer_event_packet_header))
    : E -> caer_event_packet_header -> Log (E * caer_event_packet_header) :=
  in_turn f f.

(** The word of a polarity event as every accessor reads it. *)
Definition polarity_word (host : byte_order) (e : Polarity.caer_polarity_event) : Z :=
  le32toh host (Polarity.data e).

(** 1.5 and 1.0 as binary32 values. *)
Definition one_and_a_half : float := S754_finite false 12582912 (-23).
Definition one : float := S754_finite false 8388608 (-23).


(** ** Counting, for the protocol of validate and invalidate *)

(** How many elements of [l] satisfy [f]. *)
Fixpoint count {A} (f : A -> bool) (l : list A) : Z :=
  match l with
  | [] => 0
  | x :: l' => (if f x then 1 else 0) + count f l'
  end.

(** The event with the validity mark set, and the header with both
    counters one up: what validate leaves of an invalid event. *)
Definition marked (host : byte_order) (e : Polarity.caer_polarity_event)
    : Polarity.caer_polarity_event :=
  Polarity.set_data e
    (Z.lor (Polarity.data e) (htole32 host (shl32 (U32T 1) VALID_MARK_SHIFT))).

Definition counted (h : caer_event_packet_header) : caer_event_packet_header :=
  {| eventType := eventType h; eventSource := eventSource h;
     eventTSOverflow := eventTSOverflow h; eventCapacity := eventCapacity h;
     eventNumber := add32 (eventNumber h) 1;
     eventValid := add32 (eventValid h) 1 |}.

(** The event with the validity mark cleared, and the header with
    [eventValid] one down: what invalidate leaves of a valid event. *)
Definition unmarked (host : byte_order) (e : Polarity.caer_polarity_event)
    : Polarity.caer_polarity_event :=
  Polarity.set_data e
    (Z.land (Polarity.data e)
       (htole32 host (not32 (shl32 (U32T 1) VALID_MARK_SHIFT)))).

Definition uncounted (h : caer_event_packet_header) : caer_event_packet_header :=
  {| eventType := eventType h; eventSource := eventSource h;
     eventTSOverflow := eventTSOverflow h; eventCapacity := eventCapacity h;
     eventNumber := eventNumber h;
     eventValid := sub32 (eventValid h) 1 |}.

(** A packet of capacity [c] whose counters agree with its events:
    [eventValid] counts the valid events, and [eventNumber] counts the
    events of [touched], those validated at some time, among them all
    the valid ones. *)
Record tracked (host : byte_order) (c : Z)
    (p : Polarity.caer_polarity_event_packet) (touched : list bool) : Prop := {
  tracked_capacity : eventCapacity (Polarity.packetHeader p) = c;
  tracked_int32 : c <= INT32_MAX;
  tracked_events : Z.of_nat (length (Polarity.events p)) = c;
  tracked_touched : length touched = length (Polarity.events p);
  tracked_valid :
    eventValid (Polarity.packetHeader p)
    = count (Polarity.caerPolarityEventIsValid host) (Polarity.events p);
  tracked_number : eventNumber (Polarity.packetHeader p) = count id touched;
  tracked_sub : forall i e,
    Polarity.events p !! i = Some e ->
    Polarity.caerPolarityEventIsValid host e = true ->
    touched !! i = Some true
}.

(** No call still to come validates an event that was validated once
    and is invalid now. *)
Definition pending (host : byte_order) (p : Polarity.caer_polarity_event_packet)
    (touched : list bool) (cs : list PolarityPacket.call) : Prop :=
  forall i e,
    Polarity.events p !! i = Some e ->
    Polarity.caerPolarityEventIsValid host e = false ->
    touched !! i = Some true ->
    ~ In (PolarityPacket.Validate (Z.of_nat i)) cs.

(** A packet of capacity [c] whose [eventValid] counts the valid
    events, with [eventNumber] between [eventValid] and [k]. *)
Record counting (host : byte_order) (c k : Z)
    (p : Polarity.caer_polarity_event_packet) : Prop := {
  counting_capacity : eventCapacity (Polarity.packetHeader p) = c;
  counting_int32 : c <= INT32_MAX;
  counting_events : Z.of_nat (length (Polarity.events p)) = c;
  counting_valid :
    eventValid (Polarity.packetHeader p)
    = count (Polarity.caerPolarityEventIsValid host) (Polarity.events p);
  counting_number :
    eventValid (Polarity.packetHeader p) <= eventNumber (Polarity.packetHeader p) <= k
}.

(** The packet of the counterexample to the invariant: capacity 1. *)
Definition packet_of_one : Polarity.caer_polarity_event_packet :=
  {| Polarity.packetHeader :=
       {| eventType := 1; eventSource := 0; eventTSOverflow := 0;
          eventCapacity := 1; eventNumber := 0; eventValid := 0 |};
     Polarity.events := [ {| Polarity.data := 0; Polarity.timestamp := 0 |} ] |}.

(** ** Sample values *)

(** A header with no event counted yet, a polarity event and an IMU9
    event with the validity mark clear, and one of each with it set. *)
Definition sample_header : caer_event_packet_header :=
  {| eventType := 1; eventSource := 0; eventTSOverflow := 3;
     eventCapacity := 2; eventNumber := 1; eventValid := 1 |}.

Definition sample_polarity (d : Z) : Polarity.caer_polarity_event :=
  {| Polarity.data := d; Polarity.timestamp := 5 |}.

Definition sample_imu9 (i : Z) : IMU9.caer_imu9_event :=
  let o := S754_zero false in
  IMU9.Build_caer_imu9_event i 5 o o o o o o o o o o.

Definition sample_log : Logger.state := Logger.initial "1970-01-01 00:00:00".

Definition sample_polarity_packet : Polarity.caer_polarity_event_packet :=
  {| Polarity.packetHeader := sample_header;
     Polarity.events := [sample_polarity 1; sample_polarity 0] |}.

Definition sample_imu9_packet : IMU9.caer_imu9_event_packet :=
  {| IMU9.packetHeader := sample_header;
     IMU9.events := [sample_imu9 1; sample_imu9 0] |}.

(** A fresh packet of capacity 2, as the allocator returns it. *)
Definition fresh_packet_of_two : Polarity.caer_polarity_event_packet :=
  {| Polarity.packetHeader :=
       {| eventType := 1; eventSource := 0; eventTSOverflow := 0;
          eventCapacity := 2; eventNumber := 0; eventValid := 0 |};
     Polarity.events := replicate 2 {| Polarity.data := 0; Polarity.timestamp := 0 |} |}.

(** ** Definitions for the properties beyond the claims *)

(** The number of lines on stderr. *)
Definition lines (L : Logger.state) : nat := length (Logger.stderr L).

(** One more line when [b] holds. *)
Definition one_if (b : bool) : nat := if b then 1%nat else 0%nat.

(** Whether a line of severity CRITICAL gets through: logging is
    compiled in and the threshold is CRITICAL or above. *)
Definition critical_shown (LIBCAER_LOG_NONE : bool) (L : Logger.state) : bool :=
  negb LIBCAER_LOG_NONE && (Logger.CAER_LOG_CRITICAL <=? Logger.caerLogLevel L).

(** Two polarity events that differ in the validity mark at most: the
    same X address, Y address, polarity and timestamp, and the same
    bits of the data word from bit 1 on. *)
Definition polarity_same_but_mark (host : byte_order)
    (e' e : Polarity.caer_polarity_event) : Prop :=
  Polarity.caerPolarityEventGetX host e' = Polarity.caerPolarityEventGetX host e /\
  Polarity.caerPolarityEventGetY host e' = Polarity.caerPolarityEventGetY host e /\
  Polarity.caerPolarityEventGetPolarity host e'
    = Polarity.caerPolarityEventGetPolarity host e /\
  Polarity.caerPolarityEventGetTimestamp host e'
    = Polarity.caerPolarityEventGetTimestamp host e /\
  (forall i, i <> 0 ->
     Z.testbit (le32toh host (Polarity.data e')) i
     = Z.testbit (le32toh host (Polarity.data e)) i).

(** Two IMU9 events that differ in the validity mark at most: the same
    timestamp and float fields, and the same bits of the info word from
    bit 1 on. *)
Definition imu9_same_but_mark (host : byte_order)
    (e' e : IMU9.caer_imu9_event) : Prop :=
  IMU9.timestamp e' = IMU9.timestamp e /\
  (IMU9.accel_x e', IMU9.accel_y e', IMU9.accel_z e')
    = (IMU9.accel_x e, IMU9.accel_y e, IMU9.accel_z e) /\
  (IMU9.gyro_x e', IMU9.gyro_y e', IMU9.gyro_z e')
    = (IMU9.gyro_x e, IMU9.gyro_y e, IMU9.gyro_z e) /\
  (IMU9.temp e', IMU9.comp_x e', IMU9.comp_y e', IMU9.comp_z e')
    = (IMU9.temp e, IMU9.comp_x e, IMU9.comp_y e, IMU9.comp_z e) /\
  (forall i, i <> 0 ->
     Z.testbit (le32toh host (IMU9.info e')) i
     = Z.testbit (le32toh host (IMU9.info e)) i).

(** The header after an invalidate and a validate that both took
    effect: one more event counted, as many valid as before. *)
Definition recounted (h : caer_event_packet_header) : caer_event_packet_header :=
  {| eventType := eventType h; eventSource := eventSource h;
     eventTSOverflow := eventTSOverflow h; eventCapacity := eventCapacity h;
     eventNumber := eventNumber h + 1; eventValid := eventValid h |}.

(** The host of the other byte order. *)
Definition other_host (host : byte_order) : byte_order :=
  match host with
  | LittleEndian => BigEndian
  | BigEndian => LittleEndian
  end.

(** The polarity event a host of the other byte order reads from the
    same eight bytes of memory: both fields with their bytes reversed. *)
Definition polarity_reread (e : Polarity.caer_polarity_event)
    : Polarity.caer_polarity_event :=
  {| Polarity.data := bswap32 (U32T (Polarity.data e));
     Polarity.timestamp := I32T (bswap32 (U32T (Polarity.timestamp e))) |}.

(** The float field of an IMU9 event that a channel names. *)
Definition imu9_field (c : IMU9.channel) (e : IMU9.caer_imu9_event) : float :=
  match c with
  | IMU9.AccelX => IMU9.accel_x e
  | IMU9.AccelY => IMU9.accel_y e
  | IMU9.AccelZ => IMU9.accel_z e
  | IMU9.GyroX => IMU9.gyro_x e
  | IMU9.GyroY => IMU9.gyro_y e
  | IMU9.GyroZ => IMU9.gyro_z e
  | IMU9.Temp => IMU9.temp e
  | IMU9.CompX => IMU9.comp_x e
  | IMU9.CompY => IMU9.comp_y e
  | IMU9.CompZ => IMU9.comp_z e
  end.

(** A float of magnitude below one: a zero of either sign, or a finite
    value whose mantissa is below [2 ^ (- e)]. *)
Definition below_one (v : float) : Prop :=
  match v with
  | S754_zero _ => True
  | S754_finite _ m e => Z.pos m < 2 ^ (- e)
  | S754_infinity _ | S754_nan => False
  end.

(** A float that has no value as a [uint32_t]: NaN, an infinity, a
    negative value of magnitude one or more, or a value of [2 ^ 32] or
    more. *)
Definition not_a_uint32 (v : float) : Prop :=
  match v with
  | S754_zero _ => False
  | S754_finite s m e =>
      if s then 0 <= e \/ (e < 0 /\ 2 ^ (- e) <= Z.pos m)
      else 0 <= e /\ 2 ^ 32 <= Z.pos m * 2 ^ e
  | S754_infinity _ | S754_nan => True
  end.

(** The index a call names. *)
Definition index_of (c : PolarityPacket.call) : Z :=
  match c with
  | PolarityPacket.Validate n | PolarityPacket.Invalidate n => n
  end.



(** Sample values for the properties beyond the claims: a polarity
    event with X = 100, Y = 200, polarity ON, valid, timestamp 5; a
    half and minus one as binary32 values; a fresh IMU9 packet of
    capacity 2. *)
Definition sample_valid_polarity : Polarity.caer_polarity_event :=
  {| Polarity.data := 13107203 + 800; Polarity.timestamp := 5 |}.

Definition one_half : float := S754_finite false 8388608 (-24).
Definition minus_one : float := S754_finite true 8388608 (-23).


(** ** Packets of IMU9 events *)

Module IMU9Packet.
Import IMU9.

Section Packet.

Variable host : byte_order.
Variable LIBCAER_LOG_NONE : bool.

(** The id of the IMU9 event type, declared in [common.h]. *)
Variable IMU9_EVENT : Z.

(** The event of a zero-filled storage: every float is +0. *)
Definition zero_event : caer_imu9_event :=
  let o := S754_zero false in
  Build_caer_imu9_event 0 0 o o o o o o o o o o.

(** Modelled from the spec: [caerIMU9EventPacketAllocate], of which the
    sources have the prototype only; it is the allocator of the
    polarity packet with the type id and the event of IMU9. *)
Definition caerIMU9EventPacketAllocate (eventCapacity eventSource tsOverflow : Z)
    : option caer_imu9_event_packet :=
  if eventCapacity <=? 0 then None
  else Some
    {| packetHeader :=
         {| eventType := IMU9_EVENT; eventSource := eventSource;
            eventTSOverflow := tsOverflow; eventCapacity := eventCapacity;
            eventNumber := 0; eventValid := 0 |};
       events := replicate (Z.to_nat eventCapacity) zero_event |}.

Definition load (packet : caer_imu9_event_packet) (p : Z) : option caer_imu9_event :=
  events packet !! Z.to_nat p.

Definition store (packet : caer_imu9_event_packet) (p : Z)
    (e : caer_imu9_event) (h : caer_event_packet_header) : caer_imu9_event_packet :=
  {| packetHeader := h; events := <[Z.to_nat p := e]> (events packet) |}.

(** A call of [f] (validate or invalidate) on event [n] of the packet,
    by a caller that checks the result of [caerIMU9EventPacketGetEvent]
    for NULL before using it. *)
Definition on_event
    (f : caer_imu9_event -> caer_event_packet_header
         -> Log (caer_imu9_event * caer_event_packet_header))
    (packet : caer_imu9_event_packet) (n : Z) : Log caer_imu9_event_packet :=
  do r <- caerIMU9EventPacketGetEvent LIBCAER_LOG_NONE packet n ;;
  match fst r with
  | None => ret (snd r)
  | Some p =>
      match load (snd r) p with
      | None => ret (snd r)
      | Some e =>
          do eh <- f e (packetHeader (snd r)) ;;
          ret (store (snd r) p (fst eh) (snd eh))
      end
  end.

(** The calls are named as for polarity packets: the function and the
    index of the event. *)
Definition perform (packet : caer_imu9_event_packet) (c : PolarityPacket.call)
    : Log caer_imu9_event_packet :=
  match c with
  | PolarityPacket.Validate n =>
      on_event (caerIMU9EventValidate host LIBCAER_LOG_NONE) packet n
  | PolarityPacket.Invalidate n =>
      on_event (caerIMU9EventInvalidate host LIBCAER_LOG_NONE) packet n
  end.

Fixpoint perform_all (packet : caer_imu9_event_packet) (cs : list PolarityPacket.call)
    : Log caer_imu9_event_packet :=
  match cs with
  | [] => ret packet
  | c :: cs' => do packet' <- perform packet c ;; perform_all packet' cs'
  end.

End Packet.

End IMU9Packet.

(** The first two words of an IMU9 event, laid out as a polarity event:
    the validity protocol reads and writes nothing else. *)
Definition head_of_imu9 (e : IMU9.caer_imu9_event) : Polarity.caer_polarity_event :=
  {| Polarity.data := IMU9.info e; Polarity.timestamp := IMU9.timestamp e |}.

Definition heads_of_imu9 (p : IMU9.caer_imu9_event_packet)
    : Polarity.caer_polarity_event_packet :=
  {| Polarity.packetHeader := IMU9.packetHeader p;
     Polarity.events := map head_of_imu9 (IMU9.events p) |}.

(** A fresh IMU9 packet of capacity 2, as the allocator returns it. *)
Definition fresh_imu9_packet_of_two : IMU9.caer_imu9_event_packet :=
  {| IMU9.packetHeader :=
       {| eventType := 4; eventSource := 0; eventTSOverflow := 0;
          eventCapacity := 2; eventNumber := 0; eventValid := 0 |};
     IMU9.events := replicate 2 IMU9Packet.zero_event |}.

(** ** Bit-level facts about the casts and the byte swap *)

Lemma U32T_testbit x i : Z.testbit (U32T x) i = (i <? 32) && Z.testbit x i.
Proof. unfold U32T. apply Z.testbit_mod_pow2. lia. Qed.

Lemma U16T_testbit x i : Z.testbit (U16T x) i = (i <? 16) && Z.testbit x i.
Proof. unfold U16T. apply Z.testbit_mod_pow2. lia. Qed.

Lemma U64T_testbit x i : Z.testbit (U64T x) i = (i <? 64) && Z.testbit x i.
Proof. unfold U64T. apply Z.testbit_mod_pow2. lia. Qed.

Lemma U32T_range x : 0 <= U32T x < 2 ^ 32.
Proof. unfold U32T. apply Z.mod_pos_bound. lia. Qed.

Lemma U32T_small x : 0 <= x < 2 ^ 32 -> U32T x = x.
Proof. intros H. unfold U32T. apply Z.mod_small, H. Qed.

Lemma U32T_idem x : U32T (U32T x) = U32T x.
Proof. apply U32T_small, U32T_range. Qed.

(** A value whose bits from [n] on are all clear lies below [2 ^ n]. *)
Lemma bits_above_range n x :
  0 <= n -> (forall i, n <= i -> Z.testbit x i = false) -> 0 <= x < 2 ^ n.
Proof.
  intros Hn Hx.
  assert (E : x = x mod 2 ^ n).
  { apply Z.bits_inj'; intros i Hi.
    rewrite Z.testbit_mod_pow2 by lia.
    destruct (Z.ltb_spec i n); [reflexivity | now apply Hx]. }
  rewrite E. apply Z.mod_pos_bound. lia.
Qed.

Lemma byte_testbit x k i :
  0 <= k ->
  Z.testbit (Z.land (Z.shiftr x k) 255) i
  = (0 <=? i) && (i <? 8) && Z.testbit x (i + k).
Proof.
  intros Hk. rewrite Z.land_spec.
  change 255 with (Z.ones 8). rewrite Z.testbit_ones by lia.
  destruct (Z.leb_spec 0 i).
  - rewrite Z.shiftr_spec by lia. apply andb_comm.
  - rewrite (Z.testbit_neg_r _ i) by lia. reflexivity.
Qed.

Lemma byte0_testbit x i :
  Z.testbit (Z.land x 255) i = (0 <=? i) && (i <? 8) && Z.testbit x i.
Proof.
  rewrite <- (Z.shiftr_0_r x) at 1. rewrite byte_testbit by lia.
  now rewrite Z.add_0_r.
Qed.

Ltac split_cmp :=
  repeat (match goal with
          | |- context [?a <=? ?b] => destruct (Z.leb_spec a b)
          | |- context [?a <? ?b] => destruct (Z.ltb_spec a b)
          end; try lia);
  cbn [andb orb negb].

Lemma bswap32_testbit x i :
  0 <= i ->
  Z.testbit (bswap32 x) i =
  if i <? 8 then Z.testbit x (i + 24)
  else if i <? 16 then Z.testbit x (i + 8)
  else if i <? 24 then Z.testbit x (i - 8)
  else if i <? 32 then Z.testbit x (i - 24)
  else false.
Proof.
  intros Hi. unfold bswap32.
  rewrite !Z.lor_spec, !Z.shiftl_spec by lia.
  rewrite !byte_testbit, byte0_testbit by lia.
  split_cmp; rewrite ?orb_false_r; try reflexivity; f_equal; lia.
Qed.

Lemma bswap32_range x : 0 <= bswap32 x < 2 ^ 32.
Proof.
  apply bits_above_range; [lia |]. intros i Hi.
  rewrite bswap32_testbit by lia. split_cmp; reflexivity.
Qed.

Lemma bswap32_involutive x : bswap32 (bswap32 x) = U32T x.
Proof.
  apply Z.bits_inj'; intros i Hi.
  rewrite U32T_testbit, bswap32_testbit by lia.
  split_cmp; try reflexivity; rewrite bswap32_testbit by lia;
    split_cmp; f_equal; lia.
Qed.

Lemma bswap32_lor x y : bswap32 (Z.lor x y) = Z.lor (bswap32 x) (bswap32 y).
Proof.
  apply Z.bits_inj'; intros i Hi.
  rewrite Z.lor_spec, !bswap32_testbit by lia.
  split_cmp; rewrite ?Z.lor_spec; reflexivity.
Qed.

Lemma bswap32_land x y : bswap32 (Z.land x y) = Z.land (bswap32 x) (bswap32 y).
Proof.
  apply Z.bits_inj'; intros i Hi.
  rewrite Z.land_spec, !bswap32_testbit by lia.
  split_cmp; rewrite ?Z.land_spec; reflexivity.
Qed.

Lemma U32T_lor x y : U32T (Z.lor x y) = Z.lor (U32T x) (U32T y).
Proof.
  apply Z.bits_inj'; intros i Hi.
  rewrite Z.lor_spec, !U32T_testbit, Z.lor_spec.
  destruct (i <? 32); reflexivity.
Qed.

Lemma U32T_land x y : U32T (Z.land x y) = Z.land (U32T x) (U32T y).
Proof.
  apply Z.bits_inj'; intros i Hi.
  rewrite Z.land_spec, !U32T_testbit, Z.land_spec.
  destruct (i <? 32), (Z.testbit x i), (Z.testbit y i); reflexivity.
Qed.

(** Reading back, in host order, a word into which a value converted to
    little-endian was ORed or ANDed. *)
Lemma le32toh_htole32 host x : le32toh host (htole32 host x) = U32T x.
Proof.
  destruct host; cbn.
  - apply U32T_idem.
  - rewrite (U32T_small (bswap32 _)) by apply bswap32_range.
    rewrite bswap32_involutive. apply U32T_idem.
Qed.

Lemma le32toh_lor host d v :
  le32toh host (Z.lor d (htole32 host v)) = Z.lor (le32toh host d) (U32T v).
Proof.
  rewrite <- (le32toh_htole32 host v).
  destruct host; cbn; rewrite U32T_lor; [reflexivity |].
  now rewrite bswap32_lor.
Qed.

Lemma le32toh_land host d v :
  le32toh host (Z.land d (htole32 host v)) = Z.land (le32toh host d) (U32T v).
Proof.
  rewrite <- (le32toh_htole32 host v).
  destruct host; cbn; rewrite U32T_land; [reflexivity |].
  now rewrite bswap32_land.
Qed.

Lemma le32toh_testbit_high host d i : 32 <= i -> Z.testbit (le32toh host d) i = false.
Proof.
  intros Hi. destruct host; cbn.
  - rewrite U32T_testbit. split_cmp; reflexivity.
  - rewrite bswap32_testbit by lia. split_cmp; reflexivity.
Qed.

Lemma to_signed_small w x :
  0 < w -> - 2 ^ (w - 1) <= x < 2 ^ (w - 1) -> to_signed w x = x.
Proof.
  intros Hw Hx. unfold to_signed.
  assert (E : 2 ^ w = 2 * 2 ^ (w - 1)).
  { replace w with (Z.succ (w - 1)) at 1 by lia. apply Z.pow_succ_r. lia. }
  rewrite Z.mod_small by lia. lia.
Qed.

Lemma I32T_small x : INT32_MIN <= x <= INT32_MAX -> I32T x = x.
Proof.
  unfold INT32_MIN, INT32_MAX, I32T. intros H. apply to_signed_small; lia.
Qed.

Lemma to_signed_mod w x : 0 < w -> to_signed w x mod 2 ^ w = x mod 2 ^ w.
Proof.
  intros Hw. unfold to_signed.
  assert (E : 2 ^ w = 2 * 2 ^ (w - 1)).
  { replace w with (Z.succ (w - 1)) at 1 by lia. apply Z.pow_succ_r. lia. }
  assert (P : 0 < 2 ^ w) by (apply Z.pow_pos_nonneg; lia).
  rewrite Zminus_mod, Z.mod_mod by lia.
  rewrite <- Zminus_mod. f_equal. lia.
Qed.

Lemma U32T_I32T x : U32T (I32T x) = U32T x.
Proof. unfold U32T, I32T. apply to_signed_mod. lia. Qed.

(** ** The validity mark *)

Lemma to_bool_bit0 w :
  to_bool (Z.land (Z.shiftr w VALID_MARK_SHIFT) VALID_MARK_MASK) = Z.testbit w 0.
Proof.
  unfold VALID_MARK_SHIFT, VALID_MARK_MASK, to_bool.
  rewrite Z.shiftr_0_r. change 1 with (Z.ones 1). rewrite Z.land_ones by lia.
  change (2 ^ 1) with 2. rewrite <- Z.bit0_mod.
  destruct (Z.testbit w 0); reflexivity.
Qed.

(** The word with the mark set, and with the mark cleared, as the
    accessors read it. *)
Lemma le32toh_mark_set host d :
  le32toh host (Z.lor d (htole32 host (shl32 (U32T 1) VALID_MARK_SHIFT)))
  = Z.lor (le32toh host d) 1.
Proof. rewrite le32toh_lor. reflexivity. Qed.

Lemma le32toh_mark_cleared host d :
  le32toh host (Z.land d (htole32 host (not32 (shl32 (U32T 1) VALID_MARK_SHIFT))))
  = Z.land (le32toh host d) (Z.lnot 1).
Proof.
  rewrite le32toh_land.
  apply Z.bits_inj'; intros i Hi.
  rewrite !Z.land_spec.
  change (U32T (not32 (shl32 (U32T 1) VALID_MARK_SHIFT))) with (U32T (Z.lnot 1)).
  rewrite U32T_testbit.
  destruct (Z.ltb_spec i 32); [reflexivity |].
  rewrite le32toh_testbit_high by lia. reflexivity.
Qed.

Lemma testbit_1 i : Z.testbit 1 i = (i =? 0).
Proof. destruct i as [| p | p]; try reflexivity; destruct p; reflexivity. Qed.

Lemma testbit_lor_1 w i : Z.testbit (Z.lor w 1) i = Z.testbit w i || (i =? 0).
Proof. now rewrite Z.lor_spec, testbit_1. Qed.

Lemma testbit_land_lnot_1 w i :
  0 <= i -> Z.testbit (Z.land w (Z.lnot 1)) i = Z.testbit w i && negb (i =? 0).
Proof. intros Hi. now rewrite Z.land_spec, Z.lnot_spec, testbit_1 by lia. Qed.

Lemma add32_exact a : INT32_MIN <= a < INT32_MAX -> add32 a 1 = a + 1.
Proof. intros H. apply I32T_small. lia. Qed.

Lemma sub32_exact a : INT32_MIN < a <= INT32_MAX -> sub32 a 1 = a - 1.
Proof. intros H. apply I32T_small. lia. Qed.

(** ** Validate and invalidate, event by event *)

Lemma polarity_is_valid_bit host e :
  Polarity.caerPolarityEventIsValid host e = Z.testbit (le32toh host (Polarity.data e)) 0.
Proof. apply to_bool_bit0. Qed.

Lemma imu9_is_valid_bit host e :
  IMU9.caerIMU9EventIsValid host e = Z.testbit (le32toh host (IMU9.info e)) 0.
Proof. apply to_bool_bit0. Qed.

Lemma polarity_validate_invalid host nolog e h L :
  Polarity.caerPolarityEventIsValid host e = false ->
  Polarity.caerPolarityEventValidate host nolog e h L =
  ((Polarity.set_data e
      (Z.lor (Polarity.data e) (htole32 host (shl32 (U32T 1) VALID_MARK_SHIFT))),
    {| eventType := eventType h; eventSource := eventSource h;
       eventTSOverflow := eventTSOverflow h; eventCapacity := eventCapacity h;
       eventNumber := add32 (eventNumber h) 1;
       eventValid := add32 (eventValid h) 1 |}), L).
Proof. intros Hv. unfold Polarity.caerPolarityEventValidate. now rewrite Hv. Qed.

Lemma polarity_validate_valid host nolog e h L :
  Polarity.caerPolarityEventIsValid host e = true ->
  run (Polarity.caerPolarityEventValidate host nolog e h) L = (e, h).
Proof.
  intros Hv. unfold Polarity.caerPolarityEventValidate, run, bind, diagnose, ret.
  rewrite Hv. now destruct nolog.
Qed.

Lemma polarity_invalidate_valid host nolog e h L :
  Polarity.caerPolarityEventIsValid host e = true ->
  Polarity.caerPolarityEventInvalidate host nolog e h L =
  ((Polarity.set_data e
      (Z.land (Polarity.data e)
         (htole32 host (not32 (shl32 (U32T 1) VALID_MARK_SHIFT)))),
    {| eventType := eventType h; eventSource := eventSource h;
       eventTSOverflow := eventTSOverflow h; eventCapacity := eventCapacity h;
       eventNumber := eventNumber h;
       eventValid := sub32 (eventValid h) 1 |}), L).
Proof. intros Hv. unfold Polarity.caerPolarityEventInvalidate. now rewrite Hv. Qed.

Lemma polarity_invalidate_invalid host nolog e h L :
  Polarity.caerPolarityEventIsValid host e = false ->
  run (Polarity.caerPolarityEventInvalidate host nolog e h) L = (e, h).
Proof.
  intros Hv. unfold Polarity.caerPolarityEventInvalidate, run, bind, diagnose, ret.
  rewrite Hv. now destruct nolog.
Qed.

Lemma polarity_marked_valid host e :
  Polarity.caerPolarityEventIsValid host
    (Polarity.set_data e
       (Z.lor (Polarity.data e) (htole32 host (shl32 (U32T 1) VALID_MARK_SHIFT)))) = true.
Proof.
  rewrite polarity_is_valid_bit. cbn [Polarity.data Polarity.set_data].
  rewrite le32toh_mark_set, testbit_lor_1. apply orb_true_r.
Qed.

Lemma polarity_unmarked_invalid host e :
  Polarity.caerPolarityEventIsValid host
    (Polarity.set_data e
       (Z.land (Polarity.data e)
          (htole32 host (not32 (shl32 (U32T 1) VALID_MARK_SHIFT))))) = false.
Proof.
  rewrite polarity_is_valid_bit. cbn [Polarity.data Polarity.set_data].
  rewrite le32toh_mark_cleared, testbit_land_lnot_1 by lia. apply andb_false_r.
Qed.

Lemma imu9_validate_invalid host nolog e h L :
  IMU9.caerIMU9EventIsValid host e = false ->
  IMU9.caerIMU9EventValidate host nolog e h L =
  ((IMU9.set_info e
      (Z.lor (IMU9.info e) (htole32 host (shl32 (U32T 1) VALID_MARK_SHIFT))),
    {| eventType := eventType h; eventSource := eventSource h;
       eventTSOverflow := eventTSOverflow h; eventCapacity := eventCapacity h;
       eventNumber := add32 (eventNumber h) 1;
       eventValid := add32 (eventValid h) 1 |}), L).
Proof. intros Hv. unfold IMU9.caerIMU9EventValidate. now rewrite Hv. Qed.

Lemma imu9_validate_valid host nolog e h L :
  IMU9.caerIMU9EventIsValid host e = true ->
  run (IMU9.caerIMU9EventValidate host nolog e h) L = (e, h).
Proof.
  intros Hv. unfold IMU9.caerIMU9EventValidate, run, bind, diagnose, ret.
  rewrite Hv. now destruct nolog.
Qed.

Lemma imu9_invalidate_valid host nolog e h L :
  IMU9.caerIMU9EventIsValid host e = true ->
  IMU9.caerIMU9EventInvalidate host nolog e h L =
  ((IMU9.set_info e
      (Z.land (IMU9.info e)
         (htole32 host (not32 (shl32 (U32T 1) VALID_MARK_SHIFT)))),
    {| eventType := eventType h; eventSource := eventSource h;
       eventTSOverflow := eventTSOverflow h; eventCapacity := eventCapacity h;
       eventNumber := eventNumber h;
       eventValid := sub32 (eventValid h) 1 |}), L).
Proof. intros Hv. unfold IMU9.caerIMU9EventInvalidate. now rewrite Hv. Qed.

Lemma imu9_invalidate_invalid host nolog e h L :
  IMU9.caerIMU9EventIsValid host e = false ->
  run (IMU9.caerIMU9EventInvalidate host nolog e h) L = (e, h).
Proof.
  intros Hv. unfold IMU9.caerIMU9EventInvalidate, run, bind, diagnose, ret.
  rewrite Hv. now destruct nolog.
Qed.

Lemma imu9_marked_valid host e :
  IMU9.caerIMU9EventIsValid host
    (IMU9.set_info e
       (Z.lor (IMU9.info e) (htole32 host (shl32 (U32T 1) VALID_MARK_SHIFT)))) = true.
Proof.
  rewrite imu9_is_valid_bit. cbn [IMU9.info IMU9.set_info].
  rewrite le32toh_mark_set, testbit_lor_1. apply orb_true_r.
Qed.

Lemma imu9_unmarked_invalid host e :
  IMU9.caerIMU9EventIsValid host
    (IMU9.set_info e
       (Z.land (IMU9.info e)
          (htole32 host (not32 (shl32 (U32T 1) VALID_MARK_SHIFT))))) = false.
Proof.
  rewrite imu9_is_valid_bit. cbn [IMU9.info IMU9.set_info].
  rewrite le32toh_mark_cleared, testbit_land_lnot_1 by lia. apply andb_false_r.
Qed.

(** C1. Validating an event whose validity bit is clear sets the bit and
    adds exactly one to [eventNumber] and to [eventValid] (the counters
    being below [INT32_MAX], where the sum is defined); validating an
    event whose bit is set leaves the event and the header as they
    were; so validating twice in a row ends where validating once does.
    This holds for polarity and for IMU9 events. *)
Theorem validate_counts_once host nolog L h
    (pe : Polarity.caer_polarity_event) (ie : IMU9.caer_imu9_event) :
  (Polarity.caerPolarityEventIsValid host pe = false ->
   INT32_MIN <= eventNumber h < INT32_MAX ->
   INT32_MIN <= eventValid h < INT32_MAX ->
   let r := run (Polarity.caerPolarityEventValidate host nolog pe h) L in
   Polarity.caerPolarityEventIsValid host (fst r) = true /\
   eventNumber (snd r) = eventNumber h + 1 /\
   eventValid (snd r) = eventValid h + 1)
  /\
  (Polarity.caerPolarityEventIsValid host pe = true ->
   run (Polarity.caerPolarityEventValidate host nolog pe h) L = (pe, h))
  /\
  run (twice (Polarity.caerPolarityEventValidate host nolog) pe h) L
  = run (Polarity.caerPolarityEventValidate host nolog pe h) L
  /\
  (IMU9.caerIMU9EventIsValid host ie = false ->
   INT32_MIN <= eventNumber h < INT32_MAX ->
   INT32_MIN <= eventValid h < INT32_MAX ->
   let r := run (IMU9.caerIMU9EventValidate host nolog ie h) L in
   IMU9.caerIMU9EventIsValid host (fst r) = true /\
   eventNumber (snd r) = eventNumber h + 1 /\
   eventValid (snd r) = eventValid h + 1)
  /\
  (IMU9.caerIMU9EventIsValid host ie = true ->
   run (IMU9.caerIMU9EventValidate host nolog ie h) L = (ie, h))
  /\
  run (twice (IMU9.caerIMU9EventValidate host nolog) ie h) L
  = run (IMU9.caerIMU9EventValidate host nolog ie h) L.
Proof.
  split; [| split; [| split; [| split; [| split]]]].
  - intros Hv Hn Hc r. unfold run in r. subst r.
    rewrite polarity_validate_invalid by assumption. cbn [fst snd].
    split; [apply polarity_marked_valid |].
    cbn. split; now apply add32_exact.
  - apply polarity_validate_valid.
  - unfold twice, in_turn, run, bind.
    destruct (Polarity.caerPolarityEventIsValid host pe) eqn:Hv.
    + pose proof (polarity_validate_valid host nolog pe h L Hv) as H1.
      unfold run in H1.
      destruct (Polarity.caerPolarityEventValidate host nolog pe h L) as [r L1].
      cbn in H1. subst r. cbn [fst snd].
      apply polarity_validate_valid, Hv.
    + rewrite polarity_validate_invalid by assumption. cbn [fst snd].
      apply polarity_validate_valid, polarity_marked_valid.
  - intros Hv Hn Hc r. unfold run in r. subst r.
    rewrite imu9_validate_invalid by assumption. cbn [fst snd].
    split; [apply imu9_marked_valid |].
    cbn. split; now apply add32_exact.
  - apply imu9_validate_valid.
  - unfold twice, in_turn, run, bind.
    destruct (IMU9.caerIMU9EventIsValid host ie) eqn:Hv.
    + pose proof (imu9_validate_valid host nolog ie h L Hv) as H1.
      unfold run in H1.
      destruct (IMU9.caerIMU9EventValidate host nolog ie h L) as [r L1].
      cbn in H1. subst r. cbn [fst snd].
      apply imu9_validate_valid, Hv.
    + rewrite imu9_validate_invalid by assumption. cbn [fst snd].
      apply imu9_validate_valid, imu9_marked_valid.
Qed.

(** C2. Invalidating an event whose validity bit is set clears the bit
    and takes exactly one from [eventValid] (the counter being above
    [INT32_MIN], where the difference is defined), [eventNumber] staying
    as it is; invalidating an event whose bit is clear leaves the event
    and the header as they were. So validating and then invalidating a
    zero-initialized event brings [eventValid] back to what it was
    before, while [eventNumber] keeps the value validate gave it. This
    holds for polarity and for IMU9 events. *)
Theorem invalidate_uncounts host nolog L h
    (pe : Polarity.caer_polarity_event) (ie : IMU9.caer_imu9_event) :
  (Polarity.caerPolarityEventIsValid host pe = true ->
   INT32_MIN < eventValid h <= INT32_MAX ->
   let r := run (Polarity.caerPolarityEventInvalidate host nolog pe h) L in
   Polarity.caerPolarityEventIsValid host (fst r) = false /\
   eventValid (snd r) = eventValid h - 1 /\
   eventNumber (snd r) = eventNumber h)
  /\
  (Polarity.caerPolarityEventIsValid host pe = false ->
   run (Polarity.caerPolarityEventInvalidate host nolog pe h) L = (pe, h))
  /\
  (INT32_MIN <= eventNumber h < INT32_MAX ->
   INT32_MIN <= eventValid h < INT32_MAX ->
   let zero := {| Polarity.data := 0; Polarity.timestamp := 0 |} in
   let validated := run (Polarity.caerPolarityEventValidate host nolog zero h) L in
   let r := run (in_turn (Polarity.caerPolarityEventValidate host nolog)
                         (Polarity.caerPolarityEventInvalidate host nolog) zero h) L in
   eventValid (snd r) = eventValid h /\
   eventNumber (snd r) = eventNumber (snd validated) /\
   eventNumber (snd validated) = eventNumber h + 1)
  /\
  (IMU9.caerIMU9EventIsValid host ie = true ->
   INT32_MIN < eventValid h <= INT32_MAX ->
   let r := run (IMU9.caerIMU9EventInvalidate host nolog ie h) L in
   IMU9.caerIMU9EventIsValid host (fst r) = false /\
   eventValid (snd r) = eventValid h - 1 /\
   eventNumber (snd r) = eventNumber h)
  /\
  (IMU9.caerIMU9EventIsValid host ie = false ->
   run (IMU9.caerIMU9EventInvalidate host nolog ie h) L = (ie, h))
  /\
  (INT32_MIN <= eventNumber h < INT32_MAX ->
   INT32_MIN <= eventValid h < INT32_MAX ->
   let o := S754_zero false in
   let zero := IMU9.Build_caer_imu9_event 0 0 o o o o o o o o o o in
   let validated := run (IMU9.caerIMU9EventValidate host nolog zero h) L in
   let r := run (in_turn (IMU9.caerIMU9EventValidate host nolog)
                         (IMU9.caerIMU9EventInvalidate host nolog) zero h) L in
   eventValid (snd r) = eventValid h /\
   eventNumber (snd r) = eventNumber (snd validated) /\
   eventNumber (snd validated) = eventNumber h + 1).
Proof.
  split; [| split; [| split; [| split; [| split]]]].
  - intros Hv Hc r. unfold run in r. subst r.
    rewrite polarity_invalidate_valid by assumption. cbn [fst snd].
    split; [apply polarity_unmarked_invalid |].
    cbn. split; [now apply sub32_exact | reflexivity].
  - apply polarity_invalidate_invalid.
  - intros Hn Hc zero validated r.
    assert (Hz : Polarity.caerPolarityEventIsValid host zero = false)
      by (now destruct host).
    unfold in_turn, run, bind in r, validated. subst r validated.
    rewrite polarity_validate_invalid by assumption. cbn [fst snd].
    rewrite polarity_invalidate_valid by apply polarity_marked_valid.
    cbn. rewrite !add32_exact by lia. rewrite sub32_exact by lia. lia.
  - intros Hv Hc r. unfold run in r. subst r.
    rewrite imu9_invalidate_valid by assumption. cbn [fst snd].
    split; [apply imu9_unmarked_invalid |].
    cbn. split; [now apply sub32_exact | reflexivity].
  - apply imu9_invalidate_invalid.
  - intros Hn Hc o zero validated r.
    assert (Hz : IMU9.caerIMU9EventIsValid host zero = false)
      by (now destruct host).
    unfold in_turn, run, bind in r, validated. subst r validated.
    rewrite imu9_validate_invalid by assumption. cbn [fst snd].
    rewrite imu9_invalidate_valid by apply imu9_marked_valid.
    cbn. rewrite !add32_exact by lia. rewrite sub32_exact by lia. lia.
Qed.

(** ** The 64-bit timestamp *)

Lemma I64T_U64T x : I64T (U64T x) = I64T x.
Proof.
  unfold I64T, U64T, to_signed. now rewrite Zplus_mod_idemp_l.
Qed.

Lemma U64T_lor x y : U64T (Z.lor x y) = Z.lor (U64T x) (U64T y).
Proof.
  apply Z.bits_inj'; intros i Hi.
  rewrite Z.lor_spec, !U64T_testbit, Z.lor_spec.
  destruct (i <? 64); reflexivity.
Qed.

Lemma U64T_idem x : U64T (U64T x) = U64T x.
Proof. unfold U64T. apply Z.mod_mod. lia. Qed.

Lemma I64T_small x : - 2 ^ 63 <= x < 2 ^ 63 -> I64T x = x.
Proof. intros H. apply to_signed_small; [lia | exact H]. Qed.

Lemma I32T_range x : INT32_MIN <= I32T x <= INT32_MAX.
Proof.
  unfold I32T, to_signed, INT32_MIN, INT32_MAX.
  pose proof (Z.mod_pos_bound (x + 2 ^ (32 - 1)) (2 ^ 32) ltac:(lia)). lia.
Qed.

Lemma small_testbit_high n x i :
  0 <= x < 2 ^ n -> n <= i -> Z.testbit x i = false.
Proof.
  intros Hx Hi. destruct (Z.lt_ge_cases n 0).
  - rewrite Z.pow_neg_r in Hx by lia. lia.
  - rewrite <- (Z.mod_small x (2 ^ n)) by exact Hx.
    apply Z.mod_pow2_bits_high. lia.
Qed.

(** Below bit 31 the shifted counter has no bit set, so the OR with a
    31-bit timestamp is a sum. *)
Lemma lor_shiftl_31 ov ts :
  0 <= ts < 2 ^ 31 -> Z.lor (Z.shiftl ov 31) ts = ov * 2 ^ 31 + ts.
Proof.
  intros Hts. rewrite <- Z.shiftl_mul_pow2 by lia.
  rewrite <- Z.lxor_lor, <- Z.add_nocarry_lxor; try reflexivity;
    apply Z.bits_inj'; intros i Hi;
    rewrite Z.land_spec, Z.shiftl_spec, Z.bits_0 by lia;
    (destruct (Z.lt_ge_cases i 31);
     [ rewrite (Z.testbit_neg_r ov) by lia; reflexivity
     | rewrite (small_testbit_high 31 ts i) by lia; apply andb_false_r ]).
Qed.

Lemma timestamp64_bits ov ts :
  I64T (Z.lor (shl64 (U64T ov) TS_OVERFLOW_SHIFT) (U64T ts))
  = I64T (Z.lor (Z.shiftl (U64T ov) 31) (U64T ts)).
Proof.
  unfold shl64, TS_OVERFLOW_SHIFT.
  rewrite <- (I64T_U64T (Z.lor (Z.shiftl _ _) _)), U64T_lor, U64T_idem.
  reflexivity.
Qed.

Lemma timestamp64_sum ov ts :
  0 <= ov <= INT32_MAX -> 0 <= ts <= INT32_MAX ->
  I64T (Z.lor (shl64 (U64T ov) TS_OVERFLOW_SHIFT) (U64T ts)) = ov * 2 ^ 31 + ts.
Proof.
  unfold INT32_MAX. intros Hov Hts. rewrite timestamp64_bits.
  unfold U64T. rewrite !Z.mod_small by lia.
  rewrite lor_shiftl_31 by lia. apply I64T_small. lia.
Qed.

(** C3. The 64-bit timestamp of an event is the overflow counter of the
    header, converted to an unsigned 64-bit pattern, shifted left by 31
    and ORed with the timestamp of the event, read as a signed 64-bit
    integer; when the counter and the stored timestamp are not
    negative, that is the counter times 2^31 plus the timestamp; with
    counter 3 and timestamp 5 it is 6442450949. This holds for
    polarity and for IMU9 events. *)
Theorem timestamp64_composition host h
    (pe : Polarity.caer_polarity_event) (ie : IMU9.caer_imu9_event) :
  let ov := caerEventPacketHeaderGetEventTSOverflow h in
  let pts := Polarity.caerPolarityEventGetTimestamp host pe in
  let its := IMU9.caerIMU9EventGetTimestamp host ie in
  Polarity.caerPolarityEventGetTimestamp64 host pe h
    = I64T (Z.lor (Z.shiftl (U64T ov) 31) (U64T pts))
  /\
  (0 <= ov <= INT32_MAX -> 0 <= pts ->
   Polarity.caerPolarityEventGetTimestamp64 host pe h = Z.lor (Z.shiftl ov 31) pts /\
   Polarity.caerPolarityEventGetTimestamp64 host pe h = ov * 2 ^ 31 + pts)
  /\
  (ov = 3 -> pts = 5 ->
   Polarity.caerPolarityEventGetTimestamp64 host pe h = 6442450949)
  /\
  IMU9.caerIMU9EventGetTimestamp64 host ie h
    = I64T (Z.lor (Z.shiftl (U64T ov) 31) (U64T its))
  /\
  (0 <= ov <= INT32_MAX -> 0 <= its ->
   IMU9.caerIMU9EventGetTimestamp64 host ie h = Z.lor (Z.shiftl ov 31) its /\
   IMU9.caerIMU9EventGetTimestamp64 host ie h = ov * 2 ^ 31 + its)
  /\
  (ov = 3 -> its = 5 ->
   IMU9.caerIMU9EventGetTimestamp64 host ie h = 6442450949).
Proof.
  intros ov pts its.
  assert (Hp : 0 <= pts -> 0 <= pts <= INT32_MAX)
    by (intros; pose proof (I32T_range (le32toh host (Polarity.timestamp pe)));
        unfold pts, Polarity.caerPolarityEventGetTimestamp in *; lia).
  assert (Hi : 0 <= its -> 0 <= its <= INT32_MAX)
    by (intros; pose proof (I32T_range (le32toh host (IMU9.timestamp ie)));
        unfold its, IMU9.caerIMU9EventGetTimestamp in *; lia).
  unfold Polarity.caerPolarityEventGetTimestamp64, IMU9.caerIMU9EventGetTimestamp64.
  fold ov pts its.
  split; [apply timestamp64_bits |].
  split.
  { intros Hov Hts. rewrite timestamp64_sum by auto.
    unfold INT32_MAX in *. rewrite lor_shiftl_31 by (specialize (Hp Hts); lia). auto. }
  split.
  { intros -> ->. reflexivity. }
  split; [apply timestamp64_bits |].
  split.
  { intros Hov Hts. rewrite timestamp64_sum by auto.
    unfold INT32_MAX in *. rewrite lor_shiftl_31 by (specialize (Hi Hts); lia). auto. }
  intros -> ->. reflexivity.
Qed.

(** ** The bit fields of the polarity event *)

(** A field of [k] bits at [s]: what decoding reads and what encoding
    ORs in, bit by bit. *)
Lemma decode_testbit w s k i :
  0 <= s -> 0 <= k -> 0 <= i ->
  Z.testbit (Z.land (Z.shiftr w s) (Z.ones k)) i = (i <? k) && Z.testbit w (i + s).
Proof.
  intros Hs Hk Hi.
  rewrite Z.land_spec, Z.shiftr_spec, Z.testbit_ones_nonneg by lia.
  apply andb_comm.
Qed.

Lemma encode_testbit v s k i :
  0 <= s -> 0 <= k -> s + k <= 32 -> 0 <= i ->
  Z.testbit (shl32 (Z.land (U32T v) (Z.ones k)) s) i
  = (s <=? i) && (i <? s + k) && Z.testbit v (i - s).
Proof.
  intros Hs Hk Hsk Hi. unfold shl32.
  rewrite U32T_testbit, Z.shiftl_spec by lia.
  destruct (Z.leb_spec s i).
  - rewrite Z.land_spec, U32T_testbit, Z.testbit_ones_nonneg by lia.
    split_cmp; rewrite ?andb_true_r, ?andb_false_r; reflexivity.
  - rewrite Z.testbit_neg_r by lia. apply andb_false_r.
Qed.

Lemma encode_U32T v s k :
  0 <= s -> 0 <= k -> s + k <= 32 ->
  U32T (shl32 (Z.land (U32T v) (Z.ones k)) s) = shl32 (Z.land (U32T v) (Z.ones k)) s.
Proof. intros. apply U32T_idem. Qed.

(** Decoding a field after encoding into the same field. *)
Lemma decode_encode_same w v s k :
  0 <= s -> 0 <= k -> s + k <= 32 ->
  Z.land (Z.shiftr (Z.lor w (shl32 (Z.land (U32T v) (Z.ones k)) s)) s) (Z.ones k)
  = Z.lor (Z.land (Z.shiftr w s) (Z.ones k)) (Z.land v (Z.ones k)).
Proof.
  intros Hs Hk Hsk. apply Z.bits_inj'; intros i Hi.
  rewrite Z.lor_spec, !decode_testbit, Z.lor_spec, encode_testbit by lia.
  rewrite Z.land_spec, Z.testbit_ones_nonneg by lia.
  replace (i + s - s) with i by lia.
  split_cmp; rewrite ?andb_true_r, ?orb_false_r; reflexivity.
Qed.

(** Decoding a field after encoding into a field that does not overlap it. *)
Lemma decode_encode_other w v s k s' k' :
  0 <= s -> 0 <= k -> s + k <= 32 -> 0 <= s' -> 0 <= k' ->
  s' + k' <= s \/ s + k <= s' ->
  Z.land (Z.shiftr (Z.lor w (shl32 (Z.land (U32T v) (Z.ones k)) s)) s') (Z.ones k')
  = Z.land (Z.shiftr w s') (Z.ones k').
Proof.
  intros Hs Hk Hsk Hs' Hk' Hd. apply Z.bits_inj'; intros i Hi.
  rewrite !decode_testbit, Z.lor_spec, encode_testbit by lia.
  split_cmp; rewrite ?orb_false_r; reflexivity.
Qed.

(** Encoding touches no bit outside its field. *)
Lemma encode_frame w v s k i :
  0 <= s -> 0 <= k -> s + k <= 32 -> i < s \/ s + k <= i ->
  Z.testbit (Z.lor w (shl32 (Z.land (U32T v) (Z.ones k)) s)) i = Z.testbit w i.
Proof.
  intros Hs Hk Hsk Hi. destruct (Z.lt_ge_cases i 0).
  - now rewrite !Z.testbit_neg_r by lia.
  - rewrite Z.lor_spec, encode_testbit by lia.
    split_cmp; rewrite ?orb_false_r; reflexivity.
Qed.

Lemma to_bool_bit w s :
  0 <= s -> to_bool (Z.land (Z.shiftr w s) 1) = Z.testbit w s.
Proof.
  intros Hs. pose proof (to_bool_bit0 (Z.shiftr w s)) as H.
  unfold VALID_MARK_SHIFT, VALID_MARK_MASK in H. rewrite Z.shiftr_0_r in H.
  rewrite H, Z.shiftr_spec by lia. reflexivity.
Qed.

Lemma U16T_field w s :
  U16T (Z.land (Z.shiftr w s) (Z.ones 15)) = Z.land (Z.shiftr w s) (Z.ones 15).
Proof.
  unfold U16T. apply Z.mod_small.
  rewrite Z.land_ones by lia.
  pose proof (Z.mod_pos_bound (Z.shiftr w s) (2 ^ 15) ltac:(lia)). lia.
Qed.

Lemma polarity_word_SetX host e v :
  polarity_word host (Polarity.caerPolarityEventSetX host e v)
  = Z.lor (polarity_word host e) (shl32 (Z.land (U32T v) (Z.ones 15)) 17).
Proof.
  unfold polarity_word, Polarity.caerPolarityEventSetX. cbn [Polarity.data Polarity.set_data].
  rewrite le32toh_lor. f_equal. apply U32T_idem.
Qed.

Lemma polarity_word_SetY host e v :
  polarity_word host (Polarity.caerPolarityEventSetY host e v)
  = Z.lor (polarity_word host e) (shl32 (Z.land (U32T v) (Z.ones 15)) 2).
Proof.
  unfold polarity_word, Polarity.caerPolarityEventSetY. cbn [Polarity.data Polarity.set_data].
  rewrite le32toh_lor. f_equal. apply U32T_idem.
Qed.

Lemma polarity_word_SetPolarity host e b :
  polarity_word host (Polarity.caerPolarityEventSetPolarity host e b)
  = Z.lor (polarity_word host e) (shl32 (Z.land (U32T (of_bool b)) (Z.ones 1)) 1).
Proof.
  unfold polarity_word, Polarity.caerPolarityEventSetPolarity.
  cbn [Polarity.data Polarity.set_data].
  rewrite le32toh_lor. f_equal. apply U32T_idem.
Qed.

Lemma polarity_GetX_word host e :
  Polarity.caerPolarityEventGetX host e
  = Z.land (Z.shiftr (polarity_word host e) 17) (Z.ones 15).
Proof. apply U16T_field. Qed.

Lemma polarity_GetY_word host e :
  Polarity.caerPolarityEventGetY host e
  = Z.land (Z.shiftr (polarity_word host e) 2) (Z.ones 15).
Proof. apply U16T_field. Qed.

Lemma polarity_GetPolarity_word host e :
  Polarity.caerPolarityEventGetPolarity host e
  = to_bool (Z.land (Z.shiftr (polarity_word host e) 1) (Z.ones 1)).
Proof. reflexivity. Qed.

Lemma polarity_IsValid_word host e :
  Polarity.caerPolarityEventIsValid host e
  = to_bool (Z.land (Z.shiftr (polarity_word host e) 0) (Z.ones 1)).
Proof. reflexivity. Qed.

Lemma polarity_word_zero host e : Polarity.data e = 0 -> polarity_word host e = 0.
Proof. unfold polarity_word. intros ->. now destruct host. Qed.

Lemma to_bool_of_bool b : to_bool (Z.land (of_bool b) (Z.ones 1)) = b.
Proof. now destruct b. Qed.

Lemma to_bool_lor x y : to_bool (Z.lor x y) = to_bool x || to_bool y.
Proof.
  unfold to_bool. rewrite <- negb_andb. f_equal.
  destruct (Z.eqb_spec (Z.lor x y) 0) as [E | E].
  - apply Z.lor_eq_0_iff in E as [-> ->]. reflexivity.
  - destruct (Z.eqb_spec x 0) as [-> | ?]; [| reflexivity].
    destruct (Z.eqb_spec y 0) as [-> | ?]; [| reflexivity].
    now elim E.
Qed.

Ltac polarity_fields :=
  rewrite ?polarity_GetX_word, ?polarity_GetY_word, ?polarity_GetPolarity_word,
    ?polarity_IsValid_word,
    ?polarity_word_SetX, ?polarity_word_SetY, ?polarity_word_SetPolarity.

Lemma land_ones_small v k : 0 <= k -> 0 <= v < 2 ^ k -> Z.land v (Z.ones k) = v.
Proof. intros Hk Hv. rewrite Z.land_ones by lia. now apply Z.mod_small. Qed.

(** C5. Decoding a field of a polarity event right after encoding a
    value of its range into a zero-initialized data word gives the
    value back: the polarity, the X address and the Y address. *)
Theorem polarity_fields_round_trip host (e : Polarity.caer_polarity_event)
    (b : bool) (x y : Z) :
  Polarity.data e = 0 ->
  0 <= x <= 32767 ->
  0 <= y <= 32767 ->
  Polarity.caerPolarityEventGetPolarity host
    (Polarity.caerPolarityEventSetPolarity host e b) = b /\
  Polarity.caerPolarityEventGetX host (Polarity.caerPolarityEventSetX host e x) = x /\
  Polarity.caerPolarityEventGetY host (Polarity.caerPolarityEventSetY host e y) = y.
Proof.
  intros H0 Hx Hy. polarity_fields.
  rewrite !decode_encode_same by lia.
  rewrite (polarity_word_zero host e H0).
  rewrite !Z.shiftr_0_l, !Z.land_0_l, !Z.lor_0_l.
  split; [apply to_bool_of_bool |].
  split; apply land_ones_small; lia.
Qed.

Lemma lor_absorbs a b : Z.lor a b = b <-> Z.land a b = a.
Proof.
  split; intros H; apply Z.bits_inj'; intros i Hi;
    apply (f_equal (fun z => Z.testbit z i)) in H;
    rewrite ?Z.lor_spec, ?Z.land_spec in *;
    destruct (Z.testbit a i), (Z.testbit b i); cbn in *; congruence.
Qed.

(** C6. Encoding ORs into the word and clears nothing: after encoding
    [a] and then [b] into a field, the field decodes to what it held
    before ORed with the masked [a] and the masked [b]; on a word whose
    field was clear that is the OR of the masked values, which is the
    masked [b] alone only when [b] has every bit of [a] (after 1 and
    then 2 the X address reads 3). *)
Theorem polarity_encode_ors host (e : Polarity.caer_polarity_event)
    (a b : Z) (p q : bool) :
  let setX := Polarity.caerPolarityEventSetX host in
  let setY := Polarity.caerPolarityEventSetY host in
  let setP := Polarity.caerPolarityEventSetPolarity host in
  let ma := Z.land a Polarity.X_ADDR_MASK in
  let mb := Z.land b Polarity.X_ADDR_MASK in
  let ya := Z.land a Polarity.Y_ADDR_MASK in
  let yb := Z.land b Polarity.Y_ADDR_MASK in
  Polarity.caerPolarityEventGetX host (setX (setX e a) b)
    = Z.lor (Polarity.caerPolarityEventGetX host e) (Z.lor ma mb) /\
  Polarity.caerPolarityEventGetY host (setY (setY e a) b)
    = Z.lor (Polarity.caerPolarityEventGetY host e) (Z.lor ya yb) /\
  Polarity.caerPolarityEventGetPolarity host (setP (setP e p) q)
    = Polarity.caerPolarityEventGetPolarity host e || (p || q) /\
  (Polarity.data e = 0 ->
   Polarity.caerPolarityEventGetX host (setX (setX e a) b) = Z.lor ma mb /\
   Polarity.caerPolarityEventGetY host (setY (setY e a) b) = Z.lor ya yb /\
   Polarity.caerPolarityEventGetPolarity host (setP (setP e p) q) = p || q /\
   (Polarity.caerPolarityEventGetX host (setX (setX e a) b) = mb <-> Z.land ma mb = ma) /\
   Polarity.caerPolarityEventGetX host (setX (setX e 1) 2) = 3).
Proof.
  intros setX setY setP ma mb ya yb. subst setX setY setP ma mb ya yb.
  change Polarity.X_ADDR_MASK with (Z.ones 15).
  change Polarity.Y_ADDR_MASK with (Z.ones 15).
  assert (HX : forall u v,
    Polarity.caerPolarityEventGetX host
      (Polarity.caerPolarityEventSetX host (Polarity.caerPolarityEventSetX host e u) v)
    = Z.lor (Polarity.caerPolarityEventGetX host e)
            (Z.lor (Z.land u (Z.ones 15)) (Z.land v (Z.ones 15)))).
  { intros u v. polarity_fields. rewrite !decode_encode_same by lia.
    now rewrite Z.lor_assoc. }
  assert (HY :
    Polarity.caerPolarityEventGetY host
      (Polarity.caerPolarityEventSetY host (Polarity.caerPolarityEventSetY host e a) b)
    = Z.lor (Polarity.caerPolarityEventGetY host e)
            (Z.lor (Z.land a (Z.ones 15)) (Z.land b (Z.ones 15)))).
  { polarity_fields. rewrite !decode_encode_same by lia.
    now rewrite Z.lor_assoc. }
  assert (HP :
    Polarity.caerPolarityEventGetPolarity host
      (Polarity.caerPolarityEventSetPolarity host
         (Polarity.caerPolarityEventSetPolarity host e p) q)
    = Polarity.caerPolarityEventGetPolarity host e || (p || q)).
  { polarity_fields. rewrite !decode_encode_same by lia.
    rewrite !to_bool_lor, !to_bool_of_bool. now rewrite orb_assoc. }
  split; [apply HX |]. split; [exact HY |]. split; [exact HP |].
  intros H0.
  assert (GX : Polarity.caerPolarityEventGetX host e = 0).
  { polarity_fields. rewrite (polarity_word_zero host e H0). reflexivity. }
  assert (GY : Polarity.caerPolarityEventGetY host e = 0).
  { polarity_fields. rewrite (polarity_word_zero host e H0). reflexivity. }
  assert (GP : Polarity.caerPolarityEventGetPolarity host e = false).
  { polarity_fields. rewrite (polarity_word_zero host e H0). reflexivity. }
  rewrite !HX, HY, HP, GX, GY, GP, !Z.lor_0_l.
  repeat split; try reflexivity; apply lor_absorbs.
Qed.

(** C10. A setter of the polarity event changes bits of its own field
    only, whatever the value given: [SetX] bits 17 to 31, [SetY] bits 2
    to 16, [SetPolarity] bit 1 of the data word. The validity bit and
    the other fields decode as before the call, and the timestamp is
    not touched. *)
Theorem polarity_setters_frame host (e : Polarity.caer_polarity_event)
    (v : Z) (b : bool) :
  let word := polarity_word host in
  let ex := Polarity.caerPolarityEventSetX host e v in
  let ey := Polarity.caerPolarityEventSetY host e v in
  let ep := Polarity.caerPolarityEventSetPolarity host e b in
  ((forall i, i < 17 \/ 31 < i -> Z.testbit (word ex) i = Z.testbit (word e) i) /\
   Polarity.caerPolarityEventIsValid host ex = Polarity.caerPolarityEventIsValid host e /\
   Polarity.caerPolarityEventGetPolarity host ex
     = Polarity.caerPolarityEventGetPolarity host e /\
   Polarity.caerPolarityEventGetY host ex = Polarity.caerPolarityEventGetY host e /\
   Polarity.timestamp ex = Polarity.timestamp e)
  /\
  ((forall i, i < 2 \/ 16 < i -> Z.testbit (word ey) i = Z.testbit (word e) i) /\
   Polarity.caerPolarityEventIsValid host ey = Polarity.caerPolarityEventIsValid host e /\
   Polarity.caerPolarityEventGetPolarity host ey
     = Polarity.caerPolarityEventGetPolarity host e /\
   Polarity.caerPolarityEventGetX host ey = Polarity.caerPolarityEventGetX host e /\
   Polarity.timestamp ey = Polarity.timestamp e)
  /\
  ((forall i, i <> 1 -> Z.testbit (word ep) i = Z.testbit (word e) i) /\
   Polarity.caerPolarityEventIsValid host ep = Polarity.caerPolarityEventIsValid host e /\
   Polarity.caerPolarityEventGetX host ep = Polarity.caerPolarityEventGetX host e /\
   Polarity.caerPolarityEventGetY host ep = Polarity.caerPolarityEventGetY host e /\
   Polarity.timestamp ep = Polarity.timestamp e).
Proof.
  intros word ex ey ep. subst word ex ey ep.
  repeat split; try reflexivity; polarity_fields;
    try (intros i Hi; apply encode_frame; lia);
    rewrite decode_encode_other by lia; reflexivity.
Qed.

(** ** Writing and reading the timestamp *)

Lemma le32toh_I32T host y : le32toh host (I32T y) = le32toh host y.
Proof. unfold le32toh. now rewrite U32T_I32T. Qed.

Lemma timestamp_round_trip host ts :
  0 <= ts <= INT32_MAX -> I32T (le32toh host (I32T (htole32 host ts))) = ts.
Proof.
  intros Hts. rewrite le32toh_I32T, le32toh_htole32.
  unfold INT32_MAX in Hts. rewrite U32T_small by lia.
  apply I32T_small. unfold INT32_MIN, INT32_MAX. lia.
Qed.

(** C7. Writing a timestamp below zero is refused and leaves the event,
    and so its stored timestamp, as it was; writing a timestamp from
    zero on stores it, and reading the timestamp gives it back. This
    holds for polarity and for IMU9 events. *)
Theorem set_timestamp_refuses_negative host nolog L (ts : Z)
    (pe : Polarity.caer_polarity_event) (ie : IMU9.caer_imu9_event) :
  (ts < 0 ->
   run (Polarity.caerPolarityEventSetTimestamp host nolog pe ts) L = pe /\
   Polarity.caerPolarityEventGetTimestamp host
     (run (Polarity.caerPolarityEventSetTimestamp host nolog pe ts) L)
   = Polarity.caerPolarityEventGetTimestamp host pe)
  /\
  (0 <= ts <= INT32_MAX ->
   Polarity.caerPolarityEventGetTimestamp host
     (run (Polarity.caerPolarityEventSetTimestamp host nolog pe ts) L) = ts)
  /\
  (ts < 0 ->
   run (IMU9.caerIMU9EventSetTimestamp host nolog ie ts) L = ie /\
   IMU9.caerIMU9EventGetTimestamp host
     (run (IMU9.caerIMU9EventSetTimestamp host nolog ie ts) L)
   = IMU9.caerIMU9EventGetTimestamp host ie)
  /\
  (0 <= ts <= INT32_MAX ->
   IMU9.caerIMU9EventGetTimestamp host
     (run (IMU9.caerIMU9EventSetTimestamp host nolog ie ts) L) = ts).
Proof.
  unfold Polarity.caerPolarityEventSetTimestamp, IMU9.caerIMU9EventSetTimestamp.
  unfold run, bind, diagnose, ret.
  destruct (Z.ltb_spec ts 0) as [Hneg | Hpos].
  - assert (Hp : forall A (x : A) (s1 s2 : Logger.state),
        fst (let (_, s') := if nolog then (tt, s1) else (tt, s2) in (x, s')) = x)
      by (intros; now destruct nolog).
    rewrite !Hp. repeat split; intros; try reflexivity; lia.
  - cbn [fst]. repeat split; intros; try lia;
      unfold Polarity.caerPolarityEventGetTimestamp, IMU9.caerIMU9EventGetTimestamp;
      cbn; now apply timestamp_round_trip.
Qed.

(** ** Indexed access *)

(** C8. [GetEvent] with an index from zero up to the capacity of the
    packet returns the pointer to the event at that index, the same on
    every call, and the event is there when the packet has as many
    events as its capacity says; with an index outside that range it
    returns NULL. Either way the packet, its header included, is after
    the call what it was before. This holds for polarity and for IMU9
    packets. *)
Theorem get_event_bounds nolog L (n : Z)
    (pp : Polarity.caer_polarity_event_packet) (ip : IMU9.caer_imu9_event_packet) :
  let pget := Polarity.caerPolarityEventPacketGetEvent nolog in
  let iget := IMU9.caerIMU9EventPacketGetEvent nolog in
  (0 <= n < eventCapacity (Polarity.packetHeader pp) ->
   run (pget pp n) L = (Some n, pp) /\
   run (pget pp n) (log_after (pget pp n) L) = run (pget pp n) L /\
   (Z.of_nat (length (Polarity.events pp)) = eventCapacity (Polarity.packetHeader pp) ->
    is_Some (Polarity.events pp !! Z.to_nat n)))
  /\
  (n < 0 \/ eventCapacity (Polarity.packetHeader pp) <= n ->
   run (pget pp n) L = (None, pp))
  /\
  Polarity.packetHeader (snd (run (pget pp n) L)) = Polarity.packetHeader pp
  /\
  (0 <= n < eventCapacity (IMU9.packetHeader ip) ->
   run (iget ip n) L = (Some n, ip) /\
   run (iget ip n) (log_after (iget ip n) L) = run (iget ip n) L /\
   (Z.of_nat (length (IMU9.events ip)) = eventCapacity (IMU9.packetHeader ip) ->
    is_Some (IMU9.events ip !! Z.to_nat n)))
  /\
  (n < 0 \/ eventCapacity (IMU9.packetHeader ip) <= n ->
   run (iget ip n) L = (None, ip))
  /\
  IMU9.packetHeader (snd (run (iget ip n) L)) = IMU9.packetHeader ip.
Proof.
  intros pget iget. subst pget iget.
  unfold Polarity.caerPolarityEventPacketGetEvent, IMU9.caerIMU9EventPacketGetEvent.
  unfold caerEventPacketHeaderGetEventCapacity, run, log_after, bind, diagnose, ret.
  assert (Hp : forall A (x : A) (s1 s2 : Logger.state),
      fst (let (_, s') := if nolog then (tt, s1) else (tt, s2) in (x, s')) = x)
    by (intros; now destruct nolog).
  split; [| split; [| split; [| split; [| split]]]].
  - intros [H0 H1]. destruct (Z.ltb_spec n 0); [lia |].
    destruct (Z.geb_spec n (eventCapacity (Polarity.packetHeader pp))); [lia |].
    split; [reflexivity |]. split; [reflexivity |].
    intros Hlen. apply lookup_lt_is_Some. lia.
  - intros H. destruct (Z.ltb_spec n 0); [apply Hp |].
    destruct (Z.geb_spec n (eventCapacity (Polarity.packetHeader pp))); [apply Hp | lia].
  - destruct (_ || _); [rewrite Hp |]; reflexivity.
  - intros [H0 H1]. destruct (Z.ltb_spec n 0); [lia |].
    destruct (Z.geb_spec n (eventCapacity (IMU9.packetHeader ip))); [lia |].
    split; [reflexivity |]. split; [reflexivity |].
    intros Hlen. apply lookup_lt_is_Some. lia.
  - intros H. destruct (Z.ltb_spec n 0); [apply Hp |].
    destruct (Z.geb_spec n (eventCapacity (IMU9.packetHeader ip))); [apply Hp | lia].
  - destruct (_ || _); [rewrite Hp |]; reflexivity.
Qed.

(** ** The float channels of the IMU9 event *)

(** C9. The round trip of a float through a setter and its getter is
    not the identity: [htole32] and [le32toh] take and return
    [uint32_t], so the float is converted to an integer by value. For
    every channel and on either byte order, setting 1.5 and getting the
    channel gives 1.0. *)
Theorem imu9_float_round_trip_truncates (c : IMU9.channel) host
    (e : IMU9.caer_imu9_event) :
  float_valid one_and_a_half = true /\
  exists e', IMU9.setter host c e one_and_a_half = Some e' /\
             IMU9.getter host c e' = Some one /\
             one <> one_and_a_half.
Proof.
  split; [reflexivity |].
  destruct c, host; (eexists; split; [reflexivity | split; [reflexivity | discriminate]]).
Qed.

(** ** The protocol of validate and invalidate on a packet *)

Lemma count_bounds {A} (f : A -> bool) l : 0 <= count f l <= Z.of_nat (length l).
Proof.
  induction l as [| x l IH]; cbn [count length]; [lia |].
  destruct (f x); lia.
Qed.

Lemma count_insert {A} (f : A -> bool) l i x y :
  l !! i = Some x ->
  count f (<[i:=y]> l)
  = count f l - (if f x then 1 else 0) + (if f y then 1 else 0).
Proof.
  revert i. induction l as [| z l IH]; intros [| i] H; try discriminate.
  - injection H as ->. change (<[O:=y]> (x :: l)) with (y :: l).
    cbn [count]. lia.
  - change (<[S i:=y]> (z :: l)) with (z :: <[i:=y]> l).
    cbn [count]. rewrite (IH i H). lia.
Qed.

Lemma count_le_pointwise {A} (f : A -> bool) l (t : list bool) :
  length t = length l ->
  (forall i e, l !! i = Some e -> f e = true -> t !! i = Some true) ->
  count f l <= count id t.
Proof.
  revert t. induction l as [| x l IH]; intros [| b t] Hlen H;
    cbn [count]; try discriminate Hlen; [lia |].
  injection Hlen as Hlen.
  specialize (IH t Hlen (fun i e => H (S i) e)).
  specialize (H O x eq_refl).
  destruct (f x); [| unfold id at 1; destruct b; lia].
  specialize (H eq_refl). injection H as ->. unfold id at 1. lia.
Qed.

Section Protocol.

Variable host : byte_order.
Variable nolog : bool.

Local Abbreviation IsValid := (Polarity.caerPolarityEventIsValid host).
Local Abbreviation perform := (PolarityPacket.perform host nolog).
Local Abbreviation perform_all := (PolarityPacket.perform_all host nolog).

Lemma diagnose_run {A} (x : A) sub fmt args (L : Logger.state) :
  run (do_ diagnose nolog sub fmt args ;; ret x) L = x.
Proof. unfold run, bind, diagnose, ret. now destruct nolog. Qed.

(** What one call does to the packet, case by case. *)
Lemma perform_out_of_range p c n L :
  c = PolarityPacket.Validate n \/ c = PolarityPacket.Invalidate n ->
  n < 0 \/ eventCapacity (Polarity.packetHeader p) <= n ->
  run (perform p c) L = p.
Proof.
  intros Hc Hn.
  assert (E : (n <? 0) || (n >=? eventCapacity (Polarity.packetHeader p)) = true).
  { destruct (Z.ltb_spec n 0); [reflexivity |].
    destruct (Z.geb_spec n (eventCapacity (Polarity.packetHeader p))); [reflexivity | lia]. }
  destruct Hc as [-> | ->];
    unfold PolarityPacket.perform, PolarityPacket.on_event,
      Polarity.caerPolarityEventPacketGetEvent, caerEventPacketHeaderGetEventCapacity;
    rewrite E; unfold run, bind, diagnose, ret; now destruct nolog.
Qed.

Lemma on_event_in_range f p n L :
  0 <= n < eventCapacity (Polarity.packetHeader p) ->
  PolarityPacket.on_event nolog f p n L =
  match Polarity.events p !! Z.to_nat n with
  | None => (p, L)
  | Some e =>
      let r := f e (Polarity.packetHeader p) L in
      (PolarityPacket.store p n (fst (fst r)) (snd (fst r)), snd r)
  end.
Proof.
  intros Hn.
  unfold PolarityPacket.on_event, Polarity.caerPolarityEventPacketGetEvent,
    caerEventPacketHeaderGetEventCapacity.
  destruct (Z.ltb_spec n 0); [lia |].
  destruct (Z.geb_spec n (eventCapacity (Polarity.packetHeader p))); [lia |].
  cbn. unfold PolarityPacket.load, bind, ret.
  destruct (Polarity.events p !! Z.to_nat n) as [e |]; [| reflexivity].
  cbn. now destruct (f e (Polarity.packetHeader p) L) as [[e' h'] L'].
Qed.

Lemma store_same p n e :
  Polarity.events p !! Z.to_nat n = Some e ->
  PolarityPacket.store p n e (Polarity.packetHeader p) = p.
Proof.
  intros H. unfold PolarityPacket.store. rewrite list_insert_id by exact H.
  now destruct p.
Qed.

Lemma perform_no_event p c n L :
  c = PolarityPacket.Validate n \/ c = PolarityPacket.Invalidate n ->
  Polarity.events p !! Z.to_nat n = None ->
  run (perform p c) L = p.
Proof.
  intros Hc Hn.
  destruct (Z.lt_ge_cases n 0); [apply (perform_out_of_range p c n); auto |].
  destruct (Z.lt_ge_cases n (eventCapacity (Polarity.packetHeader p)));
    [| apply (perform_out_of_range p c n); auto].
  destruct Hc as [-> | ->]; unfold run, PolarityPacket.perform;
    rewrite on_event_in_range by lia; now rewrite Hn.
Qed.

Lemma perform_validate_valid p n e L :
  Polarity.events p !! Z.to_nat n = Some e ->
  IsValid e = true ->
  run (perform p (PolarityPacket.Validate n)) L = p.
Proof.
  intros He Hv.
  destruct (Z.lt_ge_cases n 0);
    [apply (perform_out_of_range p _ n); auto |].
  destruct (Z.lt_ge_cases n (eventCapacity (Polarity.packetHeader p)));
    [| apply (perform_out_of_range p _ n); auto].
  unfold run, PolarityPacket.perform. rewrite on_event_in_range by lia.
  rewrite He. cbn [fst].
  pose proof (polarity_validate_valid host nolog e (Polarity.packetHeader p) L Hv) as E.
  unfold run in E. rewrite E. cbn [fst snd]. now apply store_same.
Qed.

Lemma perform_invalidate_invalid p n e L :
  Polarity.events p !! Z.to_nat n = Some e ->
  IsValid e = false ->
  run (perform p (PolarityPacket.Invalidate n)) L = p.
Proof.
  intros He Hv.
  destruct (Z.lt_ge_cases n 0);
    [apply (perform_out_of_range p _ n); auto |].
  destruct (Z.lt_ge_cases n (eventCapacity (Polarity.packetHeader p)));
    [| apply (perform_out_of_range p _ n); auto].
  unfold run, PolarityPacket.perform. rewrite on_event_in_range by lia.
  rewrite He. cbn [fst].
  pose proof (polarity_invalidate_invalid host nolog e (Polarity.packetHeader p) L Hv) as E.
  unfold run in E. rewrite E. cbn [fst snd]. now apply store_same.
Qed.

Lemma perform_validate_invalid p n e L :
  0 <= n < eventCapacity (Polarity.packetHeader p) ->
  Polarity.events p !! Z.to_nat n = Some e ->
  IsValid e = false ->
  run (perform p (PolarityPacket.Validate n)) L
  = PolarityPacket.store p n (marked host e) (counted (Polarity.packetHeader p)).
Proof.
  intros Hn He Hv.
  unfold run, PolarityPacket.perform. rewrite on_event_in_range by lia.
  rewrite He. cbn [fst].
  now rewrite polarity_validate_invalid by exact Hv.
Qed.

Lemma perform_invalidate_valid p n e L :
  0 <= n < eventCapacity (Polarity.packetHeader p) ->
  Polarity.events p !! Z.to_nat n = Some e ->
  IsValid e = true ->
  run (perform p (PolarityPacket.Invalidate n)) L
  = PolarityPacket.store p n (unmarked host e) (uncounted (Polarity.packetHeader p)).
Proof.
  intros Hn He Hv.
  unfold run, PolarityPacket.perform. rewrite on_event_in_range by lia.
  rewrite He. cbn [fst].
  now rewrite polarity_invalidate_valid by exact Hv.
Qed.

Lemma perform_all_cons p c cs L :
  run (perform_all p (c :: cs)) L
  = run (perform_all (run (perform p c) L) cs) (log_after (perform p c) L).
Proof.
  unfold run, log_after. cbn [PolarityPacket.perform_all]. unfold bind.
  now destruct (perform p c L).
Qed.

Lemma pending_tail p t c cs : pending host p t (c :: cs) -> pending host p t cs.
Proof. intros H i e He Hv Ht Hin. apply (H i e He Hv Ht). now right. Qed.

Lemma tracked_lookup c p t n :
  tracked host c p t -> 0 <= n < c ->
  exists e b, Polarity.events p !! Z.to_nat n = Some e /\ t !! Z.to_nat n = Some b.
Proof.
  intros T Hn.
  destruct (lookup_lt_is_Some_2 (Polarity.events p) (Z.to_nat n)) as [e He].
  { pose proof (tracked_events _ _ _ _ T). lia. }
  destruct (lookup_lt_is_Some_2 t (Z.to_nat n)) as [b Hb].
  { pose proof (tracked_events _ _ _ _ T). pose proof (tracked_touched _ _ _ _ T). lia. }
  eauto.
Qed.

Lemma tracked_counts c p t :
  tracked host c p t ->
  0 <= count IsValid (Polarity.events p) <= count id t /\ count id t <= c.
Proof.
  intros T.
  pose proof (count_bounds IsValid (Polarity.events p)).
  pose proof (count_bounds id t).
  pose proof (count_le_pointwise IsValid (Polarity.events p) t
                (tracked_touched _ _ _ _ T) (tracked_sub _ _ _ _ T)).
  pose proof (tracked_events _ _ _ _ T). pose proof (tracked_touched _ _ _ _ T).
  lia.
Qed.

(** Validating an invalid event that was never validated before. *)
Lemma tracked_validate c p t n e :
  tracked host c p t -> 0 <= n < c ->
  Polarity.events p !! Z.to_nat n = Some e ->
  IsValid e = false ->
  t !! Z.to_nat n = Some false ->
  tracked host c
    (PolarityPacket.store p n (marked host e) (counted (Polarity.packetHeader p)))
    (<[Z.to_nat n := true]> t).
Proof.
  intros T Hn He Hv Ht.
  pose proof (tracked_counts c p t T) as Hc.
  pose proof (tracked_int32 _ _ _ _ T) as Hmax.
  assert (Hup : count id (<[Z.to_nat n := true]> t) = count id t + 1).
  { rewrite (count_insert id t _ false true Ht). unfold id. lia. }
  assert (Hle : count id (<[Z.to_nat n := true]> t) <= c).
  { pose proof (count_bounds id (<[Z.to_nat n := true]> t)) as B.
    rewrite length_insert in B.
    pose proof (tracked_events _ _ _ _ T). pose proof (tracked_touched _ _ _ _ T). lia. }
  constructor; cbn [PolarityPacket.store Polarity.packetHeader Polarity.events counted
                    eventCapacity eventValid eventNumber].
  - apply (tracked_capacity _ _ _ _ T).
  - exact Hmax.
  - rewrite length_insert. apply (tracked_events _ _ _ _ T).
  - rewrite !length_insert. apply (tracked_touched _ _ _ _ T).
  - rewrite (count_insert IsValid _ _ e (marked host e) He).
    rewrite Hv. unfold marked. rewrite polarity_marked_valid.
    rewrite (tracked_valid _ _ _ _ T).
    rewrite add32_exact by (unfold INT32_MIN; lia). lia.
  - rewrite (tracked_number _ _ _ _ T), Hup.
    apply add32_exact. unfold INT32_MIN. lia.
  - intros i e0 Hi Hv0.
    destruct (decide (i = Z.to_nat n)) as [-> | Hne].
    + apply list_lookup_insert_eq. apply lookup_lt_Some in Ht. exact Ht.
    + rewrite list_lookup_insert_ne in Hi by congruence.
      rewrite list_lookup_insert_ne by congruence.
      apply (tracked_sub _ _ _ _ T i e0 Hi Hv0).
Qed.

(** Invalidating a valid event. *)
Lemma tracked_invalidate c p t n e :
  tracked host c p t -> 0 <= n < c ->
  Polarity.events p !! Z.to_nat n = Some e ->
  IsValid e = true ->
  tracked host c
    (PolarityPacket.store p n (unmarked host e) (uncounted (Polarity.packetHeader p))) t.
Proof.
  intros T Hn He Hv.
  pose proof (tracked_counts c p t T) as Hc.
  pose proof (tracked_int32 _ _ _ _ T) as Hmax.
  constructor; cbn [PolarityPacket.store Polarity.packetHeader Polarity.events uncounted
                    eventCapacity eventValid eventNumber].
  - apply (tracked_capacity _ _ _ _ T).
  - exact Hmax.
  - rewrite length_insert. apply (tracked_events _ _ _ _ T).
  - rewrite length_insert. apply (tracked_touched _ _ _ _ T).
  - rewrite (count_insert IsValid _ _ e (unmarked host e) He).
    rewrite Hv. unfold unmarked. rewrite polarity_unmarked_invalid.
    rewrite (tracked_valid _ _ _ _ T).
    rewrite sub32_exact by (unfold INT32_MIN; lia). lia.
  - apply (tracked_number _ _ _ _ T).
  - intros i e0 Hi Hv0.
    destruct (decide (i = Z.to_nat n)) as [-> | Hne].
    + rewrite list_lookup_insert_eq in Hi by (apply lookup_lt_Some in He; exact He).
      injection Hi as <-. unfold unmarked in Hv0.
      rewrite polarity_unmarked_invalid in Hv0. discriminate.
    + rewrite list_lookup_insert_ne in Hi by congruence.
      apply (tracked_sub _ _ _ _ T i e0 Hi Hv0).
Qed.

(** One call keeps the packet tracked, and what is pending. *)
Lemma tracked_step c p t call cs L :
  tracked host c p t ->
  pending host p t (call :: cs) ->
  PolarityPacket.no_revalidation (call :: cs) ->
  exists t',
    tracked host c (run (perform p call) L) t' /\
    pending host (run (perform p call) L) t' cs.
Proof.
  intros T P N.
  assert (Same : run (perform p call) L = p ->
    exists t', tracked host c (run (perform p call) L) t' /\
               pending host (run (perform p call) L) t' cs).
  { intros ->. exists t. split; [exact T | exact (pending_tail _ _ _ _ P)]. }
  pose proof (tracked_capacity _ _ _ _ T) as Hcap.
  destruct call as [n | n].
  - (* validate *)
    destruct (Z.lt_ge_cases n 0);
      [apply Same, (perform_out_of_range p _ n); auto |].
    destruct (Z.lt_ge_cases n c);
      [| apply Same, (perform_out_of_range p _ n); auto; lia].
    destruct (tracked_lookup c p t n T ltac:(lia)) as (e & b & He & Hb).
    destruct (IsValid e) eqn:Hv;
      [apply Same, (perform_validate_valid p n e); assumption |].
    assert (b = false) as ->.
    { destruct b; [| reflexivity]. exfalso.
      apply (P (Z.to_nat n) e He Hv Hb). left. f_equal. lia. }
    rewrite (perform_validate_invalid p n e) by (assumption || lia).
    exists (<[Z.to_nat n := true]> t). split.
    + now apply tracked_validate.
    + intros i e0 Hi Hv0 Hti Hin. cbn [PolarityPacket.store Polarity.events] in Hi.
      destruct (decide (i = Z.to_nat n)) as [-> | Hne].
      * rewrite list_lookup_insert_eq in Hi by (apply lookup_lt_Some in He; exact He).
        injection Hi as <-. unfold marked in Hv0.
        rewrite polarity_marked_valid in Hv0. discriminate.
      * rewrite list_lookup_insert_ne in Hi by congruence.
        rewrite list_lookup_insert_ne in Hti by congruence.
        apply (P i e0 Hi Hv0 Hti). now right.
  - (* invalidate *)
    destruct N as [Nn N].
    destruct (Z.lt_ge_cases n 0);
      [apply Same, (perform_out_of_range p _ n); auto |].
    destruct (Z.lt_ge_cases n c);
      [| apply Same, (perform_out_of_range p _ n); auto; lia].
    destruct (tracked_lookup c p t n T ltac:(lia)) as (e & b & He & Hb).
    destruct (IsValid e) eqn:Hv;
      [| apply Same, (perform_invalidate_invalid p n e); assumption].
    rewrite (perform_invalidate_valid p n e) by (assumption || lia).
    exists t. split.
    + now apply tracked_invalidate.
    + intros i e0 Hi Hv0 Hti Hin. cbn [PolarityPacket.store Polarity.events] in Hi.
      destruct (decide (i = Z.to_nat n)) as [-> | Hne].
      * apply Nn. now rewrite Z2Nat.id in Hin by lia.
      * rewrite list_lookup_insert_ne in Hi by congruence.
        apply (P i e0 Hi Hv0 Hti). now right.
Qed.

Lemma no_revalidation_tail call cs :
  PolarityPacket.no_revalidation (call :: cs) -> PolarityPacket.no_revalidation cs.
Proof. destruct call; cbn; tauto. Qed.

Lemma tracked_run c cs : forall p t L,
  tracked host c p t ->
  pending host p t cs ->
  PolarityPacket.no_revalidation cs ->
  exists t', tracked host c (run (perform_all p cs) L) t'.
Proof.
  induction cs as [| call cs IH]; intros p t L T P N.
  - exists t. exact T.
  - rewrite perform_all_cons.
    destruct (tracked_step c p t call cs L T P N) as (t' & T' & P').
    apply (IH _ t' _ T' P' (no_revalidation_tail _ _ N)).
Qed.

Lemma tracked_invariant c p t :
  0 <= c -> tracked host c p t -> PolarityPacket.header_invariant (Polarity.packetHeader p).
Proof.
  intros Hc T. pose proof (tracked_counts c p t T).
  unfold PolarityPacket.header_invariant.
  rewrite (tracked_valid _ _ _ _ T), (tracked_number _ _ _ _ T), (tracked_capacity _ _ _ _ T).
  lia.
Qed.

Lemma counting_step c k p call L :
  counting host c k p -> k < INT32_MAX ->
  counting host c (k + 1) (run (perform p call) L).
Proof.
  intros C Hk.
  assert (Same : run (perform p call) L = p ->
                 counting host c (k + 1) (run (perform p call) L)).
  { intros ->. destruct C. constructor; auto. lia. }
  pose proof (counting_capacity _ _ _ _ C) as Hcap.
  pose proof (counting_events _ _ _ _ C) as Hlen.
  pose proof (counting_int32 _ _ _ _ C) as Hmax.
  pose proof (counting_valid _ _ _ _ C) as Hval.
  pose proof (counting_number _ _ _ _ C) as Hnum.
  pose proof (count_bounds IsValid (Polarity.events p)) as Hb.
  assert (In_range : forall n, 0 <= n < c ->
            exists e, Polarity.events p !! Z.to_nat n = Some e).
  { intros n Hn. apply lookup_lt_is_Some_2. lia. }
  destruct call as [n | n];
    (destruct (Z.lt_ge_cases n 0);
       [apply Same, (perform_out_of_range p _ n); auto |]);
    (destruct (Z.lt_ge_cases n c);
       [| apply Same, (perform_out_of_range p _ n); auto; lia]);
    destruct (In_range n ltac:(lia)) as [e He];
    destruct (IsValid e) eqn:Hv.
  - apply Same, (perform_validate_valid p n e); assumption.
  - rewrite (perform_validate_invalid p n e) by (assumption || lia).
    pose proof (count_insert IsValid _ _ e (marked host e) He) as Hins.
    rewrite Hv in Hins. unfold marked in Hins at 2.
    rewrite polarity_marked_valid in Hins.
    pose proof (count_bounds IsValid (<[Z.to_nat n := marked host e]> (Polarity.events p))) as Hb'.
    rewrite length_insert in Hb'.
    constructor; cbn [PolarityPacket.store Polarity.packetHeader Polarity.events counted
                      eventCapacity eventValid eventNumber];
      rewrite ?length_insert; auto.
    + rewrite Hins, Hval. rewrite add32_exact by (unfold INT32_MIN; lia). lia.
    + rewrite !add32_exact by (unfold INT32_MIN; lia). lia.
  - rewrite (perform_invalidate_valid p n e) by (assumption || lia).
    pose proof (count_insert IsValid _ _ e (unmarked host e) He) as Hins.
    rewrite Hv in Hins. unfold unmarked in Hins at 2.
    rewrite polarity_unmarked_invalid in Hins.
    pose proof (count_bounds IsValid (<[Z.to_nat n := unmarked host e]> (Polarity.events p))) as Hb'.
    constructor; cbn [PolarityPacket.store Polarity.packetHeader Polarity.events uncounted
                      eventCapacity eventValid eventNumber];
      rewrite ?length_insert; auto.
    + rewrite Hins, Hval. rewrite sub32_exact by (unfold INT32_MIN; lia). lia.
    + rewrite sub32_exact by (unfold INT32_MIN; lia). lia.
  - apply Same, (perform_invalidate_invalid p n e); assumption.
Qed.

Lemma counting_run c cs : forall k p L,
  counting host c k p ->
  k + Z.of_nat (length cs) <= INT32_MAX ->
  counting host c (k + Z.of_nat (length cs)) (run (perform_all p cs) L).
Proof.
  induction cs as [| call cs IH]; intros k p L C Hk.
  - cbn [length Z.of_nat]. rewrite Z.add_0_r. exact C.
  - rewrite perform_all_cons. cbn [length] in *.
    replace (k + Z.of_nat (S (length cs))) with (k + 1 + Z.of_nat (length cs)) by lia.
    apply IH; [apply counting_step; [exact C | lia] | lia].
Qed.

End Protocol.

Lemma zero_event_invalid host :
  Polarity.caerPolarityEventIsValid host {| Polarity.data := 0; Polarity.timestamp := 0 |}
  = false.
Proof. now destruct host. Qed.

Lemma count_replicate {A} (f : A -> bool) n x :
  f x = false -> count f (replicate n x) = 0.
Proof. intros H. induction n as [| n IH]; cbn [replicate count]; [| rewrite H]; lia. Qed.

(** The packet the allocator returns. *)
Lemma allocate_tracked host tid c src ov p0 :
  c <= INT32_MAX ->
  PolarityPacket.caerPolarityEventPacketAllocate tid c src ov = Some p0 ->
  0 < c /\
  tracked host c p0 (replicate (Z.to_nat c) false) /\
  pending host p0 (replicate (Z.to_nat c) false) [] /\
  counting host c 0 p0.
Proof.
  intros Hmax. unfold PolarityPacket.caerPolarityEventPacketAllocate.
  destruct (Z.leb_spec c 0); [discriminate |]. intros [= <-].
  split; [assumption |]. split; [| split].
  - constructor; cbn [Polarity.packetHeader Polarity.events eventCapacity
                      eventValid eventNumber]; rewrite ?length_replicate; auto; try lia.
    + symmetry. apply count_replicate, zero_event_invalid.
    + symmetry. now apply count_replicate.
    + intros i e [-> _]%lookup_replicate Hv.
      rewrite zero_event_invalid in Hv. discriminate.
  - intros i e _ _ _ [].
  - constructor; cbn [Polarity.packetHeader Polarity.events eventCapacity
                      eventValid eventNumber]; rewrite ?length_replicate; auto; try lia.
    symmetry. apply count_replicate, zero_event_invalid.
Qed.

(** C4, as the spec has it, fails: on a fresh packet of capacity 1,
    validate, invalidate and validate again of event 0 leave
    [eventNumber] at 2, above the capacity. *)
Lemma header_invariant_broken_by_revalidation :
  PolarityPacket.caerPolarityEventPacketAllocate 1 1 0 0 = Some packet_of_one /\
  ~ PolarityPacket.header_invariant
      (Polarity.packetHeader
         (run (PolarityPacket.perform_all LittleEndian false packet_of_one
                 [PolarityPacket.Validate 0; PolarityPacket.Invalidate 0;
                  PolarityPacket.Validate 0])
              (Logger.initial ""))).
Proof.
  split; [reflexivity |].
  unfold PolarityPacket.header_invariant. vm_compute. intros (_ & _ & H). now apply H.
Qed.

(** C4, amended. From a freshly allocated packet, every sequence of
    validate and invalidate calls on its events, of at most [INT32_MAX]
    calls, keeps [0 <= eventValid <= eventNumber] and
    [eventValid <= eventCapacity]; and every sequence in which no event
    is validated after a call that invalidates it keeps the whole
    invariant [0 <= eventValid <= eventNumber <= eventCapacity]. *)
Theorem header_invariant_without_revalidation host nolog tid c src ov p0 cs L :
  c <= INT32_MAX ->
  PolarityPacket.caerPolarityEventPacketAllocate tid c src ov = Some p0 ->
  let h := Polarity.packetHeader (run (PolarityPacket.perform_all host nolog p0 cs) L) in
  (PolarityPacket.no_revalidation cs -> PolarityPacket.header_invariant h) /\
  (Z.of_nat (length cs) <= INT32_MAX ->
   0 <= eventValid h /\ eventValid h <= eventNumber h /\ eventValid h <= eventCapacity h).
Proof.
  intros Hmax Halloc h.
  destruct (allocate_tracked host tid c src ov p0 Hmax Halloc) as (Hc & T & P & C).
  split.
  - intros N.
    destruct (tracked_run host nolog c cs p0 _ L T) as [t' T'].
    + intros i e _ _ Hi. apply lookup_replicate in Hi as [[=] _].
    + exact N.
    + apply (tracked_invariant host c _ t'); [lia | exact T'].
  - intros Hlen.
    pose proof (counting_run host nolog c cs 0 p0 L C ltac:(lia)) as C'.
    fold h in C'.
    pose proof (counting_number _ _ _ _ C').
    pose proof (count_bounds (Polarity.caerPolarityEventIsValid host)
                  (Polarity.events (run (PolarityPacket.perform_all host nolog p0 cs) L))).
    rewrite (counting_events _ _ _ _ C') in *.
    unfold h. rewrite (counting_valid _ _ _ _ C'), (counting_capacity _ _ _ _ C').
    rewrite (counting_valid _ _ _ _ C') in *. lia.
Qed.

(** ** Diagnostics *)

(** The misuse of validate is reported: with logging compiled in and the
    threshold at its initial value, validating a valid event writes one
    line of severity CRITICAL to stderr and changes nothing else. *)
Lemma validate_valid_diagnosed host e h now :
  Polarity.caerPolarityEventIsValid host e = true ->
  Polarity.caerPolarityEventValidate host false e h (Logger.initial now)
  = ((e, h),
     {| Logger.caerLogLevel := Logger.CAER_LOG_ERROR;
        Logger.currentTimeString := now;
        Logger.stderr :=
          [ {| Logger.logString :=
                 (now ++ ": CRITICAL: Polarity Event: "
                  ++ "Called caerPolarityEventValidate() on already valid event."
                  ++ String "010"%char EmptyString)%string;
               Logger.logArgs := [] |} ] |}).
Proof.
  intros Hv. unfold Polarity.caerPolarityEventValidate. rewrite Hv. reflexivity.
Qed.

(** With [LIBCAER_LOG_NONE] defined nothing is written. *)
Lemma validate_valid_silent host e h L :
  Polarity.caerPolarityEventIsValid host e = true ->
  Polarity.caerPolarityEventValidate host true e h L = ((e, h), L).
Proof.
  intros Hv. unfold Polarity.caerPolarityEventValidate. rewrite Hv. reflexivity.
Qed.

(** ** The scenario of the spec, end to end *)

(** A polarity packet of capacity 2, source 1, overflow 0; event 0 gets
    X = 100, Y = 200, polarity ON and timestamp 42 and is validated. The
    header then counts one event, one of them valid; event 0 reads
    back what was written; event 1 is invalid with timestamp 0. *)
Example end_to_end host :
  match PolarityPacket.caerPolarityEventPacketAllocate 1 2 1 0 with
  | None => False
  | Some p0 =>
      let written :=
        run (Polarity.caerPolarityEventSetTimestamp host false
               (Polarity.caerPolarityEventSetPolarity host
                  (Polarity.caerPolarityEventSetY host
                     (Polarity.caerPolarityEventSetX host
                        {| Polarity.data := 0; Polarity.timestamp := 0 |} 100) 200) true)
               42) sample_log in
      let p1 :=
        run (PolarityPacket.perform host false
               (PolarityPacket.store p0 0 written (Polarity.packetHeader p0))
               (PolarityPacket.Validate 0)) sample_log in
      let e0 := PolarityPacket.load p1 0 in
      let e1 := PolarityPacket.load p1 1 in
      eventNumber (Polarity.packetHeader p1) = 1 /\
      eventValid (Polarity.packetHeader p1) = 1 /\
      option_map (Polarity.caerPolarityEventGetX host) e0 = Some 100 /\
      option_map (Polarity.caerPolarityEventGetY host) e0 = Some 200 /\
      option_map (Polarity.caerPolarityEventGetPolarity host) e0 = Some true /\
      option_map (Polarity.caerPolarityEventGetTimestamp host) e0 = Some 42 /\
      option_map (Polarity.caerPolarityEventIsValid host) e0 = Some true /\
      option_map (Polarity.caerPolarityEventIsValid host) e1 = Some false /\
      option_map (Polarity.caerPolarityEventGetTimestamp host) e1 = Some 0
  end.
Proof. destruct host; vm_compute; repeat split; reflexivity. Qed.

(** ** The theorems at concrete inputs *)

(** Closes a goal about concrete numbers by computing it. *)
Ltac concrete := vm_compute; repeat split; first [reflexivity | discriminate | lia].

Lemma validate_counts_once_witness :
  let r := run (Polarity.caerPolarityEventValidate LittleEndian false
                  (sample_polarity 0) sample_header) sample_log in
  let r' := run (IMU9.caerIMU9EventValidate LittleEndian false
                   (sample_imu9 0) sample_header) sample_log in
  (Polarity.caerPolarityEventIsValid LittleEndian (fst r) = true /\
   eventNumber (snd r) = 2 /\ eventValid (snd r) = 2) /\
  run (Polarity.caerPolarityEventValidate LittleEndian false
         (sample_polarity 1) sample_header) sample_log
  = (sample_polarity 1, sample_header) /\
  (IMU9.caerIMU9EventIsValid LittleEndian (fst r') = true /\
   eventNumber (snd r') = 2 /\ eventValid (snd r') = 2) /\
  run (IMU9.caerIMU9EventValidate LittleEndian false
         (sample_imu9 1) sample_header) sample_log
  = (sample_imu9 1, sample_header).
Proof.
  pose proof (validate_counts_once LittleEndian false sample_log sample_header
                (sample_polarity 0) (sample_imu9 0)) as (A & _ & _ & B & _ & _).
  pose proof (validate_counts_once LittleEndian false sample_log sample_header
                (sample_polarity 1) (sample_imu9 1)) as (_ & A' & _ & _ & B' & _).
  split; [apply A; [reflexivity | concrete ..] |].
  split; [apply A'; reflexivity |].
  split; [apply B; [reflexivity | concrete ..] |].
  apply B'; reflexivity.
Defined.

Lemma invalidate_uncounts_witness :
  let r := run (Polarity.caerPolarityEventInvalidate LittleEndian false
                  (sample_polarity 1) sample_header) sample_log in
  let r' := run (IMU9.caerIMU9EventInvalidate LittleEndian false
                   (sample_imu9 1) sample_header) sample_log in
  let z := run (in_turn (Polarity.caerPolarityEventValidate LittleEndian false)
                        (Polarity.caerPolarityEventInvalidate LittleEndian false)
                        {| Polarity.data := 0; Polarity.timestamp := 0 |}
                        sample_header) sample_log in
  (Polarity.caerPolarityEventIsValid LittleEndian (fst r) = false /\
   eventValid (snd r) = 0 /\ eventNumber (snd r) = 1) /\
  run (Polarity.caerPolarityEventInvalidate LittleEndian false
         (sample_polarity 0) sample_header) sample_log
  = (sample_polarity 0, sample_header) /\
  eventValid (snd z) = 1 /\
  (IMU9.caerIMU9EventIsValid LittleEndian (fst r') = false /\
   eventValid (snd r') = 0 /\ eventNumber (snd r') = 1) /\
  run (IMU9.caerIMU9EventInvalidate LittleEndian false
         (sample_imu9 0) sample_header) sample_log
  = (sample_imu9 0, sample_header).
Proof.
  pose proof (invalidate_uncounts LittleEndian false sample_log sample_header
                (sample_polarity 1) (sample_imu9 1)) as (A & _ & Z0 & B & _ & _).
  pose proof (invalidate_uncounts LittleEndian false sample_log sample_header
                (sample_polarity 0) (sample_imu9 0)) as (_ & A' & _ & _ & B' & _).
  split; [apply A; [reflexivity | concrete] |].
  split; [apply A'; reflexivity |].
  split; [apply Z0; concrete |].
  split; [apply B; [reflexivity | concrete] |].
  apply B'; reflexivity.
Defined.

Lemma timestamp64_composition_witness :
  Polarity.caerPolarityEventGetTimestamp64 LittleEndian (sample_polarity 0) sample_header
    = 6442450949 /\
  Polarity.caerPolarityEventGetTimestamp64 LittleEndian (sample_polarity 0) sample_header
    = 3 * 2 ^ 31 + 5 /\
  IMU9.caerIMU9EventGetTimestamp64 LittleEndian (sample_imu9 0) sample_header
    = 6442450949 /\
  IMU9.caerIMU9EventGetTimestamp64 LittleEndian (sample_imu9 0) sample_header
    = 3 * 2 ^ 31 + 5.
Proof.
  pose proof (timestamp64_composition LittleEndian sample_header
                (sample_polarity 0) (sample_imu9 0)) as (_ & A & B & _ & C & D).
  split; [apply B; reflexivity |].
  split; [apply A; [concrete | concrete] |].
  split; [apply D; reflexivity |].
  apply C; [concrete | concrete].
Defined.

Lemma header_invariant_without_revalidation_witness :
  let cs := [PolarityPacket.Validate 0; PolarityPacket.Validate 1;
             PolarityPacket.Invalidate 0] in
  let h := Polarity.packetHeader
             (run (PolarityPacket.perform_all BigEndian false fresh_packet_of_two cs)
                  sample_log) in
  PolarityPacket.header_invariant h /\
  (0 <= eventValid h /\ eventValid h <= eventNumber h /\ eventValid h <= eventCapacity h).
Proof.
  intros cs h.
  assert (Hmax : 2 <= INT32_MAX) by concrete.
  assert (Halloc : PolarityPacket.caerPolarityEventPacketAllocate 1 2 0 0
                   = Some fresh_packet_of_two) by reflexivity.
  pose proof (header_invariant_without_revalidation BigEndian false 1 2 0 0
                fresh_packet_of_two cs sample_log Hmax Halloc) as (A & B).
  split.
  - apply A. cbn. split; [intros [] | exact I].
  - apply B. concrete.
Defined.

Lemma polarity_fields_round_trip_witness :
  Polarity.caerPolarityEventGetPolarity BigEndian
    (Polarity.caerPolarityEventSetPolarity BigEndian (sample_polarity 0) true) = true /\
  Polarity.caerPolarityEventGetX BigEndian
    (Polarity.caerPolarityEventSetX BigEndian (sample_polarity 0) 100) = 100 /\
  Polarity.caerPolarityEventGetY BigEndian
    (Polarity.caerPolarityEventSetY BigEndian (sample_polarity 0) 200) = 200.
Proof.
  apply (polarity_fields_round_trip BigEndian (sample_polarity 0) true 100 200);
    [reflexivity | lia | lia].
Defined.

Lemma polarity_encode_ors_witness :
  Polarity.caerPolarityEventGetX LittleEndian
    (Polarity.caerPolarityEventSetX LittleEndian
       (Polarity.caerPolarityEventSetX LittleEndian (sample_polarity 0) 5) 6) = 7 /\
  Polarity.caerPolarityEventGetX LittleEndian
    (Polarity.caerPolarityEventSetX LittleEndian
       (Polarity.caerPolarityEventSetX LittleEndian (sample_polarity 0) 1) 2) = 3.
Proof.
  pose proof (polarity_encode_ors LittleEndian (sample_polarity 0) 5 6 true false)
    as (_ & _ & _ & H).
  destruct (H eq_refl) as (A & _ & _ & _ & B).
  split; [exact A | exact B].
Defined.

Lemma set_timestamp_refuses_negative_witness :
  run (Polarity.caerPolarityEventSetTimestamp BigEndian false (sample_polarity 0) (-1))
      sample_log = sample_polarity 0 /\
  Polarity.caerPolarityEventGetTimestamp BigEndian
    (run (Polarity.caerPolarityEventSetTimestamp BigEndian false (sample_polarity 0) 42)
         sample_log) = 42 /\
  run (IMU9.caerIMU9EventSetTimestamp BigEndian false (sample_imu9 0) (-1))
      sample_log = sample_imu9 0 /\
  IMU9.caerIMU9EventGetTimestamp BigEndian
    (run (IMU9.caerIMU9EventSetTimestamp BigEndian false (sample_imu9 0) 42)
         sample_log) = 42.
Proof.
  pose proof (set_timestamp_refuses_negative BigEndian false sample_log (-1)
                (sample_polarity 0) (sample_imu9 0)) as (A & _ & B & _).
  pose proof (set_timestamp_refuses_negative BigEndian false sample_log 42
                (sample_polarity 0) (sample_imu9 0)) as (_ & C & _ & D).
  split; [apply A; lia |].
  split; [apply C; concrete |].
  split; [apply B; lia |].
  apply D; concrete.
Defined.

Lemma get_event_bounds_witness :
  run (Polarity.caerPolarityEventPacketGetEvent false sample_polarity_packet 1) sample_log
    = (Some 1, sample_polarity_packet) /\
  is_Some (Polarity.events sample_polarity_packet !! Z.to_nat 1) /\
  run (Polarity.caerPolarityEventPacketGetEvent false sample_polarity_packet 2) sample_log
    = (None, sample_polarity_packet) /\
  run (IMU9.caerIMU9EventPacketGetEvent false sample_imu9_packet 1) sample_log
    = (Some 1, sample_imu9_packet) /\
  is_Some (IMU9.events sample_imu9_packet !! Z.to_nat 1) /\
  run (IMU9.caerIMU9EventPacketGetEvent false sample_imu9_packet (-1)) sample_log
    = (None, sample_imu9_packet).
Proof.
  pose proof (get_event_bounds false sample_log 1 sample_polarity_packet sample_imu9_packet)
    as (A & _ & _ & B & _ & _).
  pose proof (get_event_bounds false sample_log 2 sample_polarity_packet sample_imu9_packet)
    as (_ & C & _ & _ & _ & _).
  pose proof (get_event_bounds false sample_log (-1) sample_polarity_packet sample_imu9_packet)
    as (_ & _ & _ & _ & D & _).
  assert (R : 0 <= 1 < 2) by lia.
  destruct (A R) as (A1 & _ & A2). destruct (B R) as (B1 & _ & B2).
  split; [exact A1 |]. split; [apply A2; reflexivity |].
  split; [apply C; right; concrete |].
  split; [exact B1 |]. split; [apply B2; reflexivity |].
  apply D; left; lia.
Defined.

Lemma polarity_setters_frame_witness :
  let e := sample_polarity 3 in
  Z.testbit (polarity_word LittleEndian (Polarity.caerPolarityEventSetX LittleEndian e 65535)) 16
    = Z.testbit (polarity_word LittleEndian e) 16 /\
  Z.testbit (polarity_word LittleEndian (Polarity.caerPolarityEventSetY LittleEndian e 65535)) 17
    = Z.testbit (polarity_word LittleEndian e) 17 /\
  Z.testbit (polarity_word LittleEndian (Polarity.caerPolarityEventSetPolarity LittleEndian e true)) 0
    = Z.testbit (polarity_word LittleEndian e) 0.
Proof.
  intros e.
  pose proof (polarity_setters_frame LittleEndian e 65535 true)
    as ((A & _) & (B & _) & (C & _)).
  split; [apply A; lia |]. split; [apply B; lia |]. apply C; lia.
Defined.

(** ** The logger: what is written and what is dropped *)

Lemma uint8_small l : 0 <= l <= 255 -> l mod 2 ^ 8 = l.
Proof. intros H. apply Z.mod_small. lia. Qed.

(** X1. A message with both strings given is written exactly when its
    level is at or below the threshold set last: the line holds the
    clock, the name of the level, the subsystem and the format, in that
    order, and the arguments; a message above the threshold leaves
    stderr as it was. Either way the threshold reads back as set. *)
Theorem log_threshold_filters (t l : Z) (sub fmt : string) (args : list Z)
    (s : Logger.state) :
  0 <= t <= 255 -> 0 <= l <= 255 ->
  let s' := Logger.caerLog l (Some sub) (Some fmt) args (Logger.caerLogLevelSet t s) in
  Logger.caerLogLevelGet s' = t /\
  (l <= t ->
   Logger.stderr s' =
   Logger.stderr s ++
     [ {| Logger.logString :=
            (Logger.currentTimeString s ++ ": " ++ Logger.logLevelString l ++ ": "
             ++ sub ++ ": " ++ fmt ++ String "010"%char EmptyString)%string;
          Logger.logArgs := args |} ]) /\
  (t < l -> Logger.stderr s' = Logger.stderr s).
Proof.
  intros Ht Hl s'. subst s'.
  unfold Logger.caerLog, Logger.emit, Logger.caerLogLevelSet, Logger.caerLogLevelGet.
  cbn [Logger.caerLogLevel Logger.stderr Logger.currentTimeString].
  rewrite !uint8_small by assumption.
  destruct (Z.leb_spec l t); cbn [Logger.caerLogLevel Logger.stderr];
    rewrite ?uint8_small by assumption; repeat split; intros; try reflexivity; lia.
Qed.

(** X2. A call with a NULL subsystem or a NULL format never writes the
    message of the caller: its level and its arguments are ignored, and
    the complaint of the logger itself, of level ERROR, takes its place.
    The complaint is filtered like any message, so below threshold
    ERROR the call writes nothing, even at level EMERGENCY. *)
Theorem log_null_strings (l : Z) (sub fmt : option string) (args : list Z)
    (s : Logger.state) :
  sub = None \/ fmt = None ->
  let s' := Logger.caerLog l sub fmt args s in
  s' = Logger.caerLog Logger.CAER_LOG_ERROR (Some "Logger"%string)
         (Some "Missing subSystem or format strings. Neither can be NULL."%string) [] s /\
  (Logger.CAER_LOG_ERROR <= Logger.caerLogLevel s ->
   exists ln, Logger.stderr s' = Logger.stderr s ++ [ln] /\ Logger.logArgs ln = []) /\
  (Logger.caerLogLevel s < Logger.CAER_LOG_ERROR -> s' = s).
Proof.
  intros Hnull s'.
  assert (E : s' = Logger.emit Logger.CAER_LOG_ERROR "Logger"
                     "Missing subSystem or format strings. Neither can be NULL." [] s).
  { subst s'. unfold Logger.caerLog.
    destruct Hnull as [-> | ->]; [reflexivity | now destruct sub]. }
  rewrite E. split; [reflexivity |]. unfold Logger.emit.
  split; intros H.
  - destruct (Z.leb_spec Logger.CAER_LOG_ERROR (Logger.caerLogLevel s)); [| lia].
    eexists. split; reflexivity.
  - destruct (Z.leb_spec Logger.CAER_LOG_ERROR (Logger.caerLogLevel s)); [lia |].
    reflexivity.
Qed.

Lemma emit_appends l sub fmt args s :
  Logger.caerLogLevel (Logger.emit l sub fmt args s) = Logger.caerLogLevel s /\
  Logger.currentTimeString (Logger.emit l sub fmt args s) = Logger.currentTimeString s /\
  exists suffix,
    Logger.stderr (Logger.emit l sub fmt args s) = Logger.stderr s ++ suffix /\
    (length suffix <= 1)%nat.
Proof.
  unfold Logger.emit. destruct (l <=? Logger.caerLogLevel s); cbn.
  - repeat split. eexists. split; [reflexivity | cbn; lia].
  - repeat split. exists []. rewrite app_nil_r. split; [reflexivity | cbn; lia].
Qed.

(** X3. Whatever it is called with, [caerLog] changes neither the
    threshold nor the clock, removes nothing from stderr and adds one
    line at most. *)
Theorem log_only_appends (l : Z) (sub fmt : option string) (args : list Z)
    (s : Logger.state) :
  let s' := Logger.caerLog l sub fmt args s in
  Logger.caerLogLevel s' = Logger.caerLogLevel s /\
  Logger.currentTimeString s' = Logger.currentTimeString s /\
  exists suffix,
    Logger.stderr s' = Logger.stderr s ++ suffix /\ (length suffix <= 1)%nat.
Proof.
  intros s'. subst s'. unfold Logger.caerLog.
  destruct sub, fmt; apply emit_appends.
Qed.

(** ** Diagnostics of the accessors *)

Lemma diagnosed_log {A} nolog (x : A) sub fmt args L :
  log_after (do_ diagnose nolog sub fmt args ;; ret x) L
  = if nolog then L else Logger.emit Logger.CAER_LOG_CRITICAL sub fmt args L.
Proof. unfold log_after, bind, diagnose, ret. now destruct nolog. Qed.

Lemma emit_lines l sub fmt args L :
  lines (Logger.emit l sub fmt args L)
  = (lines L + one_if (l <=? Logger.caerLogLevel L)%Z)%nat /\
  Logger.caerLogLevel (Logger.emit l sub fmt args L) = Logger.caerLogLevel L.
Proof.
  unfold Logger.emit, lines, one_if. destruct (l <=? Logger.caerLogLevel L); cbn.
  - rewrite length_app. cbn. split; [lia | reflexivity].
  - split; [lia | reflexivity].
Qed.

(** How many lines a call adds to stderr: one when it is a misuse and
    a line of severity CRITICAL gets through. *)
Lemma guarded_lines {A} (misuse nolog : bool) (x y : A) sub fmt args L :
  let m := if misuse then do_ diagnose nolog sub fmt args ;; ret x else ret y in
  lines (log_after m L) = (lines L + one_if (misuse && critical_shown nolog L))%nat /\
  Logger.caerLogLevel (log_after m L) = Logger.caerLogLevel L.
Proof.
  unfold critical_shown. destruct misuse; cbn zeta.
  - rewrite diagnosed_log. destruct nolog; cbn [negb andb].
    + unfold one_if. split; [lia | reflexivity].
    + apply emit_lines.
  - cbn. unfold one_if. split; [lia | reflexivity].
Qed.

Lemma guarded_run {A} (misuse nolog : bool) (x y : A) sub fmt args L :
  run (if misuse then do_ diagnose nolog sub fmt args ;; ret x else ret y) L
  = if misuse then x else y.
Proof. destruct misuse; [apply diagnose_run | reflexivity]. Qed.

(** X4. What an accessor returns and leaves in the event, the header
    and the packet depends neither on whether logging is compiled in
    nor on the state of the logger: this holds for [GetEvent],
    [SetTimestamp], [Validate] and [Invalidate] of both event types. *)
Theorem results_independent_of_logging host (nolog nolog' : bool)
    (L L' : Logger.state) (n ts : Z) (h : caer_event_packet_header)
    (pp : Polarity.caer_polarity_event_packet) (pe : Polarity.caer_polarity_event)
    (ip : IMU9.caer_imu9_event_packet) (ie : IMU9.caer_imu9_event) :
  run (Polarity.caerPolarityEventPacketGetEvent nolog pp n) L
    = run (Polarity.caerPolarityEventPacketGetEvent nolog' pp n) L' /\
  run (Polarity.caerPolarityEventSetTimestamp host nolog pe ts) L
    = run (Polarity.caerPolarityEventSetTimestamp host nolog' pe ts) L' /\
  run (Polarity.caerPolarityEventValidate host nolog pe h) L
    = run (Polarity.caerPolarityEventValidate host nolog' pe h) L' /\
  run (Polarity.caerPolarityEventInvalidate host nolog pe h) L
    = run (Polarity.caerPolarityEventInvalidate host nolog' pe h) L' /\
  run (IMU9.caerIMU9EventPacketGetEvent nolog ip n) L
    = run (IMU9.caerIMU9EventPacketGetEvent nolog' ip n) L' /\
  run (IMU9.caerIMU9EventSetTimestamp host nolog ie ts) L
    = run (IMU9.caerIMU9EventSetTimestamp host nolog' ie ts) L' /\
  run (IMU9.caerIMU9EventValidate host nolog ie h) L
    = run (IMU9.caerIMU9EventValidate host nolog' ie h) L' /\
  run (IMU9.caerIMU9EventInvalidate host nolog ie h) L
    = run (IMU9.caerIMU9EventInvalidate host nolog' ie h) L'.
Proof.
  unfold Polarity.caerPolarityEventPacketGetEvent, Polarity.caerPolarityEventSetTimestamp,
    IMU9.caerIMU9EventPacketGetEvent, IMU9.caerIMU9EventSetTimestamp.
  rewrite !guarded_run.
  repeat split.
  - destruct (Polarity.caerPolarityEventIsValid host pe) eqn:Hv.
    + now rewrite !polarity_validate_valid.
    + unfold run. now rewrite !polarity_validate_invalid.
  - destruct (Polarity.caerPolarityEventIsValid host pe) eqn:Hv.
    + unfold run. now rewrite !polarity_invalidate_valid.
    + now rewrite !polarity_invalidate_invalid.
  - destruct (IMU9.caerIMU9EventIsValid host ie) eqn:Hv.
    + now rewrite !imu9_validate_valid.
    + unfold run. now rewrite !imu9_validate_invalid.
  - destruct (IMU9.caerIMU9EventIsValid host ie) eqn:Hv.
    + unfold run. now rewrite !imu9_invalidate_valid.
    + now rewrite !imu9_invalidate_invalid.
Qed.


Lemma log_after_pure {A} (x : A) L : log_after (ret x) L = L.
Proof. reflexivity. Qed.

(** X5. Each accessor adds exactly one line to stderr when it is misused
    and a line of severity CRITICAL gets through, and none otherwise;
    the threshold is never changed. The misuses are: an index outside
    the capacity, a negative timestamp, validating a valid event and
    invalidating an invalid one. *)
Theorem one_line_per_misuse host nolog (L : Logger.state) (n ts : Z)
    (h : caer_event_packet_header)
    (pp : Polarity.caer_polarity_event_packet) (pe : Polarity.caer_polarity_event)
    (ip : IMU9.caer_imu9_event_packet) (ie : IMU9.caer_imu9_event) :
  let shown := critical_shown nolog L in
  let added {A} (m : Log A) (misuse : bool) :=
    lines (log_after m L) = (lines L + one_if (misuse && shown))%nat /\
    Logger.caerLogLevel (log_after m L) = Logger.caerLogLevel L in
  added (Polarity.caerPolarityEventPacketGetEvent nolog pp n)
        ((n <? 0) || (n >=? eventCapacity (Polarity.packetHeader pp))) /\
  added (Polarity.caerPolarityEventSetTimestamp host nolog pe ts) (ts <? 0) /\
  added (Polarity.caerPolarityEventValidate host nolog pe h)
        (Polarity.caerPolarityEventIsValid host pe) /\
  added (Polarity.caerPolarityEventInvalidate host nolog pe h)
        (negb (Polarity.caerPolarityEventIsValid host pe)) /\
  added (IMU9.caerIMU9EventPacketGetEvent nolog ip n)
        ((n <? 0) || (n >=? eventCapacity (IMU9.packetHeader ip))) /\
  added (IMU9.caerIMU9EventSetTimestamp host nolog ie ts) (ts <? 0) /\
  added (IMU9.caerIMU9EventValidate host nolog ie h)
        (IMU9.caerIMU9EventIsValid host ie) /\
  added (IMU9.caerIMU9EventInvalidate host nolog ie h)
        (negb (IMU9.caerIMU9EventIsValid host ie)).
Proof.
  intros shown added. subst shown added. cbv beta.
  unfold Polarity.caerPolarityEventPacketGetEvent, Polarity.caerPolarityEventSetTimestamp,
    Polarity.caerPolarityEventValidate, Polarity.caerPolarityEventInvalidate,
    IMU9.caerIMU9EventPacketGetEvent, IMU9.caerIMU9EventSetTimestamp,
    IMU9.caerIMU9EventValidate, IMU9.caerIMU9EventInvalidate.
  unfold caerEventPacketHeaderGetEventCapacity.
  assert (Hit : forall A (x : A) sub fmt args,
    lines (log_after (do_ diagnose nolog sub fmt args ;; ret x) L)
    = (lines L + one_if (true && critical_shown nolog L))%nat /\
    Logger.caerLogLevel (log_after (do_ diagnose nolog sub fmt args ;; ret x) L)
    = Logger.caerLogLevel L).
  { intros A x sub fmt args. exact (guarded_lines true nolog x x sub fmt args L). }
  assert (Miss : forall A (x : A),
    lines (log_after (ret x) L) = (lines L + one_if (false && critical_shown nolog L))%nat /\
    Logger.caerLogLevel (log_after (ret x) L) = Logger.caerLogLevel L).
  { intros A x. cbn. unfold one_if. split; [lia | reflexivity]. }
  split; [apply (guarded_lines _ nolog) |].
  split; [apply (guarded_lines _ nolog) |].
  split; [destruct (Polarity.caerPolarityEventIsValid host pe);
          cbn [negb]; [apply Hit | apply Miss] |].
  split; [destruct (Polarity.caerPolarityEventIsValid host pe);
          cbn [negb]; [apply Miss | apply Hit] |].
  split; [apply (guarded_lines _ nolog) |].
  split; [apply (guarded_lines _ nolog) |].
  split; [destruct (IMU9.caerIMU9EventIsValid host ie);
          cbn [negb]; [apply Hit | apply Miss] |].
  destruct (IMU9.caerIMU9EventIsValid host ie); cbn [negb]; [apply Miss | apply Hit].
Qed.

(** ** What validate and invalidate leave alone *)

Lemma decode_mark_set w s k :
  1 <= s -> 0 <= k ->
  Z.land (Z.shiftr (Z.lor w 1) s) (Z.ones k) = Z.land (Z.shiftr w s) (Z.ones k).
Proof.
  intros Hs Hk. apply Z.bits_inj'; intros i Hi.
  rewrite !decode_testbit, testbit_lor_1 by lia.
  destruct (Z.eqb_spec (i + s) 0); [lia |]. now rewrite orb_false_r.
Qed.

Lemma decode_mark_cleared w s k :
  1 <= s -> 0 <= k ->
  Z.land (Z.shiftr (Z.land w (Z.lnot 1)) s) (Z.ones k) = Z.land (Z.shiftr w s) (Z.ones k).
Proof.
  intros Hs Hk. apply Z.bits_inj'; intros i Hi.
  rewrite !decode_testbit, testbit_land_lnot_1 by lia.
  destruct (Z.eqb_spec (i + s) 0); [lia |]. now rewrite andb_true_r.
Qed.

Lemma polarity_word_marked host e :
  polarity_word host (marked host e) = Z.lor (polarity_word host e) 1.
Proof. apply le32toh_mark_set. Qed.

Lemma polarity_word_unmarked host e :
  polarity_word host (unmarked host e) = Z.land (polarity_word host e) (Z.lnot 1).
Proof. apply le32toh_mark_cleared. Qed.

(** The fields of a polarity event other than the validity mark. *)
Lemma polarity_fields_of_marked host e :
  Polarity.caerPolarityEventGetX host (marked host e) = Polarity.caerPolarityEventGetX host e /\
  Polarity.caerPolarityEventGetY host (marked host e) = Polarity.caerPolarityEventGetY host e /\
  Polarity.caerPolarityEventGetPolarity host (marked host e)
    = Polarity.caerPolarityEventGetPolarity host e /\
  (forall i, i <> 0 ->
     Z.testbit (polarity_word host (marked host e)) i = Z.testbit (polarity_word host e) i).
Proof.
  polarity_fields. rewrite polarity_word_marked, !decode_mark_set by lia.
  repeat split. intros i Hi. rewrite testbit_lor_1.
  destruct (Z.eqb_spec i 0); [contradiction | apply orb_false_r].
Qed.

Lemma polarity_fields_of_unmarked host e :
  Polarity.caerPolarityEventGetX host (unmarked host e) = Polarity.caerPolarityEventGetX host e /\
  Polarity.caerPolarityEventGetY host (unmarked host e) = Polarity.caerPolarityEventGetY host e /\
  Polarity.caerPolarityEventGetPolarity host (unmarked host e)
    = Polarity.caerPolarityEventGetPolarity host e /\
  (forall i, i <> 0 ->
     Z.testbit (polarity_word host (unmarked host e)) i = Z.testbit (polarity_word host e) i).
Proof.
  polarity_fields. rewrite polarity_word_unmarked, !decode_mark_cleared by lia.
  repeat split. intros i Hi.
  destruct (Z.lt_ge_cases i 0); [now rewrite !Z.testbit_neg_r by lia |].
  rewrite testbit_land_lnot_1 by lia.
  destruct (Z.eqb_spec i 0); [contradiction | apply andb_true_r].
Qed.

Lemma polarity_validate_cases host nolog e h L :
  run (Polarity.caerPolarityEventValidate host nolog e h) L
  = if Polarity.caerPolarityEventIsValid host e then (e, h)
    else (marked host e, counted h).
Proof.
  destruct (Polarity.caerPolarityEventIsValid host e) eqn:Hv.
  - now apply polarity_validate_valid.
  - unfold run. now rewrite polarity_validate_invalid.
Qed.

Lemma polarity_invalidate_cases host nolog e h L :
  run (Polarity.caerPolarityEventInvalidate host nolog e h) L
  = if Polarity.caerPolarityEventIsValid host e then (unmarked host e, uncounted h)
    else (e, h).
Proof.
  destruct (Polarity.caerPolarityEventIsValid host e) eqn:Hv.
  - unfold run. now rewrite polarity_invalidate_valid.
  - now apply polarity_invalidate_invalid.
Qed.

Lemma imu9_validate_cases host nolog e h L :
  run (IMU9.caerIMU9EventValidate host nolog e h) L
  = if IMU9.caerIMU9EventIsValid host e then (e, h)
    else (IMU9.set_info e
            (Z.lor (IMU9.info e) (htole32 host (shl32 (U32T 1) VALID_MARK_SHIFT))),
          counted h).
Proof.
  destruct (IMU9.caerIMU9EventIsValid host e) eqn:Hv.
  - now apply imu9_validate_valid.
  - unfold run. now rewrite imu9_validate_invalid.
Qed.

Lemma imu9_invalidate_cases host nolog e h L :
  run (IMU9.caerIMU9EventInvalidate host nolog e h) L
  = if IMU9.caerIMU9EventIsValid host e
    then (IMU9.set_info e
            (Z.land (IMU9.info e)
               (htole32 host (not32 (shl32 (U32T 1) VALID_MARK_SHIFT)))),
          uncounted h)
    else (e, h).
Proof.
  destruct (IMU9.caerIMU9EventIsValid host e) eqn:Hv.
  - unfold run. now rewrite imu9_invalidate_valid.
  - now apply imu9_invalidate_invalid.
Qed.

Lemma testbit_mark_set w i : i <> 0 -> Z.testbit (Z.lor w 1) i = Z.testbit w i.
Proof.
  intros Hi. rewrite testbit_lor_1.
  destruct (Z.eqb_spec i 0); [contradiction | apply orb_false_r].
Qed.

Lemma testbit_mark_cleared w i :
  i <> 0 -> Z.testbit (Z.land w (Z.lnot 1)) i = Z.testbit w i.
Proof.
  intros Hi. destruct (Z.lt_ge_cases i 0); [now rewrite !Z.testbit_neg_r by lia |].
  rewrite testbit_land_lnot_1 by lia.
  destruct (Z.eqb_spec i 0); [contradiction | apply andb_true_r].
Qed.

(** X6. Validate and invalidate touch bit 0 of the first word of the
    event and nothing else of it, whatever the state of the event was:
    of a polarity event the X address, the Y address, the polarity and
    the timestamp read as before; of an IMU9 event the timestamp and
    the ten float fields are as before. *)
Theorem validity_frame host nolog L (h : caer_event_packet_header)
    (pe : Polarity.caer_polarity_event) (ie : IMU9.caer_imu9_event) :
  polarity_same_but_mark host
    (fst (run (Polarity.caerPolarityEventValidate host nolog pe h) L)) pe /\
  polarity_same_but_mark host
    (fst (run (Polarity.caerPolarityEventInvalidate host nolog pe h) L)) pe /\
  imu9_same_but_mark host
    (fst (run (IMU9.caerIMU9EventValidate host nolog ie h) L)) ie /\
  imu9_same_but_mark host
    (fst (run (IMU9.caerIMU9EventInvalidate host nolog ie h) L)) ie.
Proof.
  rewrite polarity_validate_cases, polarity_invalidate_cases,
    imu9_validate_cases, imu9_invalidate_cases.
  assert (Pid : polarity_same_but_mark host pe pe) by (repeat split).
  assert (Iid : imu9_same_but_mark host ie ie) by (repeat split).
  destruct (polarity_fields_of_marked host pe) as (A & B & C & D).
  destruct (polarity_fields_of_unmarked host pe) as (A' & B' & C' & D').
  destruct (Polarity.caerPolarityEventIsValid host pe),
    (IMU9.caerIMU9EventIsValid host ie); cbn [fst];
    repeat apply conj; try assumption; try reflexivity;
    try (intros i Hi; cbn [IMU9.info IMU9.set_info];
         first [ rewrite le32toh_mark_set; now apply testbit_mark_set
               | rewrite le32toh_mark_cleared; now apply testbit_mark_cleared ]).
Qed.

(** ** More on the timestamp *)

(** X7. [SetTimestamp] never touches the first word of the event (nor,
    for IMU9, the float fields), whatever timestamp it is given; and it
    never turns a stored timestamp that is not negative into a negative
    one: the sign bit stays clear. *)
Theorem set_timestamp_frame host nolog L (ts : Z)
    (pe : Polarity.caer_polarity_event) (ie : IMU9.caer_imu9_event) :
  let pe' := run (Polarity.caerPolarityEventSetTimestamp host nolog pe ts) L in
  let ie' := run (IMU9.caerIMU9EventSetTimestamp host nolog ie ts) L in
  Polarity.data pe' = Polarity.data pe /\
  IMU9.set_timestamp ie' (IMU9.timestamp ie) = ie /\
  (INT32_MIN <= ts <= INT32_MAX ->
   (0 <= Polarity.caerPolarityEventGetTimestamp host pe ->
    0 <= Polarity.caerPolarityEventGetTimestamp host pe') /\
   (0 <= IMU9.caerIMU9EventGetTimestamp host ie ->
    0 <= IMU9.caerIMU9EventGetTimestamp host ie')).
Proof.
  intros pe' ie'. subst pe' ie'.
  unfold Polarity.caerPolarityEventSetTimestamp, IMU9.caerIMU9EventSetTimestamp.
  rewrite !guarded_run.
  destruct (Z.ltb_spec ts 0) as [Hneg | Hpos].
  - split; [reflexivity |]. split; [now destruct ie |]. intros _. split; auto.
  - split; [reflexivity |]. split; [now destruct ie |]. intros [_ Hmax].
    unfold Polarity.caerPolarityEventGetTimestamp, IMU9.caerIMU9EventGetTimestamp.
    cbn [Polarity.timestamp Polarity.set_timestamp IMU9.timestamp IMU9.set_timestamp].
    rewrite !timestamp_round_trip by lia. split; intros _; exact Hpos.
Qed.

(** ** How the setters of the polarity event compose *)

(** X8. The setters of the polarity event commute with one another, and
    setting the same value twice is the same as setting it once: the
    event after the calls is the same event, bit for bit. *)
Theorem polarity_setters_commute host (e : Polarity.caer_polarity_event)
    (x y : Z) (b : bool) :
  let setX := Polarity.caerPolarityEventSetX host in
  let setY := Polarity.caerPolarityEventSetY host in
  let setP := Polarity.caerPolarityEventSetPolarity host in
  setX (setY e y) x = setY (setX e x) y /\
  setX (setP e b) x = setP (setX e x) b /\
  setY (setP e b) y = setP (setY e y) b /\
  setX (setX e x) x = setX e x /\
  setY (setY e y) y = setY e y /\
  setP (setP e b) b = setP e b.
Proof.
  intros setX setY setP. subst setX setY setP.
  unfold Polarity.caerPolarityEventSetX, Polarity.caerPolarityEventSetY,
    Polarity.caerPolarityEventSetPolarity, Polarity.set_data.
  cbn [Polarity.data Polarity.timestamp].
  repeat split; f_equal;
    rewrite <- ?Z.lor_assoc, ?Z.lor_diag; try reflexivity;
    f_equal; apply Z.lor_comm.
Qed.

(** X9. A whole polarity event round-trips: after writing an X address,
    a Y address (both up to 32767), a polarity and a timestamp (up to
    [INT32_MAX]) into a zero-initialized event, each getter returns
    what was written and the event is still invalid; validating it
    changes none of the four. *)
Theorem polarity_event_round_trip host nolog L (h : caer_event_packet_header)
    (x y ts : Z) (b : bool) :
  0 <= x <= 32767 -> 0 <= y <= 32767 -> 0 <= ts <= INT32_MAX ->
  let zero := {| Polarity.data := 0; Polarity.timestamp := 0 |} in
  let e :=
    run (Polarity.caerPolarityEventSetTimestamp host nolog
           (Polarity.caerPolarityEventSetPolarity host
              (Polarity.caerPolarityEventSetY host
                 (Polarity.caerPolarityEventSetX host zero x) y) b) ts) L in
  let v := fst (run (Polarity.caerPolarityEventValidate host nolog e h) L) in
  (Polarity.caerPolarityEventGetX host e = x /\
   Polarity.caerPolarityEventGetY host e = y /\
   Polarity.caerPolarityEventGetPolarity host e = b /\
   Polarity.caerPolarityEventGetTimestamp host e = ts /\
   Polarity.caerPolarityEventIsValid host e = false) /\
  (Polarity.caerPolarityEventGetX host v = x /\
   Polarity.caerPolarityEventGetY host v = y /\
   Polarity.caerPolarityEventGetPolarity host v = b /\
   Polarity.caerPolarityEventGetTimestamp host v = ts /\
   Polarity.caerPolarityEventIsValid host v = true).
Proof.
  intros Hx Hy Hts zero e v.
  assert (He : e = Polarity.set_timestamp
                 (Polarity.caerPolarityEventSetPolarity host
                    (Polarity.caerPolarityEventSetY host
                       (Polarity.caerPolarityEventSetX host zero x) y) b)
                 (I32T (htole32 host ts))).
  { unfold e, Polarity.caerPolarityEventSetTimestamp. rewrite guarded_run.
    destruct (Z.ltb_spec ts 0); [lia | reflexivity]. }
  assert (Hw : polarity_word host e
               = Z.lor (Z.lor (Z.lor 0 (shl32 (Z.land (U32T x) (Z.ones 15)) 17))
                              (shl32 (Z.land (U32T y) (Z.ones 15)) 2))
                       (shl32 (Z.land (U32T (of_bool b)) (Z.ones 1)) 1)).
  { rewrite He.
    change (polarity_word host (Polarity.set_timestamp ?a ?t))
      with (polarity_word host a).
    rewrite polarity_word_SetPolarity, polarity_word_SetY, polarity_word_SetX.
    now rewrite (polarity_word_zero host zero eq_refl). }
  assert (Fields :
    Polarity.caerPolarityEventGetX host e = x /\
    Polarity.caerPolarityEventGetY host e = y /\
    Polarity.caerPolarityEventGetPolarity host e = b /\
    Polarity.caerPolarityEventGetTimestamp host e = ts /\
    Polarity.caerPolarityEventIsValid host e = false).
  { rewrite polarity_GetX_word, polarity_GetY_word, polarity_GetPolarity_word,
      polarity_IsValid_word, Hw.
    rewrite (decode_encode_other _ _ 1 1 17 15) by lia.
    rewrite (decode_encode_other _ _ 2 15 17 15) by lia.
    rewrite (decode_encode_same _ _ 17 15) by lia.
    rewrite (decode_encode_other _ _ 1 1 2 15) by lia.
    rewrite (decode_encode_same _ _ 2 15) by lia.
    rewrite (decode_encode_other _ _ 17 15 2 15) by lia.
    rewrite (decode_encode_same _ _ 1 1) by lia.
    rewrite (decode_encode_other _ _ 2 15 1 1) by lia.
    rewrite (decode_encode_other _ _ 17 15 1 1) by lia.
    rewrite (decode_encode_other _ _ 1 1 0 1) by lia.
    rewrite (decode_encode_other _ _ 2 15 0 1) by lia.
    rewrite (decode_encode_other _ _ 17 15 0 1) by lia.
    rewrite ?Z.shiftr_0_l, ?Z.land_0_l, ?Z.lor_0_l.
    rewrite !land_ones_small by lia.
    split; [reflexivity |]. split; [reflexivity |].
    split; [apply to_bool_of_bool |].
    split; [| reflexivity].
    rewrite He. unfold Polarity.caerPolarityEventGetTimestamp.
    cbn [Polarity.timestamp Polarity.set_timestamp].
    now apply timestamp_round_trip. }
  split; [exact Fields |].
  destruct Fields as (FX & FY & FP & FT & FV).
  subst v. rewrite polarity_validate_cases, FV. cbn [fst].
  destruct (polarity_fields_of_marked host e) as (A & B & C & _).
  rewrite A, B, C, FX, FY, FP. repeat split.
  - exact FT.
  - apply polarity_marked_valid.
Qed.

(** X10. An address is cut to its low 15 bits when it is written: on a
    zero-initialized data word the X or Y address read back is the
    value written modulo 32768, so 32768 reads back 0 and 65535 reads
    back 32767. *)
Theorem polarity_address_wraps host (e : Polarity.caer_polarity_event) (v : Z) :
  Polarity.data e = 0 ->
  Polarity.caerPolarityEventGetX host (Polarity.caerPolarityEventSetX host e v)
    = v mod 32768 /\
  Polarity.caerPolarityEventGetY host (Polarity.caerPolarityEventSetY host e v)
    = v mod 32768 /\
  Polarity.caerPolarityEventGetX host (Polarity.caerPolarityEventSetX host e 32768) = 0 /\
  Polarity.caerPolarityEventGetY host (Polarity.caerPolarityEventSetY host e 65535) = 32767.
Proof.
  intros H0.
  assert (G : forall u,
    Polarity.caerPolarityEventGetX host (Polarity.caerPolarityEventSetX host e u)
      = u mod 32768 /\
    Polarity.caerPolarityEventGetY host (Polarity.caerPolarityEventSetY host e u)
      = u mod 32768).
  { intros u. polarity_fields. rewrite !decode_encode_same by lia.
    rewrite (polarity_word_zero host e H0).
    rewrite !Z.shiftr_0_l, !Z.land_0_l, !Z.lor_0_l.
    rewrite Z.land_ones by lia. split; reflexivity. }
  split; [apply G |]. split; [apply G |].
  split; [rewrite (proj1 (G 32768)) | rewrite (proj2 (G 65535))]; reflexivity.
Qed.

(** ** Invalidate and then validate *)

Lemma le32toh_le32toh host a : le32toh host (le32toh host a) = U32T a.
Proof.
  destruct host; cbn.
  - apply U32T_idem.
  - rewrite (U32T_small (bswap32 _)) by apply bswap32_range.
    rewrite bswap32_involutive. apply U32T_idem.
Qed.

Lemma le32toh_inj host a b :
  0 <= a < 2 ^ 32 -> 0 <= b < 2 ^ 32 -> le32toh host a = le32toh host b -> a = b.
Proof.
  intros Ha Hb H. apply (f_equal (le32toh host)) in H.
  rewrite !le32toh_le32toh, !U32T_small in H by assumption. exact H.
Qed.

Lemma htole32_range host x : 0 <= htole32 host x < 2 ^ 32.
Proof. destruct host; cbn; [apply U32T_range | apply bswap32_range]. Qed.

Lemma lor_range a b : 0 <= a < 2 ^ 32 -> 0 <= b < 2 ^ 32 -> 0 <= Z.lor a b < 2 ^ 32.
Proof.
  intros Ha Hb. apply bits_above_range; [lia |]. intros i Hi.
  now rewrite Z.lor_spec, !(small_testbit_high 32) by (assumption || lia).
Qed.

Lemma land_range a b : 0 <= a < 2 ^ 32 -> 0 <= Z.land a b < 2 ^ 32.
Proof.
  intros Ha. apply bits_above_range; [lia |]. intros i Hi.
  now rewrite Z.land_spec, (small_testbit_high 32 a) by (assumption || lia).
Qed.

(** Clearing the mark of a word that has it and setting it again gives
    the word back. *)
Lemma remark_word host d :
  0 <= d < 2 ^ 32 ->
  Z.testbit (le32toh host d) 0 = true ->
  Z.lor (Z.land d (htole32 host (not32 (shl32 (U32T 1) VALID_MARK_SHIFT))))
        (htole32 host (shl32 (U32T 1) VALID_MARK_SHIFT)) = d.
Proof.
  intros Hd Hv. apply (le32toh_inj host).
  - apply lor_range; [now apply land_range | apply htole32_range].
  - exact Hd.
  - rewrite le32toh_mark_set, le32toh_mark_cleared.
    apply Z.bits_inj'; intros i Hi.
    rewrite testbit_lor_1, testbit_land_lnot_1 by lia.
    destruct (Z.eqb_spec i 0) as [-> | Hne]; [now rewrite Hv |].
    now rewrite andb_true_r, orb_false_r.
Qed.

Lemma add32_sub32 a : INT32_MIN < a <= INT32_MAX -> add32 (sub32 a 1) 1 = a.
Proof.
  intros H. rewrite sub32_exact by exact H. rewrite add32_exact by lia. lia.
Qed.

(** X11. Invalidating a valid event and validating it again gives back
    the very same event, and [eventValid] is what it was; but
    [eventNumber] has gone up by one, although no event was added. (The
    word is a [uint32_t]; the counters are where their sums are
    defined.) This holds for polarity and for IMU9 events. *)
Theorem invalidate_then_validate host nolog L (h : caer_event_packet_header)
    (pe : Polarity.caer_polarity_event) (ie : IMU9.caer_imu9_event) :
  INT32_MIN <= eventNumber h < INT32_MAX ->
  INT32_MIN < eventValid h <= INT32_MAX ->
  (0 <= Polarity.data pe < 2 ^ 32 ->
   Polarity.caerPolarityEventIsValid host pe = true ->
   run (in_turn (Polarity.caerPolarityEventInvalidate host nolog)
                (Polarity.caerPolarityEventValidate host nolog) pe h) L
   = (pe, recounted h)) /\
  (0 <= IMU9.info ie < 2 ^ 32 ->
   IMU9.caerIMU9EventIsValid host ie = true ->
   run (in_turn (IMU9.caerIMU9EventInvalidate host nolog)
                (IMU9.caerIMU9EventValidate host nolog) ie h) L
   = (ie, recounted h)).
Proof.
  intros Hn Hc. split; intros Hd Hv; unfold in_turn, run, bind.
  - rewrite polarity_invalidate_valid by exact Hv. cbn [fst snd].
    rewrite polarity_validate_invalid by apply polarity_unmarked_invalid.
    cbn [fst]. f_equal.
    + unfold Polarity.set_data. cbn [Polarity.data Polarity.timestamp].
      rewrite remark_word; [now destruct pe | exact Hd |].
      now rewrite <- polarity_is_valid_bit.
    + unfold recounted. cbn. f_equal; [now apply add32_exact | now apply add32_sub32].
  - rewrite imu9_invalidate_valid by exact Hv. cbn [fst snd].
    rewrite imu9_validate_invalid by apply imu9_unmarked_invalid.
    cbn [fst]. f_equal.
    + unfold IMU9.set_info. cbn.
      rewrite remark_word; [now destruct ie | exact Hd |].
      now rewrite <- imu9_is_valid_bit.
    + unfold recounted. cbn. f_equal; [now apply add32_exact | now apply add32_sub32].
Qed.

(** ** The 64-bit timestamp as a clock *)

Lemma negative_testbit_high ts i :
  - 2 ^ 31 <= ts < 0 -> 31 <= i -> Z.testbit ts i = true.
Proof.
  intros Hts Hi.
  replace ts with (Z.lnot (- ts - 1)) by (unfold Z.lnot; lia).
  rewrite Z.lnot_spec by lia.
  rewrite (small_testbit_high 31 (- ts - 1) i) by lia. reflexivity.
Qed.

(** With the sign bit set in the stored timestamp, the conversion to 64
    bits fills bits 31 to 63, and the overflow counter is lost. *)
Lemma timestamp64_negative ov ts :
  INT32_MIN <= ts < 0 ->
  I64T (Z.lor (shl64 (U64T ov) TS_OVERFLOW_SHIFT) (U64T ts)) = ts.
Proof.
  unfold INT32_MIN. intros Hts.
  assert (E : Z.lor (shl64 (U64T ov) TS_OVERFLOW_SHIFT) (U64T ts) = U64T ts).
  { apply Z.bits_inj'; intros i Hi. unfold shl64, TS_OVERFLOW_SHIFT.
    rewrite Z.lor_spec, !U64T_testbit.
    destruct (Z.ltb_spec i 64); cbn [andb]; [| reflexivity].
    destruct (Z.lt_ge_cases i 31).
    - rewrite Z.shiftl_spec, (Z.testbit_neg_r _ (i - 31)) by lia. reflexivity.
    - rewrite (negative_testbit_high ts i) by lia. apply orb_true_r. }
  rewrite E, I64T_U64T. apply I64T_small. lia.
Qed.

(** X12. On events whose stored timestamp is not negative, and with
    overflow counters that are not negative, the 64-bit timestamp
    orders first by the overflow counter and then by the timestamp, so
    it never runs backwards when the counter goes up; and the counter
    and the timestamp can be read back from it as quotient and
    remainder by 2^31. This holds for polarity and for IMU9 events. *)
Theorem timestamp64_orders host (h1 h2 : caer_event_packet_header)
    (p1 p2 : Polarity.caer_polarity_event) (i1 i2 : IMU9.caer_imu9_event) :
  0 <= eventTSOverflow h1 <= INT32_MAX ->
  0 <= eventTSOverflow h2 <= INT32_MAX ->
  (0 <= Polarity.caerPolarityEventGetTimestamp host p1 ->
   0 <= Polarity.caerPolarityEventGetTimestamp host p2 ->
   let t1 := Polarity.caerPolarityEventGetTimestamp64 host p1 h1 in
   let t2 := Polarity.caerPolarityEventGetTimestamp64 host p2 h2 in
   (eventTSOverflow h1 < eventTSOverflow h2 -> t1 < t2) /\
   (eventTSOverflow h1 = eventTSOverflow h2 ->
    (t1 < t2 <-> Polarity.caerPolarityEventGetTimestamp host p1
                 < Polarity.caerPolarityEventGetTimestamp host p2)) /\
   t1 / 2 ^ 31 = eventTSOverflow h1 /\
   t1 mod 2 ^ 31 = Polarity.caerPolarityEventGetTimestamp host p1)
  /\
  (0 <= IMU9.caerIMU9EventGetTimestamp host i1 ->
   0 <= IMU9.caerIMU9EventGetTimestamp host i2 ->
   let t1 := IMU9.caerIMU9EventGetTimestamp64 host i1 h1 in
   let t2 := IMU9.caerIMU9EventGetTimestamp64 host i2 h2 in
   (eventTSOverflow h1 < eventTSOverflow h2 -> t1 < t2) /\
   (eventTSOverflow h1 = eventTSOverflow h2 ->
    (t1 < t2 <-> IMU9.caerIMU9EventGetTimestamp host i1
                 < IMU9.caerIMU9EventGetTimestamp host i2)) /\
   t1 / 2 ^ 31 = eventTSOverflow h1 /\
   t1 mod 2 ^ 31 = IMU9.caerIMU9EventGetTimestamp host i1).
Proof.
  intros Ho1 Ho2.
  assert (Order : forall o1 o2 s1 s2,
    0 <= o1 <= INT32_MAX -> 0 <= o2 <= INT32_MAX ->
    0 <= s1 <= INT32_MAX -> 0 <= s2 <= INT32_MAX ->
    let t1 := o1 * 2 ^ 31 + s1 in
    let t2 := o2 * 2 ^ 31 + s2 in
    (o1 < o2 -> t1 < t2) /\ (o1 = o2 -> (t1 < t2 <-> s1 < s2)) /\
    t1 / 2 ^ 31 = o1 /\ t1 mod 2 ^ 31 = s1).
  { intros o1 o2 s1 s2 A B C D. cbv zeta. unfold INT32_MAX in *.
    split; [nia |]. split; [intros ->; lia |].
    split.
    - rewrite Z.add_comm, Z.div_add by lia. rewrite Z.div_small by lia. lia.
    - rewrite Z.add_comm, Z.mod_add by lia. apply Z.mod_small. lia. }
  unfold Polarity.caerPolarityEventGetTimestamp64, IMU9.caerIMU9EventGetTimestamp64,
    caerEventPacketHeaderGetEventTSOverflow.
  split; intros Hs1 Hs2.
  - pose proof (I32T_range (le32toh host (Polarity.timestamp p1))).
    pose proof (I32T_range (le32toh host (Polarity.timestamp p2))).
    unfold Polarity.caerPolarityEventGetTimestamp in *.
    rewrite !timestamp64_sum by lia. apply Order; lia.
  - pose proof (I32T_range (le32toh host (IMU9.timestamp i1))).
    pose proof (I32T_range (le32toh host (IMU9.timestamp i2))).
    unfold IMU9.caerIMU9EventGetTimestamp in *.
    rewrite !timestamp64_sum by lia. apply Order; lia.
Qed.

(** X13. An event whose stored timestamp has the sign bit set (the
    setter refuses to store one, but the memory may hold it) gets that
    negative number as its 64-bit timestamp, whatever the overflow
    counter of the packet is: the counter is lost. This holds for
    polarity and for IMU9 events. *)
Theorem timestamp64_of_negative host (h : caer_event_packet_header)
    (pe : Polarity.caer_polarity_event) (ie : IMU9.caer_imu9_event) :
  (Polarity.caerPolarityEventGetTimestamp host pe < 0 ->
   Polarity.caerPolarityEventGetTimestamp64 host pe h
   = Polarity.caerPolarityEventGetTimestamp host pe) /\
  (IMU9.caerIMU9EventGetTimestamp host ie < 0 ->
   IMU9.caerIMU9EventGetTimestamp64 host ie h
   = IMU9.caerIMU9EventGetTimestamp host ie).
Proof.
  unfold Polarity.caerPolarityEventGetTimestamp64, IMU9.caerIMU9EventGetTimestamp64.
  split; intros Hneg; apply timestamp64_negative.
  - pose proof (I32T_range (le32toh host (Polarity.timestamp pe))).
    unfold Polarity.caerPolarityEventGetTimestamp in *. lia.
  - pose proof (I32T_range (le32toh host (IMU9.timestamp ie))).
    unfold IMU9.caerIMU9EventGetTimestamp in *. lia.
Qed.

(** ** The same memory on hosts of either byte order *)

Lemma le32toh_reread host d :
  le32toh (other_host host) (bswap32 (U32T d)) = le32toh host d.
Proof.
  destruct host; cbn.
  - rewrite (U32T_small (bswap32 _)) by apply bswap32_range.
    rewrite bswap32_involutive. apply U32T_idem.
  - apply U32T_small, bswap32_range.
Qed.

Lemma htole32_reread host x :
  htole32 (other_host host) x = bswap32 (U32T (htole32 host x)).
Proof.
  destruct host; cbn.
  - now rewrite U32T_idem.
  - rewrite (U32T_small (bswap32 _)) by apply bswap32_range.
    now rewrite bswap32_involutive, U32T_idem.
Qed.

Lemma polarity_word_reread host e :
  polarity_word (other_host host) (polarity_reread e) = polarity_word host e.
Proof. apply le32toh_reread. Qed.

Lemma reread_lor host d x :
  Z.lor (bswap32 (U32T d)) (htole32 (other_host host) x)
  = bswap32 (U32T (Z.lor d (htole32 host x))).
Proof. now rewrite htole32_reread, U32T_lor, bswap32_lor. Qed.

Lemma reread_land host d x :
  Z.land (bswap32 (U32T d)) (htole32 (other_host host) x)
  = bswap32 (U32T (Z.land d (htole32 host x))).
Proof. now rewrite htole32_reread, U32T_land, bswap32_land. Qed.

(** X14. A polarity event means the same on hosts of either byte order:
    read from the same memory by the other host, every getter returns
    the same value; and a setter, validate or invalidate run by the
    other host leaves in memory the bytes this host would have left. *)
Theorem polarity_byte_order_independent host nolog L
    (e : Polarity.caer_polarity_event) (h : caer_event_packet_header)
    (v ts : Z) (b : bool) :
  let other := other_host host in
  let e' := polarity_reread e in
  (Polarity.caerPolarityEventIsValid other e' = Polarity.caerPolarityEventIsValid host e /\
   Polarity.caerPolarityEventGetPolarity other e'
     = Polarity.caerPolarityEventGetPolarity host e /\
   Polarity.caerPolarityEventGetX other e' = Polarity.caerPolarityEventGetX host e /\
   Polarity.caerPolarityEventGetY other e' = Polarity.caerPolarityEventGetY host e /\
   Polarity.caerPolarityEventGetTimestamp other e'
     = Polarity.caerPolarityEventGetTimestamp host e /\
   Polarity.caerPolarityEventGetTimestamp64 other e' h
     = Polarity.caerPolarityEventGetTimestamp64 host e h)
  /\
  (Polarity.caerPolarityEventSetX other e' v
     = polarity_reread (Polarity.caerPolarityEventSetX host e v) /\
   Polarity.caerPolarityEventSetY other e' v
     = polarity_reread (Polarity.caerPolarityEventSetY host e v) /\
   Polarity.caerPolarityEventSetPolarity other e' b
     = polarity_reread (Polarity.caerPolarityEventSetPolarity host e b) /\
   run (Polarity.caerPolarityEventSetTimestamp other nolog e' ts) L
     = polarity_reread (run (Polarity.caerPolarityEventSetTimestamp host nolog e ts) L) /\
   run (Polarity.caerPolarityEventValidate other nolog e' h) L
     = (polarity_reread (fst (run (Polarity.caerPolarityEventValidate host nolog e h) L)),
        snd (run (Polarity.caerPolarityEventValidate host nolog e h) L)) /\
   run (Polarity.caerPolarityEventInvalidate other nolog e' h) L
     = (polarity_reread (fst (run (Polarity.caerPolarityEventInvalidate host nolog e h) L)),
        snd (run (Polarity.caerPolarityEventInvalidate host nolog e h) L))).
Proof.
  intros other e'. subst other e'.
  assert (TS : Polarity.caerPolarityEventGetTimestamp (other_host host) (polarity_reread e)
               = Polarity.caerPolarityEventGetTimestamp host e).
  { unfold Polarity.caerPolarityEventGetTimestamp, polarity_reread.
    cbn [Polarity.timestamp]. now rewrite le32toh_I32T, le32toh_reread. }
  assert (V : Polarity.caerPolarityEventIsValid (other_host host) (polarity_reread e)
              = Polarity.caerPolarityEventIsValid host e).
  { now rewrite !polarity_IsValid_word, polarity_word_reread. }
  split.
  - split; [exact V |].
    rewrite !polarity_GetPolarity_word, !polarity_GetX_word, !polarity_GetY_word.
    rewrite polarity_word_reread. repeat split; try exact TS.
    unfold Polarity.caerPolarityEventGetTimestamp64. now rewrite TS.
  - unfold Polarity.caerPolarityEventSetX, Polarity.caerPolarityEventSetY,
      Polarity.caerPolarityEventSetPolarity, Polarity.caerPolarityEventSetTimestamp.
    rewrite !guarded_run.
    rewrite !polarity_validate_cases, !polarity_invalidate_cases, V.
    unfold marked, unmarked, Polarity.set_data, Polarity.set_timestamp, polarity_reread.
    cbn [Polarity.data Polarity.timestamp].
    rewrite !reread_lor, !reread_land.
    repeat split; try reflexivity.
    + destruct (ts <? 0); [reflexivity |]. cbn [Polarity.data Polarity.timestamp].
      f_equal. rewrite htole32_reread, U32T_I32T. reflexivity.
    + destruct (Polarity.caerPolarityEventIsValid host e); reflexivity.
    + destruct (Polarity.caerPolarityEventIsValid host e); reflexivity.
Qed.

(** ** The float fields of the IMU9 event, beyond 1.5 *)

Lemma getter_field host c e :
  IMU9.getter host c e = through (le32toh host) (imu9_field c e).
Proof. now destruct c. Qed.

Lemma setter_through host c e v :
  IMU9.setter host c e v = None <-> through (htole32 host) v = None.
Proof.
  destruct c; cbn; unfold IMU9.caerIMU9EventSetAccelX, IMU9.caerIMU9EventSetAccelY,
    IMU9.caerIMU9EventSetAccelZ, IMU9.caerIMU9EventSetGyroX, IMU9.caerIMU9EventSetGyroY,
    IMU9.caerIMU9EventSetGyroZ, IMU9.caerIMU9EventSetTemp, IMU9.caerIMU9EventSetCompX,
    IMU9.caerIMU9EventSetCompY, IMU9.caerIMU9EventSetCompZ;
    destruct (through (htole32 host) v); cbn; split; congruence.
Qed.

(** What a setter stores and what it leaves. *)
Lemma setter_fields host c e v e' :
  IMU9.setter host c e v = Some e' ->
  through (htole32 host) v = Some (imu9_field c e') /\
  (forall c', c' <> c -> imu9_field c' e' = imu9_field c' e) /\
  IMU9.info e' = IMU9.info e /\
  IMU9.timestamp e' = IMU9.timestamp e.
Proof.
  destruct c; cbn; unfold IMU9.caerIMU9EventSetAccelX, IMU9.caerIMU9EventSetAccelY,
    IMU9.caerIMU9EventSetAccelZ, IMU9.caerIMU9EventSetGyroX, IMU9.caerIMU9EventSetGyroY,
    IMU9.caerIMU9EventSetGyroZ, IMU9.caerIMU9EventSetTemp, IMU9.caerIMU9EventSetCompX,
    IMU9.caerIMU9EventSetCompY, IMU9.caerIMU9EventSetCompZ;
    destruct (through (htole32 host) v) as [f |]; cbn; intros [= <-];
    (split; [reflexivity |]); (split; [| split; reflexivity]);
    intros c' Hc'; destruct c'; try reflexivity; contradiction.
Qed.

Lemma uint32_of_below_one v : below_one v -> uint32_of_float v = Some 0.
Proof.
  destruct v as [s | s | | s m e]; cbn; try contradiction; [reflexivity |].
  intros Hm.
  assert (He : e < 0).
  { destruct (Z.lt_ge_cases e 0) as [| Hge]; [assumption |]. exfalso.
    destruct (Z.eq_dec e 0) as [-> | Hne].
    - cbn in Hm. lia.
    - rewrite Z.pow_neg_r in Hm by lia. lia. }
  destruct (Z.leb_spec 0 e); [lia |].
  rewrite Z.div_small by lia. now destruct s.
Qed.

Lemma htole32_zero host : htole32 host 0 = 0.
Proof. now destruct host. Qed.

Lemma le32toh_zero host : le32toh host 0 = 0.
Proof. now destruct host. Qed.

(** X15. Every float of magnitude below one (0.5, -0.25, a zero of
    either sign) is stored as +0 by every setter of the IMU9 event, on
    either byte order: the setter succeeds and the getter returns +0. *)
Theorem imu9_fraction_reads_zero host (c : IMU9.channel)
    (e : IMU9.caer_imu9_event) (v : float) :
  below_one v ->
  exists e', IMU9.setter host c e v = Some e' /\
             imu9_field c e' = S754_zero false /\
             IMU9.getter host c e' = Some (S754_zero false).
Proof.
  intros Hv.
  assert (T : through (htole32 host) v = Some (S754_zero false)).
  { unfold through. rewrite (uint32_of_below_one v Hv), htole32_zero. reflexivity. }
  destruct (IMU9.setter host c e v) as [e' |] eqn:S.
  - exists e'. split; [reflexivity |].
    destruct (setter_fields host c e v e' S) as (F & _).
    rewrite T in F. injection F as F.
    split; [now symmetry |].
    rewrite getter_field, <- F. unfold through. cbn. now rewrite le32toh_zero.
  - apply setter_through in S. congruence.
Qed.

Lemma uint32_of_not_a_uint32 v : not_a_uint32 v -> uint32_of_float v = None.
Proof.
  destruct v as [s | s | | s m e]; cbn; try contradiction; try reflexivity.
  destruct s.
  - intros [He | [He Hm]].
    + destruct (Z.leb_spec 0 e); [| lia].
      assert (0 < Z.pos m * 2 ^ e) by (apply Z.mul_pos_pos; [lia | apply Z.pow_pos_nonneg; lia]).
      destruct (Z.leb_spec 0 (- (Z.pos m * 2 ^ e))); [lia | reflexivity].
    + destruct (Z.leb_spec 0 e); [lia |].
      assert (P : 0 < 2 ^ (- e)) by (apply Z.pow_pos_nonneg; lia).
      assert (1 <= Z.pos m / 2 ^ (- e)).
      { apply Z.div_le_lower_bound; lia. }
      destruct (Z.leb_spec 0 (- (Z.pos m / 2 ^ (- e)))); [lia | reflexivity].
  - intros [He Hm]. destruct (Z.leb_spec 0 e); [| lia].
    destruct (Z.ltb_spec (Z.pos m * 2 ^ e) (2 ^ 32)); [lia |].
    now rewrite andb_false_r.
Qed.

(** X16. The setters of the IMU9 event have no defined result for a NaN,
    an infinity, a negative value of magnitude one or more (-1.0, -9.81)
    or a value of 2^32 or more: the conversion of such a float to
    [uint32_t], which [htole32] forces, is undefined in C. A getter has
    none either when the field holds such a value. *)
Theorem imu9_setter_undefined host (c : IMU9.channel)
    (e : IMU9.caer_imu9_event) (v : float) :
  (not_a_uint32 v -> IMU9.setter host c e v = None) /\
  (not_a_uint32 (imu9_field c e) -> IMU9.getter host c e = None).
Proof.
  split; intros Hv.
  - apply setter_through. unfold through.
    now rewrite (uint32_of_not_a_uint32 v Hv).
  - rewrite getter_field. unfold through.
    now rewrite (uint32_of_not_a_uint32 _ Hv).
Qed.

(** X17. A setter of the IMU9 event that succeeds writes its own float
    field and nothing else: the nine other float fields, the info word
    (and so the validity mark) and the timestamp are as before, and the
    getters of the other channels return what they returned before. *)
Theorem imu9_setter_frame host (c : IMU9.channel)
    (e e' : IMU9.caer_imu9_event) (v : float) :
  IMU9.setter host c e v = Some e' ->
  (forall c', c' <> c ->
     imu9_field c' e' = imu9_field c' e /\
     IMU9.getter host c' e' = IMU9.getter host c' e) /\
  IMU9.info e' = IMU9.info e /\
  IMU9.caerIMU9EventIsValid host e' = IMU9.caerIMU9EventIsValid host e /\
  IMU9.caerIMU9EventGetTimestamp host e' = IMU9.caerIMU9EventGetTimestamp host e.
Proof.
  intros S. destruct (setter_fields host c e v e' S) as (_ & F & I & T).
  split; [| split; [exact I | split]].
  - intros c' Hc'. split; [now apply F |]. rewrite !getter_field. now rewrite F.
  - unfold IMU9.caerIMU9EventIsValid. now rewrite I.
  - unfold IMU9.caerIMU9EventGetTimestamp. now rewrite T.
Qed.

(** ** The counters of a polarity packet *)

(** X18. In a polarity packet, after any sequence of validate and
    invalidate calls (at most [INT32_MAX] of them) on a freshly
    allocated packet, [eventValid] is exactly the number of events
    whose validity bit is set, and the packet still has as many events
    as its capacity, which has not changed. *)
Theorem event_valid_counts_valid_events host nolog tid c src ov p0 cs L :
  c <= INT32_MAX ->
  PolarityPacket.caerPolarityEventPacketAllocate tid c src ov = Some p0 ->
  Z.of_nat (length cs) <= INT32_MAX ->
  let p := run (PolarityPacket.perform_all host nolog p0 cs) L in
  eventValid (Polarity.packetHeader p)
    = count (Polarity.caerPolarityEventIsValid host) (Polarity.events p) /\
  Z.of_nat (length (Polarity.events p)) = c /\
  eventCapacity (Polarity.packetHeader p) = c.
Proof.
  intros Hmax Halloc Hlen p.
  destruct (allocate_tracked host tid c src ov p0 Hmax Halloc) as (_ & _ & _ & C).
  pose proof (counting_run host nolog c cs 0 p0 L C ltac:(lia)) as C'.
  fold p in C'. destruct C'. auto.
Qed.

(** ** Packets of IMU9 events run like packets of polarity events *)

Lemma polarity_perform_cases host nolog p c L :
  run (PolarityPacket.perform host nolog p c) L =
  let n := match c with PolarityPacket.Validate n | PolarityPacket.Invalidate n => n end in
  if (n <? 0) || (n >=? eventCapacity (Polarity.packetHeader p)) then p
  else match Polarity.events p !! Z.to_nat n with
       | None => p
       | Some e =>
           let r := match c with
                    | PolarityPacket.Validate _ =>
                        if Polarity.caerPolarityEventIsValid host e
                        then (e, Polarity.packetHeader p)
                        else (marked host e, counted (Polarity.packetHeader p))
                    | PolarityPacket.Invalidate _ =>
                        if Polarity.caerPolarityEventIsValid host e
                        then (unmarked host e, uncounted (Polarity.packetHeader p))
                        else (e, Polarity.packetHeader p)
                    end in
           PolarityPacket.store p n (fst r) (snd r)
       end.
Proof.
  cbv zeta.
  set (n := match c with PolarityPacket.Validate n | PolarityPacket.Invalidate n => n end).
  assert (Hc : c = PolarityPacket.Validate n \/ c = PolarityPacket.Invalidate n)
    by (destruct c; auto).
  destruct (Z.ltb_spec n 0); cbn [orb];
    [apply (perform_out_of_range host nolog p c n); auto |].
  destruct (Z.geb_spec n (eventCapacity (Polarity.packetHeader p)));
    [apply (perform_out_of_range host nolog p c n); auto; lia |].
  destruct (Polarity.events p !! Z.to_nat n) as [e |] eqn:He;
    [| now apply (perform_no_event host nolog p c n)].
  destruct c as [m | m]; subst n;
    unfold run, PolarityPacket.perform; rewrite on_event_in_range by lia;
    rewrite He; cbn [fst].
  - pose proof (polarity_validate_cases host nolog e (Polarity.packetHeader p) L) as E.
    unfold run in E. now rewrite E.
  - pose proof (polarity_invalidate_cases host nolog e (Polarity.packetHeader p) L) as E.
    unfold run in E. now rewrite E.
Qed.

Lemma imu9_perform_cases host nolog p c L :
  run (IMU9Packet.perform host nolog p c) L =
  let n := match c with PolarityPacket.Validate n | PolarityPacket.Invalidate n => n end in
  if (n <? 0) || (n >=? eventCapacity (IMU9.packetHeader p)) then p
  else match IMU9.events p !! Z.to_nat n with
       | None => p
       | Some e =>
           let r := match c with
                    | PolarityPacket.Validate _ =>
                        run (IMU9.caerIMU9EventValidate host nolog e (IMU9.packetHeader p)) L
                    | PolarityPacket.Invalidate _ =>
                        run (IMU9.caerIMU9EventInvalidate host nolog e (IMU9.packetHeader p)) L
                    end in
           IMU9Packet.store p n (fst r) (snd r)
       end.
Proof.
  cbv zeta.
  destruct c as [n | n];
    unfold run, IMU9Packet.perform, IMU9Packet.on_event,
      IMU9.caerIMU9EventPacketGetEvent, caerEventPacketHeaderGetEventCapacity;
    (destruct ((n <? 0) || (n >=? eventCapacity (IMU9.packetHeader p)));
     [unfold bind, diagnose, ret; now destruct nolog |]);
    cbn; unfold IMU9Packet.load, bind, ret;
    (destruct (IMU9.events p !! Z.to_nat n) as [e |]; [| reflexivity]); cbn.
  - now destruct (IMU9.caerIMU9EventValidate host nolog e (IMU9.packetHeader p) L)
      as [[e' h'] L'].
  - now destruct (IMU9.caerIMU9EventInvalidate host nolog e (IMU9.packetHeader p) L)
      as [[e' h'] L'].
Qed.

Lemma heads_store p n e h :
  heads_of_imu9 (IMU9Packet.store p n e h)
  = PolarityPacket.store (heads_of_imu9 p) n (head_of_imu9 e) h.
Proof.
  unfold heads_of_imu9, IMU9Packet.store, PolarityPacket.store.
  cbn [IMU9.packetHeader IMU9.events Polarity.packetHeader Polarity.events].
  f_equal. apply (list_fmap_insert head_of_imu9).
Qed.

(** One call on an IMU9 packet does to the heads of its events what the
    call does on the polarity packet of those heads. *)
Lemma heads_perform host nolog nolog' p c L L' :
  heads_of_imu9 (run (IMU9Packet.perform host nolog p c) L)
  = run (PolarityPacket.perform host nolog' (heads_of_imu9 p) c) L'.
Proof.
  rewrite imu9_perform_cases, polarity_perform_cases. cbv zeta.
  cbn [heads_of_imu9 Polarity.packetHeader Polarity.events].
  destruct (_ || _); [reflexivity |].
  change (map head_of_imu9 (IMU9.events p)) with (head_of_imu9 <$> IMU9.events p).
  rewrite list_lookup_fmap.
  destruct (IMU9.events p !! _) as [e |]; [| reflexivity]. cbn [fmap option_fmap option_map].
  change (Polarity.caerPolarityEventIsValid host (head_of_imu9 e))
    with (IMU9.caerIMU9EventIsValid host e).
  destruct c as [n | n];
    rewrite ?imu9_validate_cases, ?imu9_invalidate_cases;
    destruct (IMU9.caerIMU9EventIsValid host e); cbn [fst snd];
    apply heads_store.
Qed.

Lemma imu9_perform_all_cons host nolog p c cs L :
  run (IMU9Packet.perform_all host nolog p (c :: cs)) L
  = run (IMU9Packet.perform_all host nolog (run (IMU9Packet.perform host nolog p c) L) cs)
        (log_after (IMU9Packet.perform host nolog p c) L).
Proof.
  unfold run, log_after. cbn [IMU9Packet.perform_all]. unfold bind.
  now destruct (IMU9Packet.perform host nolog p c L).
Qed.

Lemma heads_perform_all host nolog nolog' cs : forall p L L',
  heads_of_imu9 (run (IMU9Packet.perform_all host nolog p cs) L)
  = run (PolarityPacket.perform_all host nolog' (heads_of_imu9 p) cs) L'.
Proof.
  induction cs as [| c cs IH]; intros p L L'; [reflexivity |].
  rewrite imu9_perform_all_cons, perform_all_cons.
  rewrite (IH _ _ (log_after (PolarityPacket.perform host nolog' (heads_of_imu9 p) c) L')).
  f_equal. f_equal. apply heads_perform.
Qed.

Lemma count_heads host l :
  count (Polarity.caerPolarityEventIsValid host) (map head_of_imu9 l)
  = count (IMU9.caerIMU9EventIsValid host) l.
Proof. induction l as [| e l IH]; cbn [map count]; [reflexivity | now rewrite IH]. Qed.

Lemma heads_allocate tid c src ov p0 :
  IMU9Packet.caerIMU9EventPacketAllocate tid c src ov = Some p0 ->
  PolarityPacket.caerPolarityEventPacketAllocate tid c src ov = Some (heads_of_imu9 p0).
Proof.
  unfold IMU9Packet.caerIMU9EventPacketAllocate,
    PolarityPacket.caerPolarityEventPacketAllocate.
  destruct (c <=? 0); [discriminate |]. intros [= <-].
  unfold heads_of_imu9. cbn [IMU9.packetHeader IMU9.events]. do 2 f_equal.
  change (map head_of_imu9 ?l) with (head_of_imu9 <$> l). now rewrite fmap_replicate.
Qed.

(** X19. The header of an IMU9 packet obeys what the header of a
    polarity packet obeys. From a freshly allocated IMU9 packet, every
    sequence of validate and invalidate calls in which no event is
    validated after a call that invalidates it keeps
    [0 <= eventValid <= eventNumber <= eventCapacity]; and every
    sequence of at most [INT32_MAX] calls keeps [eventValid] equal to
    the number of events whose validity bit is set, and at most
    [eventNumber]. *)
Theorem imu9_header_invariant host nolog tid c src ov p0 cs L :
  c <= INT32_MAX ->
  IMU9Packet.caerIMU9EventPacketAllocate tid c src ov = Some p0 ->
  let p := run (IMU9Packet.perform_all host nolog p0 cs) L in
  let h := IMU9.packetHeader p in
  (PolarityPacket.no_revalidation cs -> PolarityPacket.header_invariant h) /\
  (Z.of_nat (length cs) <= INT32_MAX ->
   eventValid h = count (IMU9.caerIMU9EventIsValid host) (IMU9.events p) /\
   0 <= eventValid h /\ eventValid h <= eventNumber h /\ eventValid h <= eventCapacity h).
Proof.
  intros Hmax Halloc p h.
  apply heads_allocate in Halloc.
  destruct (allocate_tracked host tid c src ov _ Hmax Halloc) as (Hc & T & P & C).
  pose proof (heads_perform_all host nolog nolog cs p0 L L) as Sim. fold p in Sim.
  change h with (Polarity.packetHeader (heads_of_imu9 p)).
  split.
  - intros N.
    destruct (tracked_run host nolog c cs _ _ L T) as [t' T'].
    + intros i e _ _ Hi. apply lookup_replicate in Hi as [[=] _].
    + exact N.
    + rewrite Sim. apply (tracked_invariant host c _ t'); [lia | exact T'].
  - intros Hlen.
    pose proof (counting_run host nolog c cs 0 _ L C ltac:(lia)) as C'.
    rewrite <- Sim in C'.
    pose proof (counting_number _ _ _ _ C') as Hn.
    pose proof (counting_valid _ _ _ _ C') as Hv.
    pose proof (counting_events _ _ _ _ C') as He.
    pose proof (counting_capacity _ _ _ _ C') as Hcap.
    cbn [heads_of_imu9 Polarity.packetHeader Polarity.events] in *.
    rewrite count_heads in Hv.
    pose proof (count_bounds (IMU9.caerIMU9EventIsValid host) (IMU9.events p)) as B.
    rewrite length_map in He. lia.
Qed.

(** ** One call on a packet *)

(** X20. A validate or invalidate call on event [n] of a polarity packet
    leaves every other event as it was, keeps the number of events, and
    changes none of the header fields type, source, overflow counter
    and capacity; [eventNumber] stays or goes up by one and
    [eventValid] moves by one at most (the counters being where their
    sums are defined). *)
Theorem perform_frame host nolog L (p : Polarity.caer_polarity_event_packet)
    (c : PolarityPacket.call) :
  let p' := run (PolarityPacket.perform host nolog p c) L in
  let h := Polarity.packetHeader p in
  let h' := Polarity.packetHeader p' in
  (forall i, i <> Z.to_nat (index_of c) ->
     Polarity.events p' !! i = Polarity.events p !! i) /\
  length (Polarity.events p') = length (Polarity.events p) /\
  (eventType h', eventSource h', eventTSOverflow h', eventCapacity h')
    = (eventType h, eventSource h, eventTSOverflow h, eventCapacity h) /\
  (INT32_MIN <= eventNumber h < INT32_MAX ->
   INT32_MIN < eventValid h < INT32_MAX ->
   eventNumber h <= eventNumber h' <= eventNumber h + 1 /\
   eventValid h - 1 <= eventValid h' <= eventValid h + 1).
Proof.
  intros p' h h'. subst p' h h'. rewrite polarity_perform_cases. cbv zeta.
  fold (index_of c).
  assert (Same :
    (forall i, i <> Z.to_nat (index_of c) ->
       Polarity.events p !! i = Polarity.events p !! i) /\
    length (Polarity.events p) = length (Polarity.events p) /\
    (eventType (Polarity.packetHeader p), eventSource (Polarity.packetHeader p),
     eventTSOverflow (Polarity.packetHeader p), eventCapacity (Polarity.packetHeader p))
    = (eventType (Polarity.packetHeader p), eventSource (Polarity.packetHeader p),
       eventTSOverflow (Polarity.packetHeader p), eventCapacity (Polarity.packetHeader p)) /\
    (INT32_MIN <= eventNumber (Polarity.packetHeader p) < INT32_MAX ->
     INT32_MIN < eventValid (Polarity.packetHeader p) < INT32_MAX ->
     eventNumber (Polarity.packetHeader p) <= eventNumber (Polarity.packetHeader p)
       <= eventNumber (Polarity.packetHeader p) + 1 /\
     eventValid (Polarity.packetHeader p) - 1 <= eventValid (Polarity.packetHeader p)
       <= eventValid (Polarity.packetHeader p) + 1))
    by (repeat split; lia).
  destruct (_ || _); [exact Same |].
  destruct (Polarity.events p !! Z.to_nat (index_of c)) as [e |] eqn:He; [| exact Same].
  destruct c as [n | n]; cbn [index_of] in *;
    destruct (Polarity.caerPolarityEventIsValid host e);
    cbn [fst snd PolarityPacket.store Polarity.events Polarity.packetHeader
         counted uncounted eventType eventSource eventTSOverflow eventCapacity
         eventNumber eventValid];
    (split; [intros i Hi; now apply list_lookup_insert_ne |]);
    (split; [apply length_insert |]);
    (split; [reflexivity |]);
    intros Hn Hv; rewrite ?add32_exact, ?sub32_exact by lia; lia.
Qed.

(** ** Calls on different events *)







(** ** The further properties at concrete inputs *)

Lemma log_threshold_filters_witness :
  let s' := Logger.caerLog Logger.CAER_LOG_CRITICAL (Some "IMU9 Event"%string)
              (Some "negative"%string) []
              (Logger.caerLogLevelSet Logger.CAER_LOG_ALERT sample_log) in
  let s'' := Logger.caerLog Logger.CAER_LOG_CRITICAL (Some "IMU9 Event"%string)
               (Some "negative"%string) []
               (Logger.caerLogLevelSet Logger.CAER_LOG_DEBUG sample_log) in
  Logger.stderr s' = [] /\ length (Logger.stderr s'') = 1%nat.
Proof.
  pose proof (log_threshold_filters Logger.CAER_LOG_ALERT Logger.CAER_LOG_CRITICAL
                "IMU9 Event" "negative" [] sample_log) as A.
  pose proof (log_threshold_filters Logger.CAER_LOG_DEBUG Logger.CAER_LOG_CRITICAL
                "IMU9 Event" "negative" [] sample_log) as B.
  destruct A as (_ & _ & A); [concrete | concrete |].
  destruct B as (_ & B & _); [concrete | concrete |].
  split; [apply A; concrete |]. cbv zeta. rewrite B by concrete. reflexivity.
Defined.

Lemma log_null_strings_witness :
  Logger.caerLog Logger.CAER_LOG_EMERGENCY None (Some "lost"%string) [7]
    (Logger.caerLogLevelSet Logger.CAER_LOG_CRITICAL sample_log)
  = Logger.caerLogLevelSet Logger.CAER_LOG_CRITICAL sample_log.
Proof.
  pose proof (log_null_strings Logger.CAER_LOG_EMERGENCY None (Some "lost"%string) [7]
                (Logger.caerLogLevelSet Logger.CAER_LOG_CRITICAL sample_log)
                (or_introl eq_refl)) as (_ & _ & A).
  apply A. concrete.
Defined.

Lemma validity_frame_witness :
  Z.testbit (le32toh BigEndian
               (Polarity.data
                  (fst (run (Polarity.caerPolarityEventInvalidate BigEndian false
                               (polarity_reread sample_valid_polarity) sample_header)
                            sample_log)))) 17
  = Z.testbit (le32toh BigEndian (Polarity.data (polarity_reread sample_valid_polarity))) 17.
Proof.
  pose proof (validity_frame BigEndian false sample_log sample_header
                (polarity_reread sample_valid_polarity) (sample_imu9 1))
    as (_ & (_ & _ & _ & _ & A) & _).
  apply A. lia.
Defined.

Lemma set_timestamp_frame_witness :
  0 <= Polarity.caerPolarityEventGetTimestamp LittleEndian
         (run (Polarity.caerPolarityEventSetTimestamp LittleEndian false
                 (sample_polarity 0) (-7)) sample_log) /\
  0 <= IMU9.caerIMU9EventGetTimestamp LittleEndian
         (run (IMU9.caerIMU9EventSetTimestamp LittleEndian false
                 (sample_imu9 0) 9) sample_log).
Proof.
  pose proof (set_timestamp_frame LittleEndian false sample_log (-7)
                (sample_polarity 0) (sample_imu9 0)) as (_ & _ & A).
  pose proof (set_timestamp_frame LittleEndian false sample_log 9
                (sample_polarity 0) (sample_imu9 0)) as (_ & _ & B).
  destruct A as (A & _); [concrete |]. destruct B as (_ & B); [concrete |].
  split; [apply A; concrete | apply B; concrete].
Defined.

Lemma polarity_event_round_trip_witness :
  let e :=
    run (Polarity.caerPolarityEventSetTimestamp BigEndian false
           (Polarity.caerPolarityEventSetPolarity BigEndian
              (Polarity.caerPolarityEventSetY BigEndian
                 (Polarity.caerPolarityEventSetX BigEndian
                    {| Polarity.data := 0; Polarity.timestamp := 0 |} 100) 200) true)
           42) sample_log in
  Polarity.caerPolarityEventGetX BigEndian e = 100 /\
  Polarity.caerPolarityEventGetY BigEndian e = 200 /\
  Polarity.caerPolarityEventGetPolarity BigEndian e = true /\
  Polarity.caerPolarityEventGetTimestamp BigEndian e = 42 /\
  Polarity.caerPolarityEventIsValid BigEndian e = false.
Proof.
  apply (polarity_event_round_trip BigEndian false sample_log sample_header
           100 200 42 true); concrete.
Defined.

Lemma polarity_address_wraps_witness :
  Polarity.caerPolarityEventGetX LittleEndian
    (Polarity.caerPolarityEventSetX LittleEndian (sample_polarity 0) 40000) = 7232.
Proof.
  apply (polarity_address_wraps LittleEndian (sample_polarity 0) 40000). reflexivity.
Defined.

Lemma invalidate_then_validate_witness :
  run (in_turn (Polarity.caerPolarityEventInvalidate LittleEndian false)
               (Polarity.caerPolarityEventValidate LittleEndian false)
               sample_valid_polarity sample_header) sample_log
    = (sample_valid_polarity, recounted sample_header) /\
  run (in_turn (IMU9.caerIMU9EventInvalidate BigEndian false)
               (IMU9.caerIMU9EventValidate BigEndian false)
               (sample_imu9 16777216) sample_header) sample_log
    = (sample_imu9 16777216, recounted sample_header).
Proof.
  pose proof (invalidate_then_validate LittleEndian false sample_log sample_header
                sample_valid_polarity (sample_imu9 16777216)) as A.
  pose proof (invalidate_then_validate BigEndian false sample_log sample_header
                sample_valid_polarity (sample_imu9 16777216)) as B.
  destruct A as (A & _); [concrete | concrete |].
  destruct B as (_ & B); [concrete | concrete |].
  split; [apply A; concrete | apply B; concrete].
Defined.

Lemma timestamp64_orders_witness :
  Polarity.caerPolarityEventGetTimestamp64 LittleEndian (sample_polarity 0)
    {| eventType := 1; eventSource := 0; eventTSOverflow := 2;
       eventCapacity := 2; eventNumber := 0; eventValid := 0 |}
  < Polarity.caerPolarityEventGetTimestamp64 LittleEndian
      {| Polarity.data := 0; Polarity.timestamp := 0 |} sample_header /\
  IMU9.caerIMU9EventGetTimestamp64 LittleEndian (sample_imu9 0) sample_header / 2 ^ 31 = 3.
Proof.
  pose proof (timestamp64_orders LittleEndian
                {| eventType := 1; eventSource := 0; eventTSOverflow := 2;
                   eventCapacity := 2; eventNumber := 0; eventValid := 0 |}
                sample_header (sample_polarity 0)
                {| Polarity.data := 0; Polarity.timestamp := 0 |}
                (sample_imu9 0) (sample_imu9 0)) as A.
  pose proof (timestamp64_orders LittleEndian sample_header sample_header
                (sample_polarity 0) (sample_polarity 0)
                (sample_imu9 0) (sample_imu9 0)) as B.
  destruct A as (A & _); [concrete | concrete |].
  destruct B as (_ & B); [concrete | concrete |].
  destruct (A ltac:(concrete) ltac:(concrete)) as (A1 & _).
  destruct (B ltac:(concrete) ltac:(concrete)) as (_ & _ & B3 & _).
  split; [apply A1; concrete | exact B3].
Defined.

Lemma timestamp64_of_negative_witness :
  Polarity.caerPolarityEventGetTimestamp64 LittleEndian
    {| Polarity.data := 0; Polarity.timestamp := -5 |} sample_header = -5 /\
  IMU9.caerIMU9EventGetTimestamp64 LittleEndian
    (IMU9.set_timestamp (sample_imu9 0) (-1)) sample_header = -1.
Proof.
  pose proof (timestamp64_of_negative LittleEndian sample_header
                {| Polarity.data := 0; Polarity.timestamp := -5 |}
                (IMU9.set_timestamp (sample_imu9 0) (-1))) as (A & B).
  split; [apply A; concrete | apply B; concrete].
Defined.

Lemma imu9_fraction_reads_zero_witness :
  exists e', IMU9.setter BigEndian IMU9.Temp (sample_imu9 0) one_half = Some e' /\
             imu9_field IMU9.Temp e' = S754_zero false /\
             IMU9.getter BigEndian IMU9.Temp e' = Some (S754_zero false).
Proof.
  apply (imu9_fraction_reads_zero BigEndian IMU9.Temp (sample_imu9 0) one_half).
  concrete.
Defined.

Lemma imu9_setter_undefined_witness :
  IMU9.setter LittleEndian IMU9.GyroZ (sample_imu9 0) minus_one = None /\
  IMU9.getter LittleEndian IMU9.AccelX
    (IMU9.set_accel_x (sample_imu9 0) S754_nan) = None.
Proof.
  pose proof (imu9_setter_undefined LittleEndian IMU9.GyroZ (sample_imu9 0) minus_one)
    as (A & _).
  pose proof (imu9_setter_undefined LittleEndian IMU9.AccelX
                (IMU9.set_accel_x (sample_imu9 0) S754_nan) minus_one) as (_ & B).
  split; [apply A; right; concrete | apply B; exact I].
Defined.

Lemma imu9_setter_frame_witness :
  IMU9.getter LittleEndian IMU9.CompY (IMU9.set_accel_z (sample_imu9 1) one)
    = IMU9.getter LittleEndian IMU9.CompY (sample_imu9 1) /\
  IMU9.caerIMU9EventIsValid LittleEndian (IMU9.set_accel_z (sample_imu9 1) one) = true.
Proof.
  assert (S : IMU9.setter LittleEndian IMU9.AccelZ (sample_imu9 1) one_and_a_half
              = Some (IMU9.set_accel_z (sample_imu9 1) one)) by reflexivity.
  pose proof (imu9_setter_frame LittleEndian IMU9.AccelZ (sample_imu9 1) _
                one_and_a_half S) as (A & _ & B & _).
  split; [apply A; discriminate | rewrite B; reflexivity].
Defined.

Lemma event_valid_counts_valid_events_witness :
  let p := run (PolarityPacket.perform_all LittleEndian false fresh_packet_of_two
                  [PolarityPacket.Validate 1; PolarityPacket.Invalidate 1;
                   PolarityPacket.Validate 0; PolarityPacket.Validate 1]) sample_log in
  eventValid (Polarity.packetHeader p)
    = count (Polarity.caerPolarityEventIsValid LittleEndian) (Polarity.events p) /\
  Z.of_nat (length (Polarity.events p)) = 2 /\
  eventCapacity (Polarity.packetHeader p) = 2.
Proof.
  apply (event_valid_counts_valid_events LittleEndian false 1 2 0 0 fresh_packet_of_two);
    [concrete | reflexivity | concrete].
Defined.

Lemma imu9_header_invariant_witness :
  let cs := [PolarityPacket.Validate 0; PolarityPacket.Validate 1;
             PolarityPacket.Invalidate 0] in
  let p := run (IMU9Packet.perform_all BigEndian false fresh_imu9_packet_of_two cs)
               sample_log in
  PolarityPacket.header_invariant (IMU9.packetHeader p) /\
  eventValid (IMU9.packetHeader p)
    = count (IMU9.caerIMU9EventIsValid BigEndian) (IMU9.events p).
Proof.
  intros cs p.
  assert (Hmax : 2 <= INT32_MAX) by concrete.
  assert (Halloc : IMU9Packet.caerIMU9EventPacketAllocate 4 2 0 0
                   = Some fresh_imu9_packet_of_two) by reflexivity.
  pose proof (imu9_header_invariant BigEndian false 4 2 0 0
                fresh_imu9_packet_of_two cs sample_log Hmax Halloc) as (A & B).
  split.
  - apply A. cbn. split; [intros [] | exact I].
  - apply B. concrete.
Defined.

Lemma perform_frame_witness :
  let p' := run (PolarityPacket.perform LittleEndian false sample_polarity_packet
                   (PolarityPacket.Validate 1)) sample_log in
  Polarity.events p' !! 0%nat = Polarity.events sample_polarity_packet !! 0%nat /\
  eventNumber sample_header <= eventNumber (Polarity.packetHeader p')
    <= eventNumber sample_header + 1.
Proof.
  pose proof (perform_frame LittleEndian false sample_log sample_polarity_packet
                (PolarityPacket.Validate 1)) as (A & _ & _ & B).
  split; [apply A; discriminate |].
  apply B; concrete.
Defined.

